(** * Verification of the Jira bulk-administration toolkit (main.py)

    The development embeds the query builder [get_query], the paginated
    iterator [iterate_jql_results] and the two mutating command handlers
    [remap_user] and [copy_watchers] of main.py.

    The remote tracker ([atlassian.jira.Jira]) is an interface: a type class
    [Backend] over an abstract backend state.  The Python code runs in a
    small monad that threads the backend state and the handler's [nonlocal]
    counter, raises exceptions, and writes an output stream in which remote
    calls (with their answers) and log records are interleaved in program
    order.  [while True] is bounded by a fuel argument that counts fetches. *)

From Stdlib Require Import Ascii String Lia.
From stdpp Require Import base strings pretty list gmap.

(* stdpp's solvers clear hypotheses that may not exist. *)
#[local] Set Warnings "-clear-no-such-hyp".

Local Open Scope string_scope.
Local Open Scope list_scope.
Local Open Scope nat_scope.
Local Open Scope stdpp_scope.

(** ** Strings of the query language *)

(** The double-quote character, written by its decimal code. *)
Definition dquote : string := String "034"%char EmptyString.

(** Python's [s or ''] for [s : str | None]. *)
Definition or_empty (s : option string) : string :=
  match s with
  | Some s => s
  | None => EmptyString
  end.

(** Python truthiness of a value of type [str | None]: [None] and the empty
    string are falsy. *)
Definition truthy (s : option string) : bool :=
  match s with
  | Some (String _ _) => true
  | _ => false
  end.

(** main.py, [get_query]. *)
Definition get_query (seed_query cutoff_date : option string) : string :=
  let query := or_empty seed_query in
  if truthy cutoff_date
  then query +:+ " Updated >= " +:+ dquote +:+ or_empty cutoff_date +:+ dquote
             +:+ " ORDER BY Updated ASC"
  else query +:+ " ORDER BY Updated ASC".

(** main.py, [copy_watchers]: ['watcher = "%s"' % user_id]. *)
Definition watching_query (user_id : string) : string :=
  "watcher = " +:+ dquote +:+ user_id +:+ dquote.

(** ** Data model *)

(** A user reference inside an issue or an update: [{"accountId": ...}]. *)
Record UserRef := { accountId : string }.

(** What [jira_api.myself()] and [jira_api.user()] answer. *)
Record UserInfo := { user_accountId : string; emailAddress : string }.

Record Fields := {
  created : string;
  summary : string;
  creator : UserRef;
  assignee : option UserRef;
  reporter : option UserRef
}.

Record Issue := { key : string; fields : Fields }.

(** The [updates] dict of [process_issue]: field name to new user reference. *)
Abbreviation Updates := (gmap string UserRef).

(** The request body [{'fields': updates}]. *)
Record Payload := { payload_fields : Updates }.

(** Exceptions carry their message. *)
Definition Exn := string.

(** The value a Python function returns. *)
Inductive PyValue :=
  | PyNone
  | PyInt (n : nat).

(** ** The remote tracker *)

(** [atlassian.jira.Jira] as consumed by main.py.  Every call may change the
    backend state and may raise: reads answer [inl e] and mutations
    [Some e] when they raise [e]. *)
Class Backend (B : Type) := {
  api_jql : string -> nat -> nat -> B -> (Exn + list Issue) * B;
  api_myself : B -> (Exn + UserInfo) * B;
  api_user : string -> B -> (Exn + UserInfo) * B;
  api_update_issue : string -> Payload -> B -> option Exn * B;
  api_issue_add_watcher : string -> string -> B -> option Exn * B
}.

(** Remote calls as they appear in the output stream, with their answers. *)
Inductive Event :=
  | EvJql (query : string) (start limit : nat) (r : Exn + list Issue)
  | EvMyself (r : Exn + UserInfo)
  | EvUser (account_id : string) (r : Exn + UserInfo)
  | EvUpdateIssue (issue_key : string) (updates : Payload) (r : option Exn)
  | EvAddWatcher (issue_key user_id : string) (r : option Exn).

(** The LOGGER calls of main.py, one constructor per call site. *)
Inductive Message :=
  | MsgFetching (start stop : nat)
  | MsgLastPage
  | MsgRemapping (source target : string) (dry_run : bool)
  | MsgLoggedIn (account_id email : string)
  | MsgNotSameUser (source account_id : string)
  | MsgTargetEmail (email : string)
  | MsgDryRunUpdate (issue_key : string) (updates : Payload)
  | MsgUpdating (issue_key : string) (updates : Payload)
  | MsgUpdateFailed (issue_key : string) (e : Exn)
  | MsgProcessing (issue_key : string)
  | MsgProcessingWatched (issue_key : string)
  | MsgUpdated (n : nat)
  | MsgCopying (source_email target_email : string) (dry_run : bool)
  | MsgDryRunWatcher (target issue_key : string)
  | MsgAddingWatcher (target issue_key : string)
  | MsgAddWatcherFailed (issue_key : string) (e : Exn)
  | MsgFetchingWatched (target_email : string)
  | MsgAlreadyWatching (n : nat)
  | MsgAlreadyWatched (issue_key target_email : string).

Inductive Level := DEBUG | INFO | WARNING | ERROR.

Definition level (m : Message) : Level :=
  match m with
  | MsgNotSameUser _ _ => WARNING
  | MsgUpdateFailed _ _ | MsgAddWatcherFailed _ _ => ERROR
  | MsgProcessingWatched _ | MsgAlreadyWatched _ _ => DEBUG
  | _ => INFO
  end.

Inductive Output :=
  | Call (e : Event)
  | Log (m : Message).

(** ** The monad of the handlers *)

Inductive Outcome (A : Type) :=
  | Done (a : A)
  | Raised (e : Exn)
  | OutOfFuel.
Arguments Done {A} a.
Arguments Raised {A} e.
Arguments OutOfFuel {A}.

Section Monad.
Context {B : Type}.

(** What a handler can read and write: the backend and its own
    [issues_updated] counter. *)
Record Frame := { backend : B; issues_updated : nat }.

Record Run (A : Type) := {
  outcome : Outcome A;
  final : Frame;
  output : list Output
}.
Arguments outcome {A} r.
Arguments final {A} r.
Arguments output {A} r.

Definition M (A : Type) : Type := Frame -> Run A.

Definition ret {A} (a : A) : M A :=
  fun st => {| outcome := Done a; final := st; output := [] |}.

Definition bind {A C} (m : M A) (k : A -> M C) : M C :=
  fun st =>
    let r := m st in
    match outcome r with
    | Done a =>
        let r' := k a (final r) in
        {| outcome := outcome r'; final := final r';
           output := output r ++ output r' |}
    | Raised e => {| outcome := Raised e; final := final r; output := output r |}
    | OutOfFuel => {| outcome := OutOfFuel; final := final r; output := output r |}
    end.

Definition out_of_fuel {A} : M A :=
  fun st => {| outcome := OutOfFuel; final := st; output := [] |}.

(** [try: m except Exception as e: handler e]. *)
Definition try_except {A} (m : M A) (handler : Exn -> M A) : M A :=
  fun st =>
    let r := m st in
    match outcome r with
    | Raised e =>
        let r' := handler e (final r) in
        {| outcome := outcome r'; final := final r';
           output := output r ++ output r' |}
    | _ => r
    end.

Definition log (m : Message) : M unit :=
  fun st => {| outcome := Done tt; final := st; output := [Log m] |}.

Definition get_issues_updated : M nat :=
  fun st => {| outcome := Done (issues_updated st); final := st; output := [] |}.

Definition set_issues_updated (n : nat) : M unit :=
  fun st => {| outcome := Done tt;
               final := {| backend := backend st; issues_updated := n |};
               output := [] |}.

(** A run with more output before it. *)
Definition prepend {A} (out : list Output) (r : Run A) : Run A :=
  {| outcome := outcome r; final := final r; output := out ++ output r |}.

End Monad.

Arguments Frame B : clear implicits.
Arguments Run B A : clear implicits.
Arguments M B A : clear implicits.
Arguments outcome {B A} r.
Arguments final {B A} r.
Arguments output {B A} r.
Arguments backend {B} f.
Arguments issues_updated {B} f.

Notation "'let*' x ':=' c1 'in' c2" := (bind c1 (fun x => c2))
  (at level 10, x name, c1 at level 100, c2 at level 200).
Notation "c1 '>>' c2" := (bind c1 (fun _ => c2))
  (at level 100, c2 at level 200, right associativity).

Section Program.
Context {B : Type} `{Backend B}.

Definition of_read {A} (r : Exn + A) : Outcome A :=
  match r with
  | inl e => Raised e
  | inr a => Done a
  end.

Definition of_mutation (r : option Exn) : Outcome unit :=
  match r with
  | Some e => Raised e
  | None => Done tt
  end.

(** [jira_api.jql(query, start=start, limit=limit)["issues"]]. *)
Definition call_jql (query : string) (start limit : nat) : M B (list Issue) :=
  fun st =>
    let '(r, b) := api_jql query start limit (backend st) in
    {| outcome := of_read r;
       final := {| backend := b; issues_updated := issues_updated st |};
       output := [Call (EvJql query start limit r)] |}.

Definition call_myself : M B UserInfo :=
  fun st =>
    let '(r, b) := api_myself (backend st) in
    {| outcome := of_read r;
       final := {| backend := b; issues_updated := issues_updated st |};
       output := [Call (EvMyself r)] |}.

Definition call_user (account_id : string) : M B UserInfo :=
  fun st =>
    let '(r, b) := api_user account_id (backend st) in
    {| outcome := of_read r;
       final := {| backend := b; issues_updated := issues_updated st |};
       output := [Call (EvUser account_id r)] |}.

Definition call_update_issue (issue_key : string) (updates : Payload) : M B unit :=
  fun st =>
    let '(r, b) := api_update_issue issue_key updates (backend st) in
    {| outcome := of_mutation r;
       final := {| backend := b; issues_updated := issues_updated st |};
       output := [Call (EvUpdateIssue issue_key updates r)] |}.

Definition call_issue_add_watcher (issue_key user_id : string) : M B unit :=
  fun st =>
    let '(r, b) := api_issue_add_watcher issue_key user_id (backend st) in
    {| outcome := of_mutation r;
       final := {| backend := b; issues_updated := issues_updated st |};
       output := [Call (EvAddWatcher issue_key user_id r)] |}.

(** [for x in l: acc = body x acc], the consumer side of a [for] loop. *)
Fixpoint for_each {A T} (l : list T) (body : T -> A -> M B A) (acc : A) : M B A :=
  match l with
  | [] => ret acc
  | x :: l' => let* acc' := body x acc in for_each l' body acc'
  end.

(** ** The paginated iterator *)

Definition limit : nat := 100.

(** The loop of [iterate_jql_results] entered with the local [start].  The
    generator is consumed by a [for] loop whose body is [body]: every
    [yield issue] runs [body issue] before the generator resumes. *)
Fixpoint iterate_from {A} (fuel : nat) (query : string) (start : nat)
    (body : Issue -> A -> M B A) (acc : A) : M B A :=
  match fuel with
  | O => out_of_fuel
  | S fuel' =>
      log (MsgFetching start (start + limit)) >>
      let* issues := call_jql query start limit in
      let* acc' := for_each issues body acc in
      if length issues <? limit
      then log MsgLastPage >> ret acc'
      else iterate_from fuel' query (start + length issues) body acc'
  end.

(** main.py, [iterate_jql_results]. *)
Definition iterate_jql_results {A} (fuel : nat) (query : string)
    (body : Issue -> A -> M B A) (acc : A) : M B A :=
  iterate_from fuel query 0 body acc.

(** The consumer [list(iterate_jql_results(...))]: the yielded records. *)
Definition yielded (fuel : nat) (query : string) : M B (list Issue) :=
  iterate_jql_results fuel query (fun issue acc => ret (acc ++ [issue])) [].

(** ** The ownership remap handler *)

(** [if user and user['accountId'] == source_user_id]. *)
Definition matches (source_user_id : string) (user : option UserRef) : bool :=
  match user with
  | Some u => bool_decide (accountId u = source_user_id)
  | None => false
  end.

Definition stage (field : string) (hit : bool) (target_user_id : string)
    (updates : Updates) : Updates :=
  if hit then <[field := {| accountId := target_user_id |}]> updates else updates.

(** The [updates] dict built by [process_issue] of [remap_user]. *)
Definition staged_updates (source_user_id target_user_id : string)
    (issue : Issue) : Updates :=
  let f := fields issue in
  let updates := ∅ in
  let updates :=
    stage "creator" (bool_decide (accountId (creator f) = source_user_id))
      target_user_id updates in
  let updates :=
    stage "assignee" (matches source_user_id (assignee f)) target_user_id updates in
  let updates :=
    stage "reporter" (matches source_user_id (reporter f)) target_user_id updates in
  updates.

(** main.py, [update_issue] nested in [remap_user]. *)
Definition update_issue (apply_changes : bool) (issue : Issue)
    (updates : Payload) : M B unit :=
  if negb apply_changes
  then log (MsgDryRunUpdate (key issue) updates)
  else
    log (MsgUpdating (key issue) updates) >>
    try_except
      (call_update_issue (key issue) updates >>
       let* n := get_issues_updated in
       set_issues_updated (n + 1))
      (fun e => log (MsgUpdateFailed (key issue) e)).

(** main.py, [process_issue] nested in [remap_user]. *)
Definition process_issue (apply_changes : bool)
    (source_user_id target_user_id : string) (issue : Issue) : M B unit :=
  log (MsgProcessing (key issue)) >>
  let updates := staged_updates source_user_id target_user_id issue in
  if bool_decide (updates ≠ ∅)
  then update_issue apply_changes issue {| payload_fields := updates |}
  else ret tt.

(** main.py, [remap_user]. *)
Definition remap_user (fuel : nat) (source_user_id target_user_id : string)
    (seed_query : option string) (apply_changes : bool) : M B PyValue :=
  log (MsgRemapping source_user_id target_user_id (negb apply_changes)) >>
  let* myself := call_myself in
  log (MsgLoggedIn (user_accountId myself) (emailAddress myself)) >>
  (if bool_decide (source_user_id ≠ user_accountId myself)
   then log (MsgNotSameUser source_user_id (user_accountId myself))
   else ret tt) >>
  let* target_user := call_user target_user_id in
  log (MsgTargetEmail (emailAddress target_user)) >>
  let query := get_query seed_query None in
  set_issues_updated 0 >>
  iterate_jql_results fuel query
    (fun issue _ => process_issue apply_changes source_user_id target_user_id issue)
    tt >>
  let* n := get_issues_updated in
  log (MsgUpdated n) >>
  ret PyNone.

(** ** The watcher copy handler *)

(** main.py, [process_issue] nested in [copy_watchers]. *)
Definition add_watcher (apply_changes : bool) (target_user_id : string)
    (issue : Issue) : M B unit :=
  log (MsgProcessingWatched (key issue)) >>
  if negb apply_changes
  then log (MsgDryRunWatcher target_user_id (key issue))
  else
    log (MsgAddingWatcher target_user_id (key issue)) >>
    try_except
      (call_issue_add_watcher (key issue) target_user_id >>
       let* n := get_issues_updated in
       set_issues_updated (n + 1))
      (fun e => log (MsgAddWatcherFailed (key issue) e)).

(** The body of the snapshot loop:
    [target_user_watching_keys.add(issue['key'])]. *)
Definition snapshot_key (issue : Issue) (keys : gset string) : M B (gset string) :=
  ret (keys ∪ {[ key issue ]}).

(** The body of the copy loop. *)
Definition copy_issue (apply_changes : bool) (target_user_id target_email : string)
    (target_user_watching_keys : gset string) (issue : Issue) (_ : unit) : M B unit :=
  if bool_decide (key issue ∈ target_user_watching_keys)
  then log (MsgAlreadyWatched (key issue) target_email)
  else add_watcher apply_changes target_user_id issue.

(** main.py, [copy_watchers]. *)
Definition copy_watchers (fuel : nat) (source_user_id target_user_id : string)
    (apply_changes : bool) : M B PyValue :=
  let* source_user := call_user source_user_id in
  let* target_user := call_user target_user_id in
  log (MsgCopying (emailAddress source_user) (emailAddress target_user)
         (negb apply_changes)) >>
  let source_user_watching_query := watching_query source_user_id in
  let target_user_watching_query := watching_query target_user_id in
  set_issues_updated 0 >>
  log (MsgFetchingWatched (emailAddress target_user)) >>
  let* target_user_watching_keys :=
    iterate_jql_results fuel target_user_watching_query snapshot_key ∅ in
  log (MsgAlreadyWatching (size target_user_watching_keys)) >>
  iterate_jql_results fuel source_user_watching_query
    (copy_issue apply_changes target_user_id (emailAddress target_user)
       target_user_watching_keys)
    tt >>
  ret PyNone.

End Program.

Arguments limit : simpl never.

(** The start frame of a handler on a backend state. *)
Definition enter {B} (b : B) : Frame B := {| backend := b; issues_updated := 0 |}.

(** ** Observations on the output stream *)

Definition calls (out : list Output) : list Event :=
  omap (fun o => match o with Call e => Some e | Log _ => None end) out.

Definition logs (out : list Output) : list Message :=
  omap (fun o => match o with Log m => Some m | Call _ => None end) out.

Definition is_mutation (e : Event) : bool :=
  match e with
  | EvUpdateIssue _ _ _ | EvAddWatcher _ _ _ => true
  | _ => false
  end.

(** The mutating remote calls of a run, in order. *)
Definition mutations (out : list Output) : list Event :=
  List.filter is_mutation (calls out).

Definition succeeded (e : Event) : bool :=
  match e with
  | EvUpdateIssue _ _ None | EvAddWatcher _ _ None => true
  | _ => false
  end.

(** The number of mutating remote calls that returned without raising. *)
Definition successes (out : list Output) : nat :=
  length (List.filter succeeded (mutations out)).

(** The counts reported by [LOGGER.info(f"updated {issues_updated} issues")]. *)
Definition reported (out : list Output) : list nat :=
  omap (fun o => match o with Log (MsgUpdated n) => Some n | _ => None end) out.

(** The exception of a read call that raised. *)
Definition read_error (ev : Event) : option Exn :=
  match ev with
  | EvJql _ _ _ (inl e) | EvMyself (inl e) | EvUser _ (inl e) => Some e
  | _ => None
  end.

(** The exception of the read call that ends the output, if one does. *)
Definition raised_by (out : list Output) : option Exn :=
  match last out with
  | Some (Call ev) => read_error ev
  | _ => None
  end.

Definition completed {A} (o : Outcome A) : bool :=
  match o with
  | Done _ => true
  | _ => false
  end.

(** What the update dict holds for a field whose check came out as [hit]. *)
Definition staged_field (hit : bool) (target_user_id : string) : option UserRef :=
  if hit then Some {| accountId := target_user_id |} else None.

(** The three checks of [process_issue] on an issue. *)
Definition creator_hit (source_user_id : string) (issue : Issue) : bool :=
  bool_decide (accountId (creator (fields issue)) = source_user_id).
Definition assignee_hit (source_user_id : string) (issue : Issue) : bool :=
  matches source_user_id (assignee (fields issue)).
Definition reporter_hit (source_user_id : string) (issue : Issue) : bool :=
  matches source_user_id (reporter (fields issue)).

(** ** Vocabulary of the properties *)

Section Vocabulary.
Context {B : Type} `{Backend B}.
Implicit Types st : Frame B.

(** The frame after a search that left the backend in state [b]. *)
Definition after_call (b : B) st : Frame B :=
  {| backend := b; issues_updated := issues_updated st |}.

(** What the loop does once the search has answered with [page]: the body
    consumes the page, then the loop stops or goes on from the next offset. *)
Definition after_page {A} (fuel : nat) (query : string) (start : nat)
    (body : Issue -> A -> M B A) (page : list Issue) (acc : A) : M B A :=
  let* acc' := for_each page body acc in
  if length page <? limit
  then log MsgLastPage >> ret acc'
  else iterate_from fuel query (start + length page) body acc'.

(** A computation that only reads: it keeps the counter, makes no mutating
    call, reports no count, and raises only when a read call raised. *)
Definition reads {A} (m : M B A) : Prop :=
  ∀ st, issues_updated (final (m st)) = issues_updated st
        ∧ mutations (output (m st)) = []
        ∧ reported (output (m st)) = []
        ∧ ∀ e, outcome (m st) = Raised e -> raised_by (output (m st)) = Some e.

(** A computation of the scan: the counter grows by the number of mutating
    calls that succeeded, a dry run makes no mutating call, and only a read
    call that raised makes it raise. *)
Definition sound (apply_changes : bool) {A} (m : M B A) : Prop :=
  ∀ st, issues_updated (final (m st)) = issues_updated st + successes (output (m st))
        ∧ (apply_changes = false -> mutations (output (m st)) = [])
        ∧ reported (output (m st)) = []
        ∧ ∀ e, outcome (m st) = Raised e -> raised_by (output (m st)) = Some e.

(** What a handler entered with a fresh counter guarantees.  [report] tells
    whether the handler logs its count when it completes. *)
Definition handled (apply_changes report : bool) (m : M B PyValue) : Prop :=
  ∀ st, issues_updated st = 0 ->
    issues_updated (final (m st)) = successes (output (m st))
    ∧ (apply_changes = false -> mutations (output (m st)) = [])
    ∧ reported (output (m st))
      = (if report && completed (outcome (m st)) then [successes (output (m st))] else [])
    ∧ match outcome (m st) with
      | Done v => v = PyNone
      | Raised e => raised_by (output (m st)) = Some e
      | OutOfFuel => True
      end.

Definition returns_none (m : M B PyValue) : Prop :=
  ∀ st, match outcome (m st) with Done v => v = PyNone | _ => True end.

(** Two runs that end the same way, in the same frame, after the same
    mutating calls; they may differ in their searches and log records. *)
Definition same_effect {A} (r r' : Run B A) : Prop :=
  outcome r = outcome r' ∧ final r = final r'
  ∧ mutations (output r) = mutations (output r').

End Vocabulary.

(** ** A scripted backend

    The search answers with the next page of a script, whatever it is asked;
    this is the mock of a test that fixes the sequence of pages. *)

Definition Script := list (list Issue).

#[export] Instance scripted : Backend Script := {|
  api_jql _ _ _ script :=
    match script with
    | [] => (inl "no more pages", [])
    | page :: rest => (inr page, rest)
    end;
  api_myself script := (inl "not scripted", script);
  api_user _ script := (inl "not scripted", script);
  api_update_issue _ _ script := (Some "not scripted", script);
  api_issue_add_watcher _ _ script := (Some "not scripted", script)
|}.

(** The searches the specification expects for a sequence of pages: the first
    at offset [start], each next one further by the size of the page before. *)
Fixpoint fetches (query : string) (start : nat) (pages : list (list Issue)) : list Event :=
  match pages with
  | [] => []
  | page :: pages' =>
      EvJql query start limit (inr page)
      :: fetches query (start + length page) pages'
  end.

(** ** A mock tracker with watch lists *)

(** What a partial-field update does to the fields of an issue. *)
Definition apply_updates (updates : Updates) (f : Fields) : Fields :=
  {| created := created f;
     summary := summary f;
     creator := default (creator f) (updates !! "creator");
     assignee := match updates !! "assignee" with
                 | Some u => Some u
                 | None => assignee f
                 end;
     reporter := match updates !! "reporter" with
                 | Some u => Some u
                 | None => reporter f
                 end |}.

Record MockIssue := { mock_issue : Issue; watchers : list string }.

(** Modelled from the spec: the remote issue tracker of section 6 (search,
    user lookup, update, add-watcher), which is an external collaborator and
    not part of the repository.  The tracker holds its issues in ascending
    order of last update, each with the users watching it: a search returns
    the issues it selects in that order, which is the order the clause
    [ORDER BY Updated ASC] asks for, and a successful update makes the issue
    the last updated one, so that it moves to the end (section 4.1: touched
    issues sort to the end).  Adding a watcher is no update of the issue.
    Mutations on the keys in [rejected] raise. *)
Record Mock := {
  mock_issues : list MockIssue;
  mock_users : list UserInfo;
  mock_myself : UserInfo;
  rejected : list string
}.

(** The query language of the mock: a [watcher = "u"] query selects the issues
    watched by [u]; any other query selects every issue. *)
Definition mock_selects (query : string) (mi : MockIssue) : bool :=
  if String.prefix "watcher = " query
  then bool_decide (query ∈ watching_query <$> watchers mi)
  else true.

(** The issues a query selects, in the tracker's order: ascending by last
    update. *)
Definition mock_search (query : string) (m : Mock) : list Issue :=
  mock_issue <$> List.filter (mock_selects query) (mock_issues m).

Definition mock_keys (m : Mock) : list string :=
  (fun mi => key (mock_issue mi)) <$> mock_issues m.

(** The keys of a list of issues of the tracker. *)
Abbreviation keys_of l := ((fun mi => key (mock_issue mi)) <$> l).

Definition mock_find_user (account_id : string) (m : Mock) : Exn + UserInfo :=
  match List.find (fun u => bool_decide (user_accountId u = account_id)) (mock_users m) with
  | Some u => inr u
  | None => inl "user not found"
  end.

Definition mock_map (f : MockIssue -> MockIssue) (issue_key : string) (m : Mock) : Mock :=
  {| mock_issues :=
       (fun mi => if bool_decide (key (mock_issue mi) = issue_key) then f mi else mi)
         <$> mock_issues m;
     mock_users := mock_users m;
     mock_myself := mock_myself m;
     rejected := rejected m |}.

Definition mock_mutate (f : MockIssue -> MockIssue) (issue_key : string) (m : Mock)
    : option Exn * Mock :=
  if bool_decide (issue_key ∈ rejected m) then (Some "rejected", m)
  else if bool_decide (issue_key ∈ mock_keys m) then (None, mock_map f issue_key m)
  else (Some "issue does not exist", m).

Definition set_fields (updates : Payload) (mi : MockIssue) : MockIssue :=
  {| mock_issue := {| key := key (mock_issue mi);
                      fields := apply_updates (payload_fields updates)
                                  (fields (mock_issue mi)) |};
     watchers := watchers mi |}.

Definition watch (user_id : string) (mi : MockIssue) : MockIssue :=
  {| mock_issue := mock_issue mi;
     watchers := if bool_decide (user_id ∈ watchers mi) then watchers mi
                 else user_id :: watchers mi |}.

(** Whether an issue of the tracker has the key [issue_key]. *)
Definition has_key (issue_key : string) (mi : MockIssue) : bool :=
  bool_decide (key (mock_issue mi) = issue_key).

(** The tracker after an update of the issue [issue_key]: the issue is
    changed by [f] and, being the last updated one, comes last. *)
Definition mock_touch (f : MockIssue -> MockIssue) (issue_key : string) (m : Mock) : Mock :=
  {| mock_issues :=
       List.filter (fun mi => negb (has_key issue_key mi)) (mock_issues m)
       ++ (f <$> List.filter (has_key issue_key) (mock_issues m));
     mock_users := mock_users m;
     mock_myself := mock_myself m;
     rejected := rejected m |}.

Definition mock_update (updates : Payload) (issue_key : string) (m : Mock)
    : option Exn * Mock :=
  if bool_decide (issue_key ∈ rejected m) then (Some "rejected", m)
  else if bool_decide (issue_key ∈ mock_keys m)
       then (None, mock_touch (set_fields updates) issue_key m)
       else (Some "issue does not exist", m).

#[export] Instance mock : Backend Mock := {|
  api_jql query start limit m := (inr (take limit (drop start (mock_search query m))), m);
  api_myself m := (inr (mock_myself m), m);
  api_user account_id m := (mock_find_user account_id m, m);
  api_update_issue issue_key updates m := mock_update updates issue_key m;
  api_issue_add_watcher issue_key user_id m := mock_mutate (watch user_id) issue_key m
|}.


(** The keys of the issues a user watches. *)
Definition watch_set (user_id : string) (m : Mock) : gset string :=
  list_to_set (key <$> mock_search (watching_query user_id) m).

(** The sizes of the pages the searches of a run returned. *)
Definition page_sizes (evs : list Event) : list nat :=
  omap (fun e => match e with
                 | EvJql _ _ _ (inr page) => Some (length page)
                 | _ => None
                 end) evs.

(** The offsets the searches of a run asked for. *)
Definition offsets (evs : list Event) : list nat :=
  omap (fun e => match e with
                 | EvJql _ start _ _ => Some start
                 | _ => None
                 end) evs.

(** The keys of the issues a dry run said it would update. *)
Definition would_update (out : list Output) : list string :=
  omap (fun o => match o with
                 | Log (MsgDryRunUpdate k _) => Some k
                 | _ => None
                 end) out.

(** The keys of the issues whose mutation was logged as failed. *)
Definition failures (out : list Output) : list string :=
  omap (fun o => match o with
                 | Log (MsgUpdateFailed k _) | Log (MsgAddWatcherFailed k _) => Some k
                 | _ => None
                 end) out.

(** The keys the mutating calls of a run were made on, in order. *)
Definition mutated_keys (out : list Output) : list string :=
  omap (fun e => match e with
                 | EvUpdateIssue k _ _ | EvAddWatcher k _ _ => Some k
                 | _ => None
                 end) (calls out).

(** The keys of the issues the copy loop skipped as already watched. *)
Definition already_watched (out : list Output) : list string :=
  omap (fun o => match o with
                 | Log (MsgAlreadyWatched k _) => Some k
                 | _ => None
                 end) out.

(** The number of checks that came out true. *)
Definition hits (checks : list bool) : nat := length (List.filter id checks).

(** *** Test data *)

Definition user (id : string) : UserInfo :=
  {| user_accountId := id; emailAddress := id +:+ "@example.org" |}.

Definition issue_of (k creator_id : string) (assignee_id reporter_id : option string) : Issue :=
  {| key := k;
     fields := {| created := "2024-01-01"; summary := "summary of " +:+ k;
                  creator := {| accountId := creator_id |};
                  assignee := Build_UserRef <$> assignee_id;
                  reporter := Build_UserRef <$> reporter_id |} |}.

(** [n] issues [X-0 .. X-(n-1)] created by [alice], nobody watching. *)
Definition numbered (n : nat) : list MockIssue :=
  (fun i => {| mock_issue := issue_of ("X-" +:+ pretty i) "alice" None None;
               watchers := [] |}) <$> seq 0 n.

Definition tracker (issues : list MockIssue) (rejected_keys : list string) : Mock :=
  {| mock_issues := issues;
     mock_users := [user "alice"; user "bob"];
     mock_myself := user "alice";
     rejected := rejected_keys |}.

(** The issues of [numbered n] as the search returns them. *)
Definition records (n : nat) : list Issue := mock_issue <$> numbered n.

(** A script with one full page, a short page, and a page never asked for. *)
Definition full_then_short : Script := [records 100; take 2 (records 100); records 3].

(** A script whose first page has more records than the limit. *)
Definition overfull_then_short : Script := [records 101; take 2 (records 100)].

(** The scenario of the specification: the source user watches A, B and C,
    the target user already watches B. *)
Definition watched_abc : list MockIssue :=
  [ {| mock_issue := issue_of "A" "alice" None None; watchers := ["alice"] |};
    {| mock_issue := issue_of "B" "alice" None None; watchers := ["alice"; "bob"] |};
    {| mock_issue := issue_of "C" "alice" None None; watchers := ["alice"] |} ].

(** Three issues of which the first and the last have [alice] in a field. *)
Definition owned_ac : list MockIssue :=
  [ {| mock_issue := issue_of "A" "alice" None (Some "alice"); watchers := [] |};
    {| mock_issue := issue_of "B" "carol" (Some "carol") None; watchers := ["alice"] |};
    {| mock_issue := issue_of "C" "carol" (Some "alice") None; watchers := [] |} ].

(** ** The query-dump handler *)

(** Python's [s.rstrip('/')]: [s] without its trailing slashes. *)
Fixpoint rstrip_slash (s : string) : string :=
  match s with
  | EmptyString => EmptyString
  | String c s' =>
      match rstrip_slash s' with
      | EmptyString => if Ascii.eqb c "/" then EmptyString else String c EmptyString
      | t => String c t
      end
  end.

(** [n] slashes. *)
Fixpoint slashes (n : nat) : string :=
  match n with
  | O => EmptyString
  | S n' => String "/" (slashes n')
  end.

(** The dict [data] that [jql] prints for an issue. *)
Record Data := {
  data_key : string;
  data_url : string;
  data_created : string;
  data_summary : string
}.

(** What the dump handler acts on: the tracker, and the lines printed to
    standard output so far. *)
Record World (B : Type) := { remote : B; stdout : list string }.
Arguments remote {B} w.
Arguments stdout {B} w.
Arguments Build_World {B} remote stdout.

(** A call to the tracker leaves the printed lines as they are. *)
Definition on_tracker {B R : Type} (call : B -> R * B) (w : World B) : R * World B :=
  let '(r, b) := call (remote w) in
  (r, {| remote := b; stdout := stdout w |}).

#[export] Instance world {B : Type} `{Backend B} : Backend (World B) := {|
  api_jql query start lim := on_tracker (api_jql query start lim);
  api_myself := on_tracker api_myself;
  api_user account_id := on_tracker (api_user account_id);
  api_update_issue issue_key updates := on_tracker (api_update_issue issue_key updates);
  api_issue_add_watcher issue_key user_id :=
    on_tracker (api_issue_add_watcher issue_key user_id)
|}.

Section Dump.
Context {B : Type} `{Backend B}.

(** [json.dumps], a function of the standard library. *)
Variable json_dumps : Data -> string.

(** [print(line)]. *)
Definition print (line : string) : M (World B) unit :=
  fun st =>
    {| outcome := Done tt;
       final := {| backend := {| remote := remote (backend st);
                                 stdout := stdout (backend st) ++ [line] |};
                   issues_updated := issues_updated st |};
       output := [] |}.

(** The dict built in the loop of [jql]. *)
Definition data_of (jira_url : string) (issue : Issue) : Data :=
  {| data_key := key issue;
     data_url := jira_url +:+ "/browse/" +:+ key issue;
     data_created := created (fields issue);
     data_summary := summary (fields issue) |}.

(** main.py, [jql]; [url] is the attribute [jira_api.url] of the client. *)
Definition jql (fuel : nat) (url query : string) : M (World B) PyValue :=
  let query := get_query (Some query) None in
  let jira_url := rstrip_slash url in
  iterate_jql_results fuel query
    (fun issue _ =>
       let data := data_of jira_url issue in
       print (json_dumps data))
    tt >>
  ret PyNone.

End Dump.

(** The tracker with its list of issues replaced. *)
Definition with_issues (issues : list MockIssue) (m : Mock) : Mock :=
  {| mock_issues := issues;
     mock_users := mock_users m;
     mock_myself := mock_myself m;
     rejected := rejected m |}.

(** An issue of the tracker after the update [process_issue] stages for it. *)
Definition remapped (source_user_id target_user_id : string) (mi : MockIssue) : MockIssue :=
  set_fields {| payload_fields := staged_updates source_user_id target_user_id (mock_issue mi) |}
    mi.

(** A user reference after the remap: the target where it was the source. *)
Definition remap_ref (source_user_id target_user_id : string) (u : UserRef) : UserRef :=
  if bool_decide (accountId u = source_user_id)
  then {| accountId := target_user_id |}
  else u.

(** Whether a string ends with a slash. *)
Fixpoint ends_with_slash (s : string) : bool :=
  match s with
  | EmptyString => false
  | String c EmptyString => Ascii.eqb c "/"
  | String _ s' => ends_with_slash s'
  end.

(** The remote calls [jql] may make. *)
Definition dump_call (query : string) (ev : Event) : Prop :=
  match ev with
  | EvJql q _ lim _ => q = query +:+ " ORDER BY Updated ASC" ∧ lim = 100
  | _ => False
  end.

(** ** More observations on the output stream *)

(** The pages the searches of a run returned, in order. *)
Definition pages (evs : list Event) : list (list Issue) :=
  omap (fun e => match e with
                 | EvJql _ _ _ (inr page) => Some page
                 | _ => None
                 end) evs.

(** The records the searches of a run returned, in order. *)
Definition fetched (out : list Output) : list Issue := concat (pages (calls out)).

(** The [source != myself] warnings of a run. *)
Definition warnings (out : list Output) : list (string * string) :=
  omap (fun o => match o with
                 | Log (MsgNotSameUser source account_id) => Some (source, account_id)
                 | _ => None
                 end) out.

(** The keys of the issues a dry run said it would add the watcher to. *)
Definition would_watch (out : list Output) : list string :=
  omap (fun o => match o with
                 | Log (MsgDryRunWatcher _ k) => Some k
                 | _ => None
                 end) out.

(** The key a mutating call is made on. *)
Definition key_of_mutation (o : Output) : option string :=
  match o with
  | Call (EvUpdateIssue k _ _) | Call (EvAddWatcher k _ _) => Some k
  | _ => None
  end.

(** The key a dry run of [copy_watchers] says it would add the watcher to. *)
Definition key_of_would_watch (o : Output) : option string :=
  match o with
  | Log (MsgDryRunWatcher _ k) => Some k
  | _ => None
  end.

(** The key a failed mutation is logged with. *)
Definition key_of_failure (o : Output) : option string :=
  match o with
  | Log (MsgUpdateFailed k _) | Log (MsgAddWatcherFailed k _) => Some k
  | _ => None
  end.

(** The key of a mutating call that raised. *)
Definition key_of_failed_call (o : Output) : option string :=
  match o with
  | Call (EvUpdateIssue k _ (Some _)) | Call (EvAddWatcher k _ (Some _)) => Some k
  | _ => None
  end.

(** The keys of the mutating calls of a run that raised, in order. *)
Definition failed_keys (out : list Output) : list string := omap key_of_failed_call out.

(** The size of the snapshot set, in the log record that tells it. *)
Definition snapshot_size (o : Output) : option nat :=
  match o with
  | Log (MsgAlreadyWatching n) => Some n
  | _ => None
  end.

(** The output of [copy_watchers] has two phases: the lookups and the
    snapshot scan come before the log record that tells how many issues the
    target watches already, the copy scan comes after it. *)
Fixpoint snapshot_phase (out : list Output) : list Output :=
  match out with
  | [] => []
  | Log (MsgAlreadyWatching _) :: _ => []
  | o :: out' => o :: snapshot_phase out'
  end.

Fixpoint copy_phase (out : list Output) : list Output :=
  match out with
  | [] => []
  | Log (MsgAlreadyWatching _) :: out' => out'
  | _ :: out' => copy_phase out'
  end.

(** An event that is no search. *)
Definition no_search (ev : Event) : Prop :=
  match ev with
  | EvJql _ _ _ _ => False
  | _ => True
  end.

(** The three checks of [process_issue] together. *)
Definition any_hit (source_user_id : string) (issue : Issue) : bool :=
  creator_hit source_user_id issue || assignee_hit source_user_id issue
  || reporter_hit source_user_id issue.

(** Whether a user is the creator, the assignee or the reporter of an issue
    of the tracker. *)
Definition owned (user_id : string) (mi : MockIssue) : bool :=
  any_hit user_id (mock_issue mi).

(** The issues of a list, but those with a key in [ks]. *)
Definition without (ks : list string) (l : list MockIssue) : list MockIssue :=
  List.filter (fun mi => bool_decide (key (mock_issue mi) ∉ ks)) l.

(** The issues of a list that a scan by pages of 100 reaches when the pages
    it has handled leave their place: the first page, the third, the fifth
    and so on; and the issues in between, which it does not reach.  [n]
    bounds the number of pairs of pages. *)
Fixpoint scanned_pages {A} (n : nat) (l : list A) : list A :=
  match n with
  | O => []
  | S n' => take limit l ++ scanned_pages n' (drop (limit + limit) l)
  end.

Fixpoint skipped_pages {A} (n : nat) (l : list A) : list A :=
  match n with
  | O => []
  | S n' => take limit (drop limit l) ++ skipped_pages n' (drop (limit + limit) l)
  end.

(** The remote calls [remap_user] may make. *)
Definition remap_call (target_user_id : string) (seed_query : option string)
    (ev : Event) : Prop :=
  match ev with
  | EvMyself _ => True
  | EvUser account_id _ => account_id = target_user_id
  | EvJql query _ lim _ => query = get_query seed_query None ∧ lim = 100
  | EvUpdateIssue _ updates _ => payload_fields updates ≠ ∅
  | EvAddWatcher _ _ _ => False
  end.

(** The remote calls [copy_watchers] may make. *)
Definition copy_call (source_user_id target_user_id : string) (ev : Event) : Prop :=
  match ev with
  | EvUser account_id _ => account_id = source_user_id ∨ account_id = target_user_id
  | EvJql query _ lim _ =>
      (query = watching_query source_user_id ∨ query = watching_query target_user_id)
      ∧ lim = 100
  | EvAddWatcher _ user_id _ => user_id = target_user_id
  | EvMyself _ | EvUpdateIssue _ _ _ => False
  end.

(** The keys of a list of issues that are not in a set, in order. *)
Definition missing_keys (keys : gset string) (issues : list Issue) : list string :=
  List.filter (fun k => bool_decide (k ∉ keys)) (key <$> issues).

(** ** The parts of the handlers after the user lookups *)

Section Tails.
Context {B : Type} `{Backend B}.

(** [remap_user] from the scan on. *)
Definition remap_scan (fuel : nat) (source_user_id target_user_id : string)
    (seed_query : option string) (apply_changes : bool) : M B PyValue :=
  iterate_jql_results fuel (get_query seed_query None)
    (fun issue _ => process_issue apply_changes source_user_id target_user_id issue)
    tt >>
  let* n := get_issues_updated in
  log (MsgUpdated n) >>
  ret PyNone.

(** [copy_watchers] from the snapshot scan on. *)
Definition copy_scans (fuel : nat) (source_user_id target_user_id target_email : string)
    (apply_changes : bool) : M B PyValue :=
  log (MsgFetchingWatched target_email) >>
  let* target_user_watching_keys :=
    iterate_jql_results fuel (watching_query target_user_id) snapshot_key ∅ in
  log (MsgAlreadyWatching (size target_user_watching_keys)) >>
  iterate_jql_results fuel (watching_query source_user_id)
    (copy_issue apply_changes target_user_id target_email target_user_watching_keys)
    tt >>
  ret PyNone.

(** The log records of [remap_user] up to the lookup of the target user. *)
Definition remap_head (source_user_id target_user_id : string) (apply_changes : bool)
    (myself : UserInfo) : list Output :=
  [Log (MsgRemapping source_user_id target_user_id (negb apply_changes));
   Call (EvMyself (inr myself));
   Log (MsgLoggedIn (user_accountId myself) (emailAddress myself))]
  ++ (if bool_decide (source_user_id ≠ user_accountId myself)
      then [Log (MsgNotSameUser source_user_id (user_accountId myself))]
      else []).

(** A computation whose output an observer [f] sees nothing of. *)
Definition unseen {X A : Type} (f : Output -> option X) (m : M B A) : Prop :=
  ∀ st, omap f (output (m st)) = [].

(** A computation all of whose remote calls satisfy [P]. *)
Definition only {A : Type} (P : Event -> Prop) (m : M B A) : Prop :=
  ∀ st, Forall P (calls (output (m st))).

(** A computation that logs a failure for exactly the mutating calls that
    raised, in their order. *)
Definition recorded {A : Type} (m : M B A) : Prop :=
  ∀ st, failures (output (m st)) = failed_keys (output (m st)).

End Tails.

(** * Properties *)

(** ** The query builder *)

(** C5.  [get_query] prepends the seed verbatim (the empty string when the
    seed is absent) and always ends with the ascending sort clause.  Without a
    cutoff the result is the seed followed by [ ORDER BY Updated ASC]; with a
    cutoff (a non-empty string [String a c]) the clause [ Updated >= "cutoff"]
    comes between the seed and the sort clause.  The code tests the cutoff by
    truthiness, so an empty cutoff string counts as no cutoff.  The seed
    [project = X] without cutoff gives [project = X ORDER BY Updated ASC]. *)
Theorem get_query_appends_sort_clause (seed : option string) :
  get_query seed None = or_empty seed +:+ " ORDER BY Updated ASC"
  ∧ (∀ a c, get_query seed (Some (String a c))
            = or_empty seed +:+ " Updated >= " +:+ dquote +:+ String a c +:+ dquote
                +:+ " ORDER BY Updated ASC")
  ∧ get_query seed (Some EmptyString) = get_query seed None
  ∧ or_empty None = EmptyString
  ∧ (∀ s, or_empty (Some s) = s)
  ∧ get_query (Some "project = X") None = "project = X ORDER BY Updated ASC".
Proof. repeat split. Qed.

(** ** The monad *)

Section Monad_facts.
Context {B : Type}.
Implicit Types st : Frame B.

Lemma frame_eta st :
  {| backend := backend st; issues_updated := issues_updated st |} = st.
Proof. by destruct st. Qed.

Lemma run_eta {A} (r : Run B A) :
  {| outcome := outcome r; final := final r; output := output r |} = r.
Proof. by destruct r. Qed.

Lemma final_log msg st : final (log msg st) = st.
Proof. done. Qed.

Lemma bind_Done {A C} (m : M B A) (k : A -> M B C) st a :
  outcome (m st) = Done a ->
  bind m k st = prepend (output (m st)) (k a (final (m st))).
Proof. unfold bind. by intros ->. Qed.

Lemma bind_Raised {A C} (m : M B A) (k : A -> M B C) st e :
  outcome (m st) = Raised e ->
  bind m k st = {| outcome := Raised e; final := final (m st); output := output (m st) |}.
Proof. unfold bind. by intros ->. Qed.

Lemma bind_OutOfFuel {A C} (m : M B A) (k : A -> M B C) st :
  outcome (m st) = OutOfFuel ->
  bind m k st = {| outcome := OutOfFuel; final := final (m st); output := output (m st) |}.
Proof. unfold bind. by intros ->. Qed.

Lemma bind_ext {A C} (m : M B A) (k k' : A -> M B C) st :
  (∀ a st', k a st' = k' a st') -> bind m k st = bind m k' st.
Proof. intros Hk. unfold bind. destruct (outcome (m st)); [by rewrite Hk | done..]. Qed.

Lemma bind_assoc {A C D} (m : M B A) (k : A -> M B C) (k' : C -> M B D) st :
  bind (bind m k) k' st = bind m (fun a => bind (k a) k') st.
Proof.
  unfold bind. destruct (outcome (m st)) as [a| |]; simpl; [|done..].
  destruct (outcome (k a (final (m st)))); simpl; [|done..].
  by rewrite app_assoc.
Qed.

Lemma for_each_app {A T} (l1 l2 : list T) (body : T -> A -> M B A) acc st :
  for_each (l1 ++ l2) body acc st
  = bind (for_each l1 body acc) (fun acc' => for_each l2 body acc') st.
Proof.
  revert acc st. induction l1 as [|x l1 IH]; intros acc st; simpl.
  - unfold bind, ret, prepend. simpl. by rewrite run_eta.
  - rewrite bind_assoc. by apply bind_ext.
Qed.

(** The consumer that collects the yielded records. *)
Lemma for_each_collect {T} (l acc : list T) st :
  for_each l (fun x acc => ret (acc ++ [x])) acc st
  = {| outcome := Done (acc ++ l); final := st; output := [] |}.
Proof.
  revert acc. induction l as [|x l IH]; intros acc; simpl.
  - by rewrite app_nil_r.
  - unfold bind. simpl. rewrite IH. simpl. by rewrite <- app_assoc.
Qed.

End Monad_facts.

(** ** One turn of the iterator loop *)

Section Iterator_facts.
Context {B : Type} `{Backend B}.
Implicit Types st : Frame B.

Lemma call_jql_eq query start lim st r b :
  api_jql query start lim (backend st) = (r, b) ->
  call_jql query start lim st
  = {| outcome := of_read r; final := after_call b st;
       output := [Call (EvJql query start lim r)] |}.
Proof. unfold call_jql. by intros ->. Qed.

Lemma iterate_from_page {A} fuel query start (body : Issue -> A -> M B A) acc st page b :
  api_jql query start limit (backend st) = (inr page, b) ->
  iterate_from (S fuel) query start body acc st
  = prepend [Log (MsgFetching start (start + limit));
             Call (EvJql query start limit (inr page))]
      (after_page fuel query start body page acc (after_call b st)).
Proof.
  intros Hq. cbn [iterate_from].
  rewrite (bind_Done _ _ _ tt) by done. cbn [log final output].
  rewrite (bind_Done _ _ _ page) by (by rewrite (call_jql_eq _ _ _ _ _ _ Hq)).
  rewrite (call_jql_eq _ _ _ _ _ _ Hq). done.
Qed.

Lemma iterate_from_error {A} fuel query start (body : Issue -> A -> M B A) acc st e b :
  api_jql query start limit (backend st) = (inl e, b) ->
  iterate_from (S fuel) query start body acc st
  = {| outcome := Raised e; final := after_call b st;
       output := [Log (MsgFetching start (start + limit));
                  Call (EvJql query start limit (inl e))] |}.
Proof.
  intros Hq. cbn [iterate_from].
  rewrite (bind_Done _ _ _ tt) by done. cbn [log final output].
  rewrite (bind_Raised _ _ _ e) by (by rewrite (call_jql_eq _ _ _ _ _ _ Hq)).
  rewrite (call_jql_eq _ _ _ _ _ _ Hq). done.
Qed.

End Iterator_facts.

(** ** The iterator on a script of pages *)

Section Scripted.
Implicit Types (ps : Script) (page last : list Issue).

Lemma scripted_pages ps : ∀ last (rest : Script) query fuel start acc n,
  Forall (fun page => limit ≤ length page) ps ->
  length last < limit ->
  length ps < fuel ->
  let r := iterate_from fuel query start (fun issue acc => ret (acc ++ [issue])) acc
             {| backend := ps ++ last :: rest; issues_updated := n |} in
  outcome r = Done (acc ++ concat (ps ++ [last]))
  ∧ calls (output r) = fetches query start (ps ++ [last])
  ∧ final r = {| backend := rest; issues_updated := n |}.
Proof.
  induction ps as [|page ps IH]; intros last rest query fuel start acc n Hfull Hlast Hfuel;
    (destruct fuel as [|fuel]; [simpl in Hfuel; lia|]).
  - rewrite (iterate_from_page _ _ _ _ _ _ last rest) by done.
    unfold after_page. rewrite (bind_Done _ _ _ (acc ++ last)) by (by rewrite for_each_collect).
    rewrite for_each_collect.
    destruct (Nat.ltb_spec (length last) limit) as [_|?]; [|lia].
    simpl. by rewrite app_nil_r.
  - apply Forall_cons in Hfull as [Hpage Hfull].
    rewrite (iterate_from_page _ _ _ _ _ _ page (ps ++ last :: rest)) by done.
    unfold after_page. rewrite (bind_Done _ _ _ (acc ++ page)) by (by rewrite for_each_collect).
    rewrite for_each_collect.
    destruct (Nat.ltb_spec (length page) limit) as [?|_]; [lia|].
    destruct (IH last rest query fuel (start + length page) (acc ++ page) n)
      as (Hout & Hcalls & Hfinal); [done | done | simpl in Hfuel; lia |].
    unfold after_call.
    cbn [prepend outcome final output backend issues_updated app].
    split_and!.
    + rewrite Hout. simpl. by rewrite <- app_assoc.
    + simpl. by rewrite Hcalls.
    + done.
Qed.

End Scripted.

(** C1.  On every sequence of pages the backend returns, of which [last] is
    the first one shorter than the limit of 100, the iterator yields the
    concatenation of the pages up to and including [last], in order; its
    searches start at offset 0 and each next one is further by the number of
    records the page before returned; it stops right after [last], leaving
    the rest of the script unasked.  With 250 matching issues in the tracker
    it makes exactly three searches, at offsets 0, 100 and 200, which return
    100, 100 and 50 records, and yields the 250 records. *)
Theorem iterator_yields_concatenation_of_pages (ps : Script) (last : list Issue)
    (rest : Script) (query : string) (fuel : nat) :
  Forall (fun page => limit ≤ length page) ps ->
  length last < limit ->
  length ps < fuel ->
  let r := yielded fuel query (enter (ps ++ last :: rest)) in
  limit = 100
  ∧ outcome r = Done (concat (ps ++ [last]))
  ∧ calls (output r) = fetches query 0 (ps ++ [last])
  ∧ backend (final r) = rest
  ∧ ∀ k, let r250 := yielded (3 + k) "project = X ORDER BY Updated ASC"
                       (enter (tracker (numbered 250) [])) in
         outcome r250 = Done (records 250)
         ∧ length (records 250) = 250
         ∧ offsets (calls (output r250)) = [0; 100; 200]
         ∧ page_sizes (calls (output r250)) = [100; 100; 50].
Proof.
  intros Hfull Hlast Hfuel r.
  destruct (scripted_pages ps last rest query fuel 0 [] 0 Hfull Hlast Hfuel)
    as (Hout & Hcalls & Hfinal).
  split_and!; [done | done | done | by subst r; unfold yielded, iterate_jql_results, enter; rewrite Hfinal |].
  intros k. by vm_compute.
Qed.

Lemma iterator_yields_concatenation_of_pages_witness :
  let r := yielded 2 "project = X" (enter full_then_short) in
  outcome r = Done (concat [records 100; take 2 (records 100)])
  ∧ calls (output r) = fetches "project = X" 0 [records 100; take 2 (records 100)]
  ∧ backend (final r) = [records 3].
Proof.
  destruct (iterator_yields_concatenation_of_pages
              [records 100] (take 2 (records 100)) [records 3] "project = X" 2)
    as (_ & Hout & Hcalls & Hfinal & _).
  - apply Forall_cons. split; [vm_compute; lia | apply Forall_nil_2].
  - vm_compute; lia.
  - simpl; lia.
  - exact (conj Hout (conj Hcalls Hfinal)).
Defined.

(** C9.  When a search returns a page with strictly more records than the
    limit of 100, the loop hands every record of the page to the consumer in
    order, and then goes on with a search at the offset advanced by the actual
    number of records of the page, not by the limit. *)
Theorem overfull_page_is_yielded_whole {B : Type} `{Backend B} {A : Type}
    (fuel : nat) (query : string) (start : nat) (body : Issue -> A -> M B A)
    (acc : A) (st : Frame B) (page : list Issue) (b : B) :
  api_jql query start limit (backend st) = (inr page, b) ->
  limit < length page ->
  iterate_from (S fuel) query start body acc st
  = prepend [Log (MsgFetching start (start + limit));
             Call (EvJql query start limit (inr page))]
      ((let* acc' := for_each page body acc in
        iterate_from fuel query (start + length page) body acc')
         (after_call b st)).
Proof.
  intros Hq Hlen. rewrite (iterate_from_page _ _ _ _ _ _ page b Hq).
  unfold after_page. f_equal. apply bind_ext. intros acc' st'.
  by destruct (Nat.ltb_spec (length page) limit); [lia|].
Qed.

Lemma overfull_page_is_yielded_whole_witness :
  let r := yielded 2 "project = X" (enter overfull_then_short) in
  outcome r = Done (records 101 ++ take 2 (records 100))
  ∧ offsets (calls (output r)) = [0; 101].
Proof.
  unfold yielded, iterate_jql_results. cbv zeta.
  rewrite (overfull_page_is_yielded_whole 1 "project = X" 0 _ [] (enter overfull_then_short)
             (records 101) [take 2 (records 100)]).
  - by vm_compute.
  - reflexivity.
  - vm_compute; lia.
Defined.

(** ** Observations distribute over the output stream *)

Lemma calls_app out1 out2 : calls (out1 ++ out2) = calls out1 ++ calls out2.
Proof. apply omap_app. Qed.

Lemma mutations_app out1 out2 :
  mutations (out1 ++ out2) = mutations out1 ++ mutations out2.
Proof. unfold mutations. by rewrite calls_app, List.filter_app. Qed.

Lemma successes_app out1 out2 :
  successes (out1 ++ out2) = successes out1 + successes out2.
Proof. unfold successes. by rewrite mutations_app, List.filter_app, length_app. Qed.

Lemma reported_app out1 out2 :
  reported (out1 ++ out2) = reported out1 ++ reported out2.
Proof. apply omap_app. Qed.

Lemma mutations_log msg : mutations [Log msg] = [].
Proof. done. Qed.

Lemma successes_log msg : successes [Log msg] = 0.
Proof. done. Qed.

Lemma successes_quiet out : mutations out = [] -> successes out = 0.
Proof. unfold successes. by intros ->. Qed.

Lemma raised_by_app out1 out2 e :
  raised_by out2 = Some e -> raised_by (out1 ++ out2) = Some e.
Proof.
  unfold raised_by. destruct out2 as [|o out2] using rev_ind; [done|].
  by rewrite app_assoc, !last_snoc.
Qed.

(** ** What the parts of a handler do to the counter and the output *)

Section Handler_facts.
Context {B : Type} `{Backend B}.
Implicit Types st : Frame B.

Lemma reads_sound apply_changes {A} (m : M B A) : reads m -> sound apply_changes m.
Proof.
  intros Hm st. destruct (Hm st) as (Hn & Hmut & Hrep & Hexn).
  split_and!; [|done..]. rewrite (successes_quiet _ Hmut). lia.
Qed.

Lemma reads_ret {A} (a : A) : reads (ret a : M B A).
Proof. by intros st. Qed.

Lemma reads_log msg : reported [Log msg] = [] -> reads (log msg : M B unit).
Proof. by intros Hmsg st. Qed.

Lemma reads_out_of_fuel {A} : reads (out_of_fuel : M B A).
Proof. by intros st. Qed.

Lemma reads_get_issues_updated : reads (get_issues_updated : M B nat).
Proof. by intros st. Qed.

Lemma reads_call_jql query start lim : reads (call_jql query start lim).
Proof.
  intros st. unfold call_jql. destruct (api_jql _ _ _ _) as [[e|page] b]; simpl; [|done].
  split_and!; [done..|]. by intros ? [= ->].
Qed.

Lemma reads_call_myself : reads call_myself.
Proof.
  intros st. unfold call_myself. destruct (api_myself _) as [[e|u] b]; simpl; [|done].
  split_and!; [done..|]. by intros ? [= ->].
Qed.

Lemma reads_call_user account_id : reads (call_user account_id).
Proof.
  intros st. unfold call_user. destruct (api_user _ _) as [[e|u] b]; simpl; [|done].
  split_and!; [done..|]. by intros ? [= ->].
Qed.

Lemma reads_bind {A C} (m : M B A) (k : A -> M B C) :
  reads m -> (∀ a, reads (k a)) -> reads (bind m k).
Proof.
  intros Hm Hk st. destruct (Hm st) as (Hn & Hmut & Hrep & Hexn).
  unfold bind. destruct (outcome (m st)) as [a|e|] eqn:Hout; simpl; [|naive_solver..].
  destruct (Hk a (final (m st))) as (Hn' & Hmut' & Hrep' & Hexn').
  rewrite mutations_app, reported_app, Hmut, Hmut', Hrep, Hrep'.
  split_and!; [congruence | done | done |].
  intros e He. by apply raised_by_app, Hexn'.
Qed.

Lemma sound_bind apply_changes {A C} (m : M B A) (k : A -> M B C) :
  sound apply_changes m -> (∀ a, sound apply_changes (k a)) ->
  sound apply_changes (bind m k).
Proof.
  intros Hm Hk st. destruct (Hm st) as (Hn & Hmut & Hrep & Hexn).
  unfold bind. destruct (outcome (m st)) as [a|e|] eqn:Hout; simpl; [|naive_solver..].
  destruct (Hk a (final (m st))) as (Hn' & Hmut' & Hrep' & Hexn').
  rewrite mutations_app, reported_app, successes_app, Hrep, Hrep'.
  split_and!; [lia | | done |].
  - intros Hdry. by rewrite Hmut, Hmut'.
  - intros e He. by apply raised_by_app, Hexn'.
Qed.

Lemma sound_for_each apply_changes {A T} (l : list T) (body : T -> A -> M B A) acc :
  (∀ x a, sound apply_changes (body x a)) -> sound apply_changes (for_each l body acc).
Proof.
  intros Hbody. revert acc. induction l as [|x l IH]; intros acc; simpl.
  - apply reads_sound, reads_ret.
  - by apply sound_bind.
Qed.

Lemma sound_iterate_from apply_changes {A} fuel query start (body : Issue -> A -> M B A) acc :
  (∀ x a, sound apply_changes (body x a)) ->
  sound apply_changes (iterate_from fuel query start body acc).
Proof.
  intros Hbody. revert start acc. induction fuel as [|fuel IH]; intros start acc; simpl.
  - apply reads_sound, reads_out_of_fuel.
  - apply sound_bind; [by apply reads_sound, reads_log|]. intros _.
    apply sound_bind; [apply reads_sound, reads_call_jql|]. intros page.
    apply sound_bind; [by apply sound_for_each|]. intros acc'.
    destruct (length page <? limit); [|apply IH].
    apply reads_sound, reads_bind; [by apply reads_log|]. intros _. apply reads_ret.
Qed.

End Handler_facts.

(** ** The per-issue steps *)

Section Steps.
Context {B : Type} `{Backend B}.
Implicit Types st : Frame B.

Lemma update_issue_dry issue updates st :
  update_issue false issue updates st
  = {| outcome := Done tt; final := st;
       output := [Log (MsgDryRunUpdate (key issue) updates)] |}.
Proof. done. Qed.

Lemma update_issue_apply issue updates st :
  update_issue true issue updates st
  = let '(r, b) := api_update_issue (key issue) updates (backend st) in
    {| outcome := Done tt;
       final := {| backend := b;
                   issues_updated := match r with
                                     | None => issues_updated st + 1
                                     | Some _ => issues_updated st
                                     end |};
       output := Log (MsgUpdating (key issue) updates)
                 :: Call (EvUpdateIssue (key issue) updates r)
                 :: match r with
                    | None => []
                    | Some e => [Log (MsgUpdateFailed (key issue) e)]
                    end |}.
Proof.
  unfold update_issue, bind, try_except, call_update_issue. simpl.
  by destruct (api_update_issue _ _ _) as [[e|] b].
Qed.

Lemma add_watcher_dry target issue st :
  add_watcher false target issue st
  = {| outcome := Done tt; final := st;
       output := [Log (MsgProcessingWatched (key issue));
                  Log (MsgDryRunWatcher target (key issue))] |}.
Proof. done. Qed.

Lemma add_watcher_apply target issue st :
  add_watcher true target issue st
  = let '(r, b) := api_issue_add_watcher (key issue) target (backend st) in
    {| outcome := Done tt;
       final := {| backend := b;
                   issues_updated := match r with
                                     | None => issues_updated st + 1
                                     | Some _ => issues_updated st
                                     end |};
       output := Log (MsgProcessingWatched (key issue))
                 :: Log (MsgAddingWatcher target (key issue))
                 :: Call (EvAddWatcher (key issue) target r)
                 :: match r with
                    | None => []
                    | Some e => [Log (MsgAddWatcherFailed (key issue) e)]
                    end |}.
Proof.
  unfold add_watcher, bind, try_except, call_issue_add_watcher. simpl.
  by destruct (api_issue_add_watcher _ _ _) as [[e|] b].
Qed.

Lemma staged_updates_lookup source target issue field :
  staged_updates source target issue !! field
  = if bool_decide (field = "creator") then staged_field (creator_hit source issue) target
    else if bool_decide (field = "assignee") then staged_field (assignee_hit source issue) target
    else if bool_decide (field = "reporter") then staged_field (reporter_hit source issue) target
    else None.
Proof.
  unfold staged_updates, creator_hit, assignee_hit, reporter_hit, stage, staged_field.
  destruct (bool_decide (accountId _ = _)), (matches _ (assignee _)),
    (matches _ (reporter _));
    repeat case_bool_decide; by simplify_map_eq.
Qed.

Lemma staged_updates_nonempty source target issue :
  bool_decide (staged_updates source target issue ≠ ∅)
  = creator_hit source issue || assignee_hit source issue || reporter_hit source issue.
Proof.
  unfold staged_updates, creator_hit, assignee_hit, reporter_hit, stage.
  destruct (bool_decide (accountId _ = _)), (matches _ (assignee _)),
    (matches _ (reporter _)); simpl;
    first [ by apply bool_decide_eq_true, insert_non_empty
          | by apply bool_decide_eq_false; intros [] ].
Qed.

Lemma process_issue_run apply_changes source target issue st :
  process_issue apply_changes source target issue st
  = prepend [Log (MsgProcessing (key issue))]
      ((if creator_hit source issue || assignee_hit source issue || reporter_hit source issue
        then update_issue apply_changes issue
               {| payload_fields := staged_updates source target issue |}
        else ret tt) st).
Proof.
  unfold process_issue. rewrite (bind_Done _ _ _ tt) by done.
  by rewrite staged_updates_nonempty.
Qed.

Lemma sound_update_issue apply_changes issue updates :
  sound apply_changes (update_issue apply_changes issue updates).
Proof.
  intros st. destruct apply_changes.
  - rewrite update_issue_apply. destruct (api_update_issue _ _ _) as [[e|] b]; simpl.
    + split_and!; [unfold successes; simpl; lia | done..].
    + split_and!; [unfold successes; simpl; lia | done..].
  - rewrite update_issue_dry. simpl. split_and!; [unfold successes; simpl; lia | done..].
Qed.

Lemma sound_process_issue apply_changes source target issue :
  sound apply_changes (process_issue apply_changes source target issue).
Proof.
  unfold process_issue. apply sound_bind; [by apply reads_sound, reads_log|]. intros _.
  destruct (bool_decide _); [apply sound_update_issue | apply reads_sound, reads_ret].
Qed.

Lemma sound_add_watcher apply_changes target issue :
  sound apply_changes (add_watcher apply_changes target issue).
Proof.
  intros st. destruct apply_changes.
  - rewrite add_watcher_apply. destruct (api_issue_add_watcher _ _ _) as [[e|] b]; simpl.
    + split_and!; [unfold successes; simpl; lia | done..].
    + split_and!; [unfold successes; simpl; lia | done..].
  - rewrite add_watcher_dry. simpl. split_and!; [unfold successes; simpl; lia | done..].
Qed.

Lemma sound_copy_issue apply_changes target email keys issue u :
  sound apply_changes (copy_issue apply_changes target email keys issue u).
Proof.
  unfold copy_issue. destruct (bool_decide _); [|apply sound_add_watcher].
  by apply reads_sound, reads_log.
Qed.

Lemma reads_snapshot_key issue keys : reads (snapshot_key issue keys : M B (gset string)).
Proof. apply reads_ret. Qed.

End Steps.

(** ** The handlers as a whole *)

Section Handlers.
Context {B : Type} `{Backend B}.
Implicit Types st : Frame B.

Lemma returns_none_bind {A} (m : M B A) (k : A -> M B PyValue) :
  (∀ a, returns_none (k a)) -> returns_none (bind m k).
Proof.
  intros Hk st. unfold bind. destruct (outcome (m st)) as [a| |]; simpl; [|done..].
  apply Hk.
Qed.

Lemma handled_bind_reads apply_changes report {A} (m : M B A) (k : A -> M B PyValue) :
  reads m -> (∀ a, handled apply_changes report (k a)) ->
  handled apply_changes report (bind m k).
Proof.
  intros Hm Hk st Hzero. destruct (Hm st) as (Hn & Hmut & Hrep & Hexn).
  pose proof (successes_quiet _ Hmut) as Hsucc.
  unfold bind. destruct (outcome (m st)) as [a|e|] eqn:Hout; simpl.
  - destruct (Hk a (final (m st))) as (Hn' & Hmut' & Hrep' & Hout'); [congruence|].
    rewrite mutations_app, reported_app, successes_app, Hmut, Hrep, Hsucc. simpl.
    split_and!; [done..|].
    destruct (outcome (k a (final (m st)))); [done | by apply raised_by_app | done].
  - rewrite andb_false_r. split_and!; [congruence | done | done | by apply Hexn].
  - rewrite andb_false_r. split_and!; [congruence | done..].
Qed.

Lemma handled_sound apply_changes (m : M B PyValue) :
  sound apply_changes m -> returns_none m ->
  handled apply_changes false (set_issues_updated 0 >> m).
Proof.
  intros Hm Hnone st Hzero. rewrite (bind_Done _ _ _ tt) by done. simpl.
  replace {| backend := backend st; issues_updated := 0 |} with st
    by (destruct st; simpl in *; by subst).
  destruct (Hm st) as (Hn & Hmut & Hrep & Hexn). specialize (Hnone st).
  split_and!; [lia | done | done |].
  destruct (outcome (m st)); [done | by apply Hexn | done].
Qed.

Lemma handled_report apply_changes (loop : M B unit) :
  sound apply_changes loop ->
  handled apply_changes true
    (set_issues_updated 0 >> loop >>
     let* n := get_issues_updated in log (MsgUpdated n) >> ret PyNone).
Proof.
  intros Hloop st Hzero. rewrite (bind_Done _ _ _ tt) by done. simpl.
  replace {| backend := backend st; issues_updated := 0 |} with st
    by (destruct st; simpl in *; by subst).
  destruct (Hloop st) as (Hn & Hmut & Hrep & Hexn).
  unfold bind. destruct (outcome (loop st)) as [[]|e|] eqn:Hout; simpl.
  - rewrite mutations_app, reported_app, successes_app, Hrep, Hn, Hzero.
    simpl. rewrite !successes_log, mutations_log, app_nil_r, Nat.add_0_r.
    split_and!; [lia | done..].
  - split_and!; [lia | done | done | by apply Hexn].
  - split_and!; [lia | done..].
Qed.

Lemma remap_user_handled fuel source target seed apply_changes :
  handled apply_changes true (remap_user fuel source target seed apply_changes).
Proof.
  unfold remap_user.
  apply handled_bind_reads; [by apply reads_log|]. intros _.
  apply handled_bind_reads; [apply reads_call_myself|]. intros myself.
  apply handled_bind_reads; [by apply reads_log|]. intros _.
  apply handled_bind_reads.
  { destruct (bool_decide _); [by apply reads_log | apply reads_ret]. }
  intros _.
  apply handled_bind_reads; [apply reads_call_user|]. intros target_user.
  apply handled_bind_reads; [by apply reads_log|]. intros _.
  apply handled_report, sound_iterate_from. intros issue []. apply sound_process_issue.
Qed.

Lemma copy_watchers_handled fuel source target apply_changes :
  handled apply_changes false (copy_watchers fuel source target apply_changes).
Proof.
  unfold copy_watchers.
  apply handled_bind_reads; [apply reads_call_user|]. intros source_user.
  apply handled_bind_reads; [apply reads_call_user|]. intros target_user.
  apply handled_bind_reads; [by apply reads_log|]. intros _.
  apply handled_sound.
  - apply sound_bind; [by apply reads_sound, reads_log|]. intros _.
    apply sound_bind.
    { apply sound_iterate_from. intros issue keys. apply reads_sound, reads_snapshot_key. }
    intros keys.
    apply sound_bind; [by apply reads_sound, reads_log|]. intros _.
    apply sound_bind; [|intros; apply reads_sound, reads_ret].
    apply sound_iterate_from. intros issue u. apply sound_copy_issue.
  - apply returns_none_bind. intros _. apply returns_none_bind. intros keys.
    apply returns_none_bind. intros _. apply returns_none_bind. intros _. by intros st.
Qed.

End Handlers.

(** ** The ownership remap handler, issue by issue *)

(** C2.  For an issue handed to [process_issue], the staged update holds
    exactly the fields whose check matched (creator, assignee if present,
    reporter if present, each against the source id), every one set to the
    target id, and nothing else.  [update_issue] is invoked with that single
    combined request if and only if at least one check matched: in apply mode
    this is exactly one remote update call carrying the request, and no call
    when nothing matched; in a dry run the same request is logged instead of
    sent.  When all three match the request holds the three fields. *)
Theorem remap_sends_exactly_the_matched_fields {B : Type} `{Backend B}
    (apply_changes : bool) (source target : string) (issue : Issue) (st : Frame B) :
  let c := creator_hit source issue in
  let a := assignee_hit source issue in
  let r := reporter_hit source issue in
  let updates := staged_updates source target issue in
  let request := {| payload_fields := updates |} in
  let run := process_issue apply_changes source target issue st in
  creator_hit source issue = bool_decide (accountId (creator (fields issue)) = source)
  ∧ assignee_hit source issue
    = match assignee (fields issue) with
      | Some u => bool_decide (accountId u = source)
      | None => false
      end
  ∧ reporter_hit source issue
    = match reporter (fields issue) with
      | Some u => bool_decide (accountId u = source)
      | None => false
      end
  ∧ (∀ field, updates !! field
       = if bool_decide (field = "creator") then staged_field c target
         else if bool_decide (field = "assignee") then staged_field a target
         else if bool_decide (field = "reporter") then staged_field r target
         else None)
  ∧ size updates = hits [c; a; r]
  ∧ calls (output run)
    = (if (c || a || r) && apply_changes
       then [EvUpdateIssue (key issue) request
               (api_update_issue (key issue) request (backend st)).1]
       else [])
  ∧ would_update (output run)
    = (if (c || a || r) && negb apply_changes then [key issue] else [])
  ∧ outcome run = Done tt.
Proof.
  intros c a r updates request run.
  split_and!; [done | done | done | apply staged_updates_lookup | | | |].
  - subst c a r updates.
    unfold staged_updates, creator_hit, assignee_hit, reporter_hit, stage.
    by destruct (bool_decide (accountId _ = _)), (matches _ (assignee _)),
      (matches _ (reporter _)); vm_compute.
  - subst run. rewrite process_issue_run. fold c a r updates request.
    destruct (c || a || r); [|done]. destruct apply_changes; [|done].
    rewrite update_issue_apply. by destruct (api_update_issue _ _ _) as [[e|] b].
  - subst run. rewrite process_issue_run. fold c a r updates request.
    destruct (c || a || r); [|done]. destruct apply_changes; [|done].
    rewrite update_issue_apply. by destruct (api_update_issue _ _ _) as [[e|] b].
  - subst run. rewrite process_issue_run. fold c a r updates request.
    destruct (c || a || r); [|done]. destruct apply_changes; [|done].
    rewrite update_issue_apply. by destruct (api_update_issue _ _ _) as [[e|] b].
Qed.

Lemma staged_updates_change_a_field source target issue :
  source ≠ target ->
  creator_hit source issue || assignee_hit source issue || reporter_hit source issue = true ->
  apply_updates (staged_updates source target issue) (fields issue) ≠ fields issue.
Proof.
  intros Hne Hhit Heq.
  pose proof (f_equal creator Heq) as Hc.
  pose proof (f_equal assignee Heq) as Ha.
  pose proof (f_equal reporter Heq) as Hr.
  simpl in Hc, Ha, Hr. rewrite staged_updates_lookup in Hc, Ha, Hr.
  repeat (case_bool_decide; try done).
  unfold creator_hit, assignee_hit, reporter_hit, matches, staged_field in *.
  destruct (assignee (fields issue)) as [ua|], (reporter (fields issue)) as [ur|];
    repeat (case_bool_decide; simpl in *; simplify_eq; try done);
    apply (f_equal accountId) in Hc; simpl in Hc; congruence.
Qed.

(** C8 fails when the source and the target are the same user: the creator
    check matches, an update is sent, and applying it leaves the fields of
    the issue as they were. *)
Lemma noop_update_sent_when_source_is_target :
  let issue := issue_of "A" "alice" None None in
  let request := {| payload_fields := {[ "creator" := {| accountId := "alice" |} ]} |} in
  let run := process_issue true "alice" "alice" issue (enter (tracker watched_abc [])) in
  calls (output run) = [EvUpdateIssue "A" request None]
  ∧ apply_updates (payload_fields request) (fields issue) = fields issue.
Proof. by vm_compute. Qed.

(** C8, amended.  The remap handler constructs an update request for an
    issue only when at least one of the creator, assignee and reporter checks
    matched the source id; whenever the source id differs from the target id,
    applying that request changes at least one field of the issue, so no
    no-op update is sent. *)
Theorem update_changes_a_field_when_source_differs {B : Type} `{Backend B}
    (apply_changes : bool) (source target : string) (issue : Issue) (st : Frame B) :
  source ≠ target ->
  let updates := staged_updates source target issue in
  let request := {| payload_fields := updates |} in
  let run := process_issue apply_changes source target issue st in
  let constructed :=
    creator_hit source issue || assignee_hit source issue || reporter_hit source issue in
  bool_decide (updates ≠ ∅) = constructed
  ∧ calls (output run)
    = (if constructed && apply_changes
       then [EvUpdateIssue (key issue) request
               (api_update_issue (key issue) request (backend st)).1]
       else [])
  ∧ (if constructed
     then apply_updates updates (fields issue) ≠ fields issue
     else updates = ∅).
Proof.
  intros Hne updates request run constructed.
  split_and!; [apply staged_updates_nonempty | |].
  - subst run. rewrite process_issue_run. fold constructed updates request.
    destruct constructed; [|done]. destruct apply_changes; [|done].
    rewrite update_issue_apply. by destruct (api_update_issue _ _ _) as [[e|] b].
  - destruct constructed eqn:Hc;
      [exact (staged_updates_change_a_field source target issue Hne Hc)|].
    subst constructed updates. rewrite <- (staged_updates_nonempty source target issue) in Hc.
    apply bool_decide_eq_false in Hc. by destruct (decide (staged_updates source target issue = ∅)).
Qed.

Lemma update_changes_a_field_when_source_differs_witness :
  let issue := issue_of "A" "alice" (Some "carol") (Some "alice") in
  "alice" ≠ "bob"
  ∧ apply_updates (staged_updates "alice" "bob" issue) (fields issue) ≠ fields issue.
Proof.
  intros issue. split; [done|].
  destruct (update_changes_a_field_when_source_differs
              true "alice" "bob" issue (enter (tracker watched_abc [])))
    as (_ & _ & Hchange); [done|].
  exact Hchange.
Defined.

(** ** Dry runs, failures and the count *)

(** C3.  With [apply_changes] false, whatever the backend answers and however
    many issues match, neither the remap handler nor the watcher-copy handler
    makes a mutating remote call (no update, no add-watcher); the counter
    stays at zero, and the count the remap handler reports when it completes
    is zero.  On a tracker with 250 issues that all match, the dry run
    completes, says 250 times what it would update, and sends nothing. *)
Theorem dry_run_never_mutates {B : Type} `{Backend B} (b : B) (fuel : nat)
    (source target : string) (seed : option string) :
  let r := remap_user fuel source target seed false (enter b) in
  let w := copy_watchers fuel source target false (enter b) in
  mutations (output r) = []
  ∧ issues_updated (final r) = 0
  ∧ reported (output r) = (if completed (outcome r) then [0] else [])
  ∧ mutations (output w) = []
  ∧ issues_updated (final w) = 0
  ∧ ∀ k, let d := remap_user (3 + k) "alice" "bob" (Some "project = X") false
                    (enter (tracker (numbered 250) [])) in
         outcome d = Done PyNone
         ∧ length (would_update (output d)) = 250
         ∧ mutations (output d) = []
         ∧ reported (output d) = [0].
Proof.
  intros r w.
  destruct (remap_user_handled fuel source target seed false (enter b) eq_refl)
    as (Hn & Hmut & Hrep & _).
  destruct (copy_watchers_handled fuel source target false (enter b) eq_refl)
    as (Hn' & Hmut' & _ & _).
  fold r in Hn, Hmut, Hrep. fold w in Hn', Hmut'.
  specialize (Hmut eq_refl). specialize (Hmut' eq_refl).
  rewrite (successes_quiet _ Hmut) in Hn, Hrep. rewrite (successes_quiet _ Hmut') in Hn'.
  split_and!; [done..|]. intros k. by vm_compute.
Qed.

(** C7 fails: [remap_user] has no [return] statement, so a run that made
    three successful updates returns [None], not 3. *)
Lemma remap_user_returns_none_not_the_count :
  let r := remap_user 1 "alice" "bob" None true (enter (tracker watched_abc [])) in
  successes (output r) = 3
  ∧ outcome r = Done PyNone
  ∧ outcome r ≠ Done (PyInt (successes (output r))).
Proof. by vm_compute. Qed.

(** C7, amended.  [remap_user] returns nothing ([None]); the count of issues
    updated is reported in a log record, once, when the run completes, and
    that count equals the number of update calls that succeeded in the run.
    A run that does not complete reports no count. *)
Theorem remap_user_reports_the_count {B : Type} `{Backend B} (b : B) (fuel : nat)
    (source target : string) (seed : option string) (apply_changes : bool) :
  let r := remap_user fuel source target seed apply_changes (enter b) in
  match outcome r with
  | Done v => v = PyNone ∧ reported (output r) = [successes (output r)]
  | _ => reported (output r) = []
  end.
Proof.
  intros r.
  destruct (remap_user_handled fuel source target seed apply_changes (enter b) eq_refl)
    as (_ & _ & Hrep & Hout).
  fold r in Hrep, Hout. by destruct (outcome r).
Qed.

(** ** Copying the watchers of a user to the same user *)

Lemma mutations_bind {B A C} (m : M B A) (k : A -> M B C) (st : Frame B) :
  mutations (output (bind m k st))
  = mutations (output (m st))
    ++ match outcome (m st) with
       | Done a => mutations (output (k a (final (m st))))
       | _ => []
       end.
Proof.
  unfold bind. destruct (outcome (m st)); simpl; [|by rewrite app_nil_r..].
  apply mutations_app.
Qed.

Lemma silent_bind {B A C} (m : M B A) (k : A -> M B C) (st : Frame B) :
  mutations (output (m st)) = [] ->
  (∀ a, outcome (m st) = Done a -> mutations (output (k a (final (m st)))) = []) ->
  mutations (output (bind m k st)) = [].
Proof.
  intros Hm Hk. rewrite mutations_bind, Hm.
  destruct (outcome (m st)); [by apply Hk | done..].
Qed.

Lemma mutations_cons_log msg out : mutations (Log msg :: out) = mutations out.
Proof. done. Qed.

Lemma mutations_cons_jql query start lim r out :
  mutations (Call (EvJql query start lim r) :: out) = mutations out.
Proof. done. Qed.

Lemma mutations_skipped email (page : list Issue) :
  mutations ((fun issue => Log (MsgAlreadyWatched (key issue) email)) <$> page) = [].
Proof. by induction page. Qed.

Section Same_user.
Context {B : Type} `{Backend B}.
Implicit Types (st : Frame B) (keys : gset string).

Hypothesis search_reads_only :
  ∀ query start lim (b : B), (api_jql query start lim b).2 = b.

Lemma for_each_snapshot (page : list Issue) keys st :
  for_each page snapshot_key keys st
  = {| outcome := Done (keys ∪ list_to_set (key <$> page)); final := st; output := [] |}.
Proof.
  revert keys. induction page as [|issue page IH]; intros keys; simpl.
  - unfold ret. by rewrite (right_id_L ∅ (∪)).
  - unfold bind. simpl. rewrite IH. simpl. by rewrite (assoc_L (∪)).
Qed.

Lemma copy_issue_skip apply_changes target email keys issue st :
  key issue ∈ keys ->
  copy_issue apply_changes target email keys issue tt st
  = {| outcome := Done tt; final := st;
       output := [Log (MsgAlreadyWatched (key issue) email)] |}.
Proof. intros Hin. unfold copy_issue. by rewrite bool_decide_eq_true_2. Qed.

Lemma for_each_skip apply_changes target email keys (page : list Issue) st :
  (∀ issue, issue ∈ page -> key issue ∈ keys) ->
  for_each page (copy_issue apply_changes target email keys) tt st
  = {| outcome := Done tt; final := st;
       output := (fun issue => Log (MsgAlreadyWatched (key issue) email)) <$> page |}.
Proof.
  induction page as [|issue page IH]; intros Hin; [done|].
  cbn [for_each]. rewrite (bind_Done _ _ _ tt) by (rewrite copy_issue_skip; [done | apply Hin; left]).
  rewrite copy_issue_skip by (apply Hin; left).
  cbn [final output]. rewrite IH by (intros; apply Hin; by right). done.
Qed.

Lemma snapshot_then_copy apply_changes target email query snapshot fuel :
  ∀ start keys st,
  outcome (iterate_from fuel query start snapshot_key keys st) = Done snapshot ->
  keys ⊆ snapshot
  ∧ final (iterate_from fuel query start snapshot_key keys st) = st
  ∧ mutations (output (iterate_from fuel query start
                         (copy_issue apply_changes target email snapshot) tt st)) = []
  ∧ final (iterate_from fuel query start
             (copy_issue apply_changes target email snapshot) tt st) = st.
Proof.
  induction fuel as [|fuel IH]; intros start keys st Hdone; [done|].
  destruct (api_jql query start limit (backend st)) as [[e|page] b] eqn:Hq.
  { by rewrite (iterate_from_error _ _ _ _ _ _ _ _ Hq) in Hdone. }
  pose proof (search_reads_only query start limit (backend st)) as Hb.
  rewrite Hq in Hb. simpl in Hb. subst b.
  rewrite !(iterate_from_page _ _ _ _ _ _ _ _ Hq) in *.
  unfold after_call, after_page in *. rewrite frame_eta in *.
  rewrite (bind_Done _ _ _ (keys ∪ list_to_set (key <$> page))) in *
    by (by rewrite for_each_snapshot).
  rewrite for_each_snapshot in *. simpl in Hdone |- *.
  destruct (length page <? limit).
  - simpl in Hdone. injection Hdone as <-.
    rewrite (bind_Done (for_each page _ tt) _ _ tt)
      by (rewrite for_each_skip; [done | set_solver]).
    rewrite for_each_skip by set_solver. simpl.
    split_and!; [set_solver | done | | done].
    by rewrite mutations_cons_log, mutations_cons_jql, mutations_app, mutations_skipped.
  - destruct (IH _ _ _ Hdone) as (Hsub & Hfinal & Hmut & Hfinal').
    rewrite (bind_Done (for_each page _ tt) _ _ tt)
      by (rewrite for_each_skip; [done | set_solver]).
    rewrite for_each_skip by set_solver. simpl.
    split_and!; [set_solver | done | | done].
    by rewrite mutations_cons_log, mutations_cons_jql, mutations_app, mutations_skipped, Hmut.
Qed.

Lemma same_user_silent fuel user apply_changes st :
  mutations (output (copy_watchers fuel user user apply_changes st)) = [].
Proof.
  unfold copy_watchers.
  apply silent_bind; [apply reads_call_user|]. intros source_user _.
  apply silent_bind; [apply reads_call_user|]. intros target_user _.
  apply silent_bind; [done|]. intros _ _.
  apply silent_bind; [done|]. intros _ _.
  apply silent_bind; [done|]. intros _ _.
  apply silent_bind.
  { apply (sound_iterate_from false); [|done].
    intros issue keys. apply reads_sound, reads_snapshot_key. }
  intros snapshot Hdone.
  apply silent_bind; [done|]. intros _ _.
  apply silent_bind; [|done].
  destruct (snapshot_then_copy apply_changes user (emailAddress target_user) _ _ _ _ _ _ Hdone)
    as (_ & Hfinal & Hmut & _).
  unfold iterate_jql_results in *.
  rewrite (final_log (MsgAlreadyWatching _)). by rewrite Hfinal.
Qed.

End Same_user.

(** C10.  On a backend whose searches leave its state as it is, running
    [copy_watchers] with the same user as source and target makes no
    add-watcher call in apply mode, and the counter stays at zero: both scans
    ask the same query of the same state, so every issue the copy scan yields
    has its key in the snapshot set and is skipped.  On the tracker where the
    user watches A, B and C the run completes, skips A, B and C, and leaves
    the tracker as it was. *)
Theorem same_user_copy_adds_no_watcher {B : Type} `{Backend B} (b : B) (fuel : nat)
    (user_id : string) :
  (∀ query start lim (b' : B), (api_jql query start lim b').2 = b') ->
  let r := copy_watchers fuel user_id user_id true (enter b) in
  watching_query user_id = watching_query user_id
  ∧ mutations (output r) = []
  ∧ issues_updated (final r) = 0
  ∧ ∀ k, let d := copy_watchers (1 + k) "alice" "alice" true
                    (enter (tracker watched_abc [])) in
         outcome d = Done PyNone
         ∧ already_watched (output d) = ["A"; "B"; "C"]
         ∧ mutations (output d) = []
         ∧ backend (final d) = tracker watched_abc [].
Proof.
  intros Hreads r.
  pose proof (same_user_silent Hreads fuel user_id true (enter b)) as Hmut. fold r in Hmut.
  destruct (copy_watchers_handled fuel user_id user_id true (enter b) eq_refl) as (Hn & _).
  fold r in Hn. rewrite (successes_quiet _ Hmut) in Hn.
  split_and!; [done..|]. intros k. by vm_compute.
Qed.

Lemma same_user_copy_adds_no_watcher_witness :
  (∀ query start lim (m : Mock), (api_jql query start lim m).2 = m)
  ∧ mutations (output (copy_watchers 2 "bob" "bob" true (enter (tracker watched_abc ["A"])))) = [].
Proof.
  split; [done|].
  destruct (same_user_copy_adds_no_watcher (tracker watched_abc ["A"]) 2 "bob")
    as (_ & Hmut & _); [done|].
  exact Hmut.
Defined.

(** ** Paging through a fixed list of results *)

Section Paging.
Context {B : Type} `{Backend B}.
Implicit Types st : Frame B.

Lemma for_each_preserves {A} (Inv : B -> Prop) (L : list Issue)
    (body : Issue -> A -> M B A) :
  (∀ issue acc st, issue ∈ L -> Inv (backend st) -> Inv (backend (final (body issue acc st)))) ->
  ∀ l acc st, l ⊆ L -> Inv (backend st) -> Inv (backend (final (for_each l body acc st))).
Proof.
  intros Hbody. induction l as [|issue l IH]; intros acc st Hsub Hinv; [done|].
  cbn [for_each]. unfold bind.
  assert (Inv (backend (final (body issue acc st)))) as Hstep.
  { apply Hbody; [|done]. apply Hsub. by left. }
  destruct (outcome (body issue acc st)); simpl; [|done..].
  apply IH; [|done]. intros x Hx. apply Hsub. by right.
Qed.

(** On a backend that answers the query by slicing a fixed list [L], for as
    long as the loop body keeps it that way, the iterator with enough fuel
    does what a plain loop over [L] does. *)
Lemma iterate_paged {A} (Inv : B -> Prop) (query : string) (L : list Issue)
    (body : Issue -> A -> M B A) :
  (∀ b start, Inv b -> api_jql query start limit b = (inr (take limit (drop start L)), b)) ->
  (∀ issue acc st, issue ∈ L -> Inv (backend st) -> Inv (backend (final (body issue acc st)))) ->
  ∀ fuel start acc st,
    Inv (backend st) ->
    length L - start < fuel * limit ->
    same_effect (iterate_from fuel query start body acc st)
                (for_each (drop start L) body acc st).
Proof.
  intros Hsearch Hbody. induction fuel as [|fuel IH]; intros start acc st Hinv Hfuel.
  { simpl in Hfuel. lia. }
  rewrite (iterate_from_page _ _ _ _ _ _ _ _ (Hsearch _ start Hinv)).
  unfold after_call. rewrite frame_eta.
  set (page := take limit (drop start L)).
  assert (drop start L = page ++ drop (start + limit) L) as Hsplit.
  { subst page. by rewrite <- drop_drop, take_drop. }
  rewrite Hsplit, for_each_app. unfold after_page, same_effect, prepend, bind.
  assert (Inv (backend (final (for_each page body acc st)))) as Hinv'.
  { apply (for_each_preserves Inv L); [done| |done].
    intros x Hx. subst page. by apply subseteq_take, subseteq_drop in Hx. }
  destruct (outcome (for_each page body acc st)) as [acc'| |] eqn:Hout; simpl; [|done..].
  assert (length page = limit `min` (length L - start)) as Hlen.
  { subst page. by rewrite length_take, length_drop. }
  destruct (Nat.ltb_spec (length page) limit) as [Hshort|Hfull].
  - rewrite (drop_ge L) by lia. simpl.
    by rewrite !mutations_cons_log, mutations_cons_jql, mutations_app, !app_nil_r.
  - assert (length page = limit) as -> by lia.
    destruct (IH (start + limit) acc' (final (for_each page body acc st))) as (Ho & Hf & Hm);
      [done | rewrite Nat.mul_succ_l in Hfuel; lia |].
    simpl. by rewrite !mutations_cons_log, mutations_cons_jql, !mutations_app, Hm.
Qed.

End Paging.

(** ** The mock tracker *)

Lemma append_dquote_inj (u v : string) : u +:+ dquote = v +:+ dquote -> u = v.
Proof.
  revert v. induction u as [|a u IH]; intros [|c v] Heq; simpl in Heq.
  - done.
  - injection Heq as _ Heq. by destruct v.
  - injection Heq as _ Heq. by destruct u.
  - injection Heq as -> Heq. f_equal. by apply IH.
Qed.

Lemma watching_query_inj (u v : string) : watching_query u = watching_query v -> u = v.
Proof.
  unfold watching_query. intros Heq. simpl in Heq.
  injection Heq as Heq. by apply append_dquote_inj.
Qed.

Lemma mock_selects_watching (u : string) (mi : MockIssue) :
  mock_selects (watching_query u) mi = bool_decide (u ∈ watchers mi).
Proof.
  unfold mock_selects.
  replace (String.prefix "watcher = " (watching_query u)) with true by done.
  apply bool_decide_ext. rewrite list_elem_of_fmap. split.
  - intros (v & Heq & Hv). by rewrite (watching_query_inj _ _ Heq).
  - intros Hu. by exists u.
Qed.

Lemma elem_of_mock_search (query : string) (m : Mock) (issue : Issue) :
  issue ∈ mock_search query m
  ↔ ∃ mi, mi ∈ mock_issues m ∧ mock_selects query mi = true ∧ mock_issue mi = issue.
Proof.
  unfold mock_search. rewrite list_elem_of_fmap. split.
  - intros (mi & -> & Hmi). exists mi.
    apply list_elem_of_In, List.filter_In in Hmi as [Hin Hsel].
    by apply list_elem_of_In in Hin.
  - intros (mi & Hin & Hsel & <-). exists mi. split; [done|].
    apply list_elem_of_In, List.filter_In. split; [by apply list_elem_of_In | done].
Qed.

Lemma elem_of_watch_set (u k : string) (m : Mock) :
  k ∈ watch_set u m
  ↔ ∃ mi, mi ∈ mock_issues m ∧ key (mock_issue mi) = k ∧ u ∈ watchers mi.
Proof.
  unfold watch_set. rewrite elem_of_list_to_set, list_elem_of_fmap. split.
  - intros (issue & -> & Hissue).
    apply elem_of_mock_search in Hissue as (mi & Hin & Hsel & <-).
    rewrite mock_selects_watching in Hsel. apply bool_decide_eq_true in Hsel. by exists mi.
  - intros (mi & Hin & <- & Hu). exists (mock_issue mi). split; [done|].
    apply elem_of_mock_search. exists mi. split_and!; [done | | done].
    rewrite mock_selects_watching. by apply bool_decide_eq_true.
Qed.

Lemma mock_search_length (query : string) (m : Mock) :
  length (mock_search query m) ≤ length (mock_issues m).
Proof. unfold mock_search. rewrite length_fmap. apply List.filter_length_le. Qed.

Lemma mock_search_keys (query : string) (m : Mock) (issue : Issue) :
  issue ∈ mock_search query m -> key issue ∈ mock_keys m.
Proof.
  intros (mi & Hin & _ & <-)%elem_of_mock_search.
  unfold mock_keys. apply list_elem_of_fmap. by exists mi.
Qed.


Lemma watch_keeps (u v : string) (mi : MockIssue) :
  u ∈ watchers mi -> u ∈ watchers (watch v mi).
Proof. unfold watch. simpl. case_bool_decide; [done | by right]. Qed.

Lemma watch_adds (v : string) (mi : MockIssue) : v ∈ watchers (watch v mi).
Proof. unfold watch. simpl. case_bool_decide; [done | by left]. Qed.

Lemma watch_other (u v : string) (mi : MockIssue) :
  u ≠ v -> u ∈ watchers (watch v mi) ↔ u ∈ watchers mi.
Proof.
  intros Hne. unfold watch. simpl. case_bool_decide; [done|].
  rewrite elem_of_cons. naive_solver.
Qed.

(** Adding a watcher changes nothing for the searches of another user. *)
Lemma mock_search_other (source target k : string) (m : Mock) :
  source ≠ target ->
  mock_search (watching_query source) (mock_map (watch target) k m)
  = mock_search (watching_query source) m.
Proof.
  intros Hne. unfold mock_search, mock_map. simpl.
  induction (mock_issues m) as [|mi l IH]; [done|]. simpl.
  assert (mock_selects (watching_query source)
            (if bool_decide (key (mock_issue mi) = k) then watch target mi else mi)
          = mock_selects (watching_query source) mi) as ->.
  { case_bool_decide; [|done]. rewrite !mock_selects_watching.
    apply bool_decide_ext. by apply watch_other. }
  destruct (mock_selects _ mi); simpl; [|done].
  f_equal; [|done]. by case_bool_decide.
Qed.

(** What a user watches stays watched when a watcher is added somewhere. *)
Lemma watch_set_mono (u v k k' : string) (m : Mock) :
  k ∈ watch_set u m -> k ∈ watch_set u (mock_map (watch v) k' m).
Proof.
  rewrite !elem_of_watch_set. intros (mi & Hin & <- & Hu).
  exists (if bool_decide (key (mock_issue mi) = k') then watch v mi else mi).
  split_and!.
  - unfold mock_map. simpl. apply list_elem_of_fmap. by exists mi.
  - by case_bool_decide.
  - case_bool_decide; [by apply watch_keeps | done].
Qed.

(** After a successful add-watcher the user watches the issue. *)
Lemma watch_set_added (v k : string) (m : Mock) :
  k ∈ mock_keys m -> k ∈ watch_set v (mock_map (watch v) k m).
Proof.
  unfold mock_keys. rewrite list_elem_of_fmap, elem_of_watch_set.
  intros (mi & -> & Hin).
  exists (watch v mi). split_and!; [|done|apply watch_adds].
  unfold mock_map. simpl. apply list_elem_of_fmap. exists mi.
  by rewrite bool_decide_eq_true_2.
Qed.

Lemma mock_mutate_cases f k (m : Mock) :
  (∃ e, mock_mutate f k m = (Some e, m))
  ∨ (mock_mutate f k m = (None, mock_map f k m) ∧ k ∈ mock_keys m).
Proof.
  unfold mock_mutate. repeat case_bool_decide; eauto.
Qed.

(** ** The watcher copy handler on the mock tracker *)

Section Copy_on_mock.
Implicit Types (m : Mock) (st : Frame Mock) (keys : gset string).

Lemma same_effect_trans {A} (r1 r2 r3 : Run Mock A) :
  same_effect r1 r2 -> same_effect r2 r3 -> same_effect r1 r3.
Proof. unfold same_effect. naive_solver congruence. Qed.

Lemma bind_effect {A C} (f : M Mock A) (k : A -> M Mock C) st a :
  outcome (f st) = Done a -> mutations (output (f st)) = [] ->
  same_effect (bind f k st) (k a (final (f st))).
Proof.
  intros Hout Hmut. rewrite (bind_Done _ _ _ a Hout).
  unfold same_effect, prepend. simpl. by rewrite mutations_app, Hmut.
Qed.


Lemma copy_issue_add apply_changes target email keys issue st :
  key issue ∉ keys ->
  copy_issue apply_changes target email keys issue tt st
  = add_watcher apply_changes target issue st.
Proof. intros Hin. unfold copy_issue. by rewrite bool_decide_eq_false_2. Qed.


(** The copy loop keeps the search for the issues the source watches as it
    is, given the snapshot set of the target. *)
Lemma copy_issue_keeps_source source target email (m0 : Mock) issue u st :
  issue ∈ mock_search (watching_query source) m0 ->
  mock_search (watching_query source) (backend st)
    = mock_search (watching_query source) m0 ->
  mock_search (watching_query source)
    (backend (final (copy_issue true target email (watch_set target m0) issue u st)))
    = mock_search (watching_query source) m0.
Proof.
  intros Hissue Hinv. destruct u.
  destruct (decide (key issue ∈ watch_set target m0)) as [Hin|Hin].
  { by rewrite copy_issue_skip. }
  assert (source ≠ target) as Hne.
  { intros ->. apply Hin. unfold watch_set. apply elem_of_list_to_set, list_elem_of_fmap.
    by exists issue. }
  rewrite copy_issue_add, add_watcher_apply by done.
  change (api_issue_add_watcher (key issue) target (backend st))
    with (mock_mutate (watch target) (key issue) (backend st)).
  destruct (mock_mutate_cases (watch target) (key issue) (backend st)) as [[e ->]|[-> _]];
    cbn [final backend]; [done|]. by rewrite mock_search_other.
Qed.

Lemma snapshot_mock m target fuel n :
  length (mock_issues m) < fuel * limit ->
  let r := iterate_jql_results fuel (watching_query target) snapshot_key ∅
             {| backend := m; issues_updated := n |} in
  outcome r = Done (watch_set target m)
  ∧ final r = {| backend := m; issues_updated := n |}
  ∧ mutations (output r) = [].
Proof.
  intros Hfuel r.
  assert (same_effect r
            (for_each (drop 0 (mock_search (watching_query target) m)) snapshot_key ∅
               {| backend := m; issues_updated := n |})) as (Hout & Hfinal & Hmut).
  { apply (iterate_paged (fun b => b = m)).
    - by intros b start ->.
    - by intros issue acc st _ Hst.
    - done.
    - pose proof (mock_search_length (watching_query target) m). lia. }
  rewrite drop_0, for_each_snapshot in Hout, Hfinal, Hmut. simpl in Hout, Hfinal, Hmut.
  rewrite (left_id_L ∅ (∪)) in Hout. done.
Qed.




End Copy_on_mock.

(** ** Running the watcher copy twice *)


(** * Further properties of the code *)

(** ** Observations distribute, continued *)

Lemma output_bind {B A C} (m : M B A) (k : A -> M B C) (st : Frame B) :
  output (bind m k st)
  = output (m st)
    ++ match outcome (m st) with
       | Done a => output (k a (final (m st)))
       | _ => []
       end.
Proof. unfold bind. destruct (outcome (m st)); simpl; by rewrite ?app_nil_r. Qed.

Lemma calls_cons_log msg out : calls (Log msg :: out) = calls out.
Proof. done. Qed.

Lemma calls_cons_call ev out : calls (Call ev :: out) = ev :: calls out.
Proof. done. Qed.

Lemma pages_app evs1 evs2 : pages (evs1 ++ evs2) = pages evs1 ++ pages evs2.
Proof. apply omap_app. Qed.

Lemma fetched_app out1 out2 : fetched (out1 ++ out2) = fetched out1 ++ fetched out2.
Proof. unfold fetched. by rewrite calls_app, pages_app, concat_app. Qed.

Lemma mutated_keys_app out1 out2 :
  mutated_keys (out1 ++ out2) = mutated_keys out1 ++ mutated_keys out2.
Proof. unfold mutated_keys. by rewrite calls_app, omap_app. Qed.

Lemma would_update_app out1 out2 :
  would_update (out1 ++ out2) = would_update out1 ++ would_update out2.
Proof. apply omap_app. Qed.

Lemma would_watch_app out1 out2 :
  would_watch (out1 ++ out2) = would_watch out1 ++ would_watch out2.
Proof. apply omap_app. Qed.

Lemma warnings_app out1 out2 : warnings (out1 ++ out2) = warnings out1 ++ warnings out2.
Proof. apply omap_app. Qed.

(** ** The iterator on any backend *)

Section Iterator_shape.
Context {B : Type} `{Backend B}.
Implicit Types st : Frame B.

Lemma collect_shape fuel : ∀ query start (acc : list Issue) st,
  let r := iterate_from fuel query start (fun issue acc => ret (acc ++ [issue])) acc st in
  let ps := pages (calls (output r)) in
  match outcome r with
  | Done l =>
      l = acc ++ concat ps
      ∧ calls (output r) = fetches query start ps
      ∧ ∃ init last, ps = init ++ [last]
                     ∧ Forall (fun page => limit ≤ length page) init
                     ∧ length last < limit
  | Raised e =>
      calls (output r)
      = fetches query start ps ++ [EvJql query (start + length (concat ps)) limit (inl e)]
      ∧ Forall (fun page => limit ≤ length page) ps
  | OutOfFuel =>
      calls (output r) = fetches query start ps
      ∧ Forall (fun page => limit ≤ length page) ps
      ∧ length ps = fuel
  end.
Proof.
  induction fuel as [|fuel IH]; intros query start acc st; [by simpl|].
  destruct (api_jql query start limit (backend st)) as [[e|page] b] eqn:Hq.
  { rewrite (iterate_from_error _ _ _ _ _ _ _ _ Hq). simpl. by rewrite Nat.add_0_r. }
  rewrite (iterate_from_page _ _ _ _ _ _ _ _ Hq). unfold after_page.
  rewrite (bind_Done _ _ _ (acc ++ page)) by (by rewrite for_each_collect).
  rewrite for_each_collect. cbn [prepend outcome final output app].
  destruct (Nat.ltb_spec (length page) limit) as [Hshort|Hfull].
  - simpl. split_and!; [by rewrite app_nil_r | done |].
    exists [], page. by split_and!.
  - specialize (IH query (start + length page) (acc ++ page) (after_call b st)).
    cbv zeta in IH.
    set (r' := iterate_from fuel query (start + length page) _ (acc ++ page) _) in *.
    change (calls (Log (MsgFetching start (start + limit))
                   :: Call (EvJql query start limit (inr page)) :: output r'))
      with (EvJql query start limit (inr page) :: calls (output r')).
    change (pages (EvJql query start limit (inr page) :: calls (output r')))
      with (page :: pages (calls (output r'))).
    destruct (outcome r') as [l|e|].
    + destruct IH as (-> & Hcalls & init & last & Hps & Hinit & Hlast).
      split_and!.
      * by rewrite <- app_assoc.
      * simpl. by rewrite <- Hcalls.
      * exists (page :: init), last. rewrite Hps. split_and!; [done | by constructor | done].
    + destruct IH as (Hcalls & Hfull').
      split; [|by constructor].
      simpl. rewrite length_app, Nat.add_assoc. by rewrite <- Hcalls.
    + destruct IH as (Hcalls & Hfull' & Hlen).
      split_and!; [simpl; by rewrite <- Hcalls | by constructor | simpl; by rewrite Hlen].
Qed.

End Iterator_shape.

(** X1.  On every backend and for every consumer-independent run of the
    iterator: all its searches ask the same query with limit 100, the first at
    offset 0 and each next one further by the number of records the page
    before returned; every page but the last has at least 100 records.  The
    run completes exactly when the last page is shorter than 100, and then
    yields the concatenation of the pages; when a search raises, the run
    raises that error at once, after full pages only, and no search follows;
    the run is cut short by the fuel only after as many full pages as fuel. *)
Theorem iterator_searches_are_contiguous {B : Type} `{Backend B}
    (fuel : nat) (query : string) (st : Frame B) :
  let r := yielded fuel query st in
  let ps := pages (calls (output r)) in
  match outcome r with
  | Done l =>
      l = concat ps
      ∧ calls (output r) = fetches query 0 ps
      ∧ ∃ init last, ps = init ++ [last]
                     ∧ Forall (fun page => limit ≤ length page) init
                     ∧ length last < limit
  | Raised e =>
      calls (output r)
      = fetches query 0 ps ++ [EvJql query (length (concat ps)) limit (inl e)]
      ∧ Forall (fun page => limit ≤ length page) ps
  | OutOfFuel =>
      calls (output r) = fetches query 0 ps
      ∧ Forall (fun page => limit ≤ length page) ps
      ∧ length ps = fuel
  end.
Proof. apply (collect_shape fuel query 0 [] st). Qed.

(** ** The iterator on the mock tracker *)

Lemma collect_mock (m : Mock) (query : string) fuel : ∀ start (acc : list Issue) n,
  length (mock_search query m) - start < fuel * limit ->
  let r := iterate_from fuel query start (fun issue acc => ret (acc ++ [issue])) acc
             {| backend := m; issues_updated := n |} in
  outcome r = Done (acc ++ drop start (mock_search query m))
  ∧ final r = {| backend := m; issues_updated := n |}
  ∧ length (calls (output r)) = (length (mock_search query m) - start) / limit + 1.
Proof.
  set (L := mock_search query m).
  induction fuel as [|fuel IH]; intros start acc n Hfuel; [simpl in Hfuel; lia|].
  rewrite (iterate_from_page _ _ _ _ _ _ (take limit (drop start L)) m) by done.
  set (page := take limit (drop start L)).
  assert (length page = limit `min` (length L - start)) as Hlen.
  { subst page. by rewrite length_take, length_drop. }
  unfold after_page. rewrite (bind_Done _ _ _ (acc ++ page)) by (by rewrite for_each_collect).
  rewrite for_each_collect. unfold after_call.
  cbn [prepend outcome final output app backend issues_updated].
  destruct (Nat.ltb_spec (length page) limit) as [Hshort|Hfull].
  - rewrite Nat.div_small by lia. split_and!; [|done..].
    cbn [bind log ret outcome]. subst page. rewrite take_ge; [done|].
    rewrite length_drop. lia.
  - assert (length page = limit) as Hpage by lia. rewrite Hpage.
    destruct (IH (start + limit) (acc ++ page) n) as (Hout & Hfinal & Hcalls).
    { rewrite Nat.mul_succ_l in Hfuel. lia. }
    split_and!.
    + rewrite Hout, <- app_assoc. do 2 f_equal. subst page.
      by rewrite <- (take_drop limit (drop start L)) at 2; rewrite drop_drop.
    + done.
    + rewrite calls_cons_log, calls_cons_call. cbn [length]. rewrite Hcalls.
      replace (length L - start) with ((length L - (start + limit)) + 1 * limit) by lia.
      rewrite Nat.div_add by done. lia.
Qed.

(** X2.  On a tracker that pages a fixed list of [n] matching records, the
    iterator with enough fuel returns every record once, in the tracker's
    order, makes exactly [n / 100 + 1] searches and leaves the tracker as it
    was.  In particular a result that is an exact multiple of 100 costs one
    more search, which returns the empty page. *)
Theorem paging_returns_every_record (m : Mock) (query : string) (fuel : nat) :
  length (mock_search query m) < fuel * limit ->
  let r := yielded fuel query (enter m) in
  outcome r = Done (mock_search query m)
  ∧ length (calls (output r)) = length (mock_search query m) / limit + 1
  ∧ backend (final r) = m.
Proof.
  intros Hfuel r.
  destruct (collect_mock m query fuel 0 [] 0) as (Hout & Hfinal & Hcalls); [lia|].
  rewrite Nat.sub_0_r in Hcalls. split_and!; [done | done |].
  subst r. unfold yielded, iterate_jql_results, enter. by rewrite Hfinal.
Qed.

Lemma paging_returns_every_record_witness :
  let m := tracker (numbered 200) [] in
  let r := yielded 3 "project = X" (enter m) in
  length (mock_search "project = X" m) < 3 * limit
  ∧ outcome r = Done (mock_search "project = X" m)
  ∧ length (calls (output r)) = length (mock_search "project = X" m) / limit + 1
  ∧ backend (final r) = m.
Proof.
  intros m r.
  assert (length (mock_search "project = X" m) < 3 * limit) as Hfuel by (vm_compute; lia).
  exact (conj Hfuel (paging_returns_every_record m "project = X" 3 Hfuel)).
Defined.

(** ** The handlers, lookup by lookup *)

Section Lookups.
Context {B : Type} `{Backend B}.
Implicit Types st : Frame B.

Lemma call_myself_eq st r b :
  api_myself (backend st) = (r, b) ->
  call_myself st
  = {| outcome := of_read r; final := after_call b st; output := [Call (EvMyself r)] |}.
Proof. unfold call_myself. by intros ->. Qed.

Lemma call_user_eq account_id st r b :
  api_user account_id (backend st) = (r, b) ->
  call_user account_id st
  = {| outcome := of_read r; final := after_call b st;
       output := [Call (EvUser account_id r)] |}.
Proof. unfold call_user. by intros ->. Qed.

(** [remap_user] unfolded along the answers of its two lookups. *)
Lemma remap_user_run fuel source target seed apply_changes (b : B) :
  remap_user fuel source target seed apply_changes (enter b)
  = match api_myself b with
    | (inl e, b1) =>
        {| outcome := Raised e; final := enter b1;
           output := [Log (MsgRemapping source target (negb apply_changes));
                      Call (EvMyself (inl e))] |}
    | (inr myself, b1) =>
        match api_user target b1 with
        | (inl e, b2) =>
            {| outcome := Raised e; final := enter b2;
               output := remap_head source target apply_changes myself
                         ++ [Call (EvUser target (inl e))] |}
        | (inr target_user, b2) =>
            prepend (remap_head source target apply_changes myself
                     ++ [Call (EvUser target (inr target_user));
                         Log (MsgTargetEmail (emailAddress target_user))])
              (remap_scan fuel source target seed apply_changes (enter b2))
        end
    end.
Proof.
  unfold remap_user. rewrite (bind_Done (log _) _ _ tt) by done.
  rewrite final_log. cbn [log output].
  destruct (api_myself b) as [[e|myself] b1] eqn:Hme.
  { rewrite (bind_Raised _ _ _ e) by (by rewrite (call_myself_eq (enter b) _ _ Hme)).
    by rewrite (call_myself_eq (enter b) _ _ Hme). }
  rewrite (bind_Done _ _ _ myself) by (by rewrite (call_myself_eq (enter b) _ _ Hme)).
  rewrite (call_myself_eq (enter b) _ _ Hme). cbn [final output].
  change (after_call b1 (enter b)) with (enter b1).
  rewrite (bind_Done (log _) _ _ tt) by done. rewrite final_log. cbn [log output].
  set (warn := if bool_decide (source ≠ user_accountId myself)
               then log (MsgNotSameUser source (user_accountId myself)) else ret tt).
  assert (warn (enter b1)
          = {| outcome := Done tt; final := enter b1;
               output := if bool_decide (source ≠ user_accountId myself)
                         then [Log (MsgNotSameUser source (user_accountId myself))]
                         else [] |}) as Hwarn.
  { subst warn. by destruct (bool_decide _). }
  rewrite (bind_Done warn _ _ tt) by (by rewrite Hwarn). rewrite Hwarn. cbn [final output].
  destruct (api_user target b1) as [[e|target_user] b2] eqn:Htu.
  { rewrite (bind_Raised _ _ _ e) by (by rewrite (call_user_eq target (enter b1) _ _ Htu)).
    rewrite (call_user_eq target (enter b1) _ _ Htu). unfold prepend, remap_head. simpl.
    by rewrite <- ?app_assoc. }
  rewrite (bind_Done _ _ _ target_user) by (by rewrite (call_user_eq target (enter b1) _ _ Htu)).
  rewrite (call_user_eq target (enter b1) _ _ Htu). cbn [final output].
  change (after_call b2 (enter b1)) with (enter b2).
  rewrite (bind_Done (log _) _ _ tt) by done. rewrite final_log. cbn [log output].
  rewrite (bind_Done (set_issues_updated 0) _ _ tt) by done.
  change (final (set_issues_updated 0 (enter b2))) with (enter b2).
  change (output (set_issues_updated 0 (enter b2))) with (@nil Output).
  fold (remap_scan fuel source target seed apply_changes).
  unfold prepend, remap_head. simpl. by rewrite <- ?app_assoc.
Qed.

(** [copy_watchers] unfolded along the answers of its two lookups. *)
Lemma copy_watchers_run fuel source target apply_changes (b : B) :
  copy_watchers fuel source target apply_changes (enter b)
  = match api_user source b with
    | (inl e, b1) =>
        {| outcome := Raised e; final := enter b1;
           output := [Call (EvUser source (inl e))] |}
    | (inr source_user, b1) =>
        match api_user target b1 with
        | (inl e, b2) =>
            {| outcome := Raised e; final := enter b2;
               output := [Call (EvUser source (inr source_user));
                          Call (EvUser target (inl e))] |}
        | (inr target_user, b2) =>
            prepend [Call (EvUser source (inr source_user));
                     Call (EvUser target (inr target_user));
                     Log (MsgCopying (emailAddress source_user)
                            (emailAddress target_user) (negb apply_changes))]
              (copy_scans fuel source target (emailAddress target_user) apply_changes
                 (enter b2))
        end
    end.
Proof.
  unfold copy_watchers.
  destruct (api_user source b) as [[e|source_user] b1] eqn:Hsu.
  { rewrite (bind_Raised _ _ _ e) by (by rewrite (call_user_eq source (enter b) _ _ Hsu)).
    by rewrite (call_user_eq source (enter b) _ _ Hsu). }
  rewrite (bind_Done _ _ _ source_user) by (by rewrite (call_user_eq source (enter b) _ _ Hsu)).
  rewrite (call_user_eq source (enter b) _ _ Hsu). cbn [final output].
  change (after_call b1 (enter b)) with (enter b1).
  destruct (api_user target b1) as [[e|target_user] b2] eqn:Htu.
  { rewrite (bind_Raised _ _ _ e) by (by rewrite (call_user_eq target (enter b1) _ _ Htu)).
    by rewrite (call_user_eq target (enter b1) _ _ Htu). }
  rewrite (bind_Done _ _ _ target_user) by (by rewrite (call_user_eq target (enter b1) _ _ Htu)).
  rewrite (call_user_eq target (enter b1) _ _ Htu). cbn [final output].
  change (after_call b2 (enter b1)) with (enter b2).
  rewrite (bind_Done (log _) _ _ tt) by done. rewrite final_log. cbn [log output].
  rewrite (bind_Done (set_issues_updated 0) _ _ tt) by done.
  change (final (set_issues_updated 0 (enter b2))) with (enter b2).
  change (output (set_issues_updated 0 (enter b2))) with (@nil Output).
  by fold (copy_scans fuel source target (emailAddress target_user) apply_changes).
Qed.

End Lookups.

Lemma calls_remap_head source target apply_changes myself :
  calls (remap_head source target apply_changes myself) = [EvMyself (inr myself)].
Proof. unfold remap_head. simpl. by destruct (bool_decide _). Qed.

(** X3.  [remap_user] looks up the logged-in user and then the target user
    before anything else.  If [myself()] raises, the run raises that error
    having made no other call; if the lookup of the target user raises, the
    run raises that error having made no search and no update.  Otherwise the
    run is the scan started from the tracker state the lookups left, with a
    fresh counter. *)
Theorem remap_user_stops_at_failed_lookup {B : Type} `{Backend B} (b : B) (fuel : nat)
    (source target : string) (seed : option string) (apply_changes : bool) :
  let r := remap_user fuel source target seed apply_changes (enter b) in
  match api_myself b with
  | (inl e, b1) =>
      outcome r = Raised e ∧ calls (output r) = [EvMyself (inl e)]
      ∧ backend (final r) = b1
  | (inr myself, b1) =>
      match api_user target b1 with
      | (inl e, b2) =>
          outcome r = Raised e
          ∧ calls (output r) = [EvMyself (inr myself); EvUser target (inl e)]
          ∧ backend (final r) = b2
      | (inr target_user, b2) =>
          let scan := remap_scan fuel source target seed apply_changes (enter b2) in
          outcome r = outcome scan
          ∧ calls (output r)
            = EvMyself (inr myself) :: EvUser target (inr target_user)
              :: calls (output scan)
          ∧ final r = final scan
      end
  end.
Proof.
  intros r. subst r. rewrite remap_user_run.
  destruct (api_myself b) as [[e|myself] b1]; [done|].
  destruct (api_user target b1) as [[e|target_user] b2];
    cbn [outcome final output prepend].
  - by rewrite calls_app, calls_remap_head.
  - by rewrite !calls_app, calls_remap_head.
Qed.

(** X4.  [copy_watchers] looks up the source user and then the target user
    before anything else.  If either lookup raises, the run raises that error
    having made no search and no add-watcher call.  Otherwise the run is the
    two scans started from the tracker state the lookups left, with a fresh
    counter. *)
Theorem copy_watchers_stops_at_failed_lookup {B : Type} `{Backend B} (b : B) (fuel : nat)
    (source target : string) (apply_changes : bool) :
  let r := copy_watchers fuel source target apply_changes (enter b) in
  match api_user source b with
  | (inl e, b1) =>
      outcome r = Raised e ∧ calls (output r) = [EvUser source (inl e)]
      ∧ backend (final r) = b1
  | (inr source_user, b1) =>
      match api_user target b1 with
      | (inl e, b2) =>
          outcome r = Raised e
          ∧ calls (output r)
            = [EvUser source (inr source_user); EvUser target (inl e)]
          ∧ backend (final r) = b2
      | (inr target_user, b2) =>
          let scans := copy_scans fuel source target (emailAddress target_user)
                         apply_changes (enter b2) in
          outcome r = outcome scans
          ∧ calls (output r)
            = EvUser source (inr source_user) :: EvUser target (inr target_user)
              :: calls (output scans)
          ∧ final r = final scans
      end
  end.
Proof.
  intros r. subst r. rewrite copy_watchers_run.
  destruct (api_user source b) as [[e|source_user] b1]; [done|].
  by destruct (api_user target b1) as [[e|target_user] b2].
Qed.

(** ** Observers of log records *)

Section Observers.
Context {B : Type} `{Backend B} {X : Type}.
Implicit Types st : Frame B.

Variable f : Output -> option X.
Hypothesis f_jql : ∀ query start lim r, f (Call (EvJql query start lim r)) = None.
Hypothesis f_fetching : ∀ start stop, f (Log (MsgFetching start stop)) = None.
Hypothesis f_last_page : f (Log MsgLastPage) = None.

Lemma unseen_ret {A} (a : A) : unseen f (ret a : M B A).
Proof. by intros st. Qed.

Lemma unseen_log msg : f (Log msg) = None -> unseen f (log msg : M B unit).
Proof. intros Hmsg st. simpl. by rewrite Hmsg. Qed.

Lemma unseen_bind {A C} (m : M B A) (k : A -> M B C) :
  unseen f m -> (∀ a, unseen f (k a)) -> unseen f (bind m k).
Proof.
  intros Hm Hk st. rewrite output_bind, omap_app, Hm.
  destruct (outcome (m st)); [apply Hk | done..].
Qed.

Lemma unseen_call_jql query start lim : unseen f (call_jql query start lim).
Proof.
  intros st. unfold call_jql. destruct (api_jql _ _ _ _) as [r b]. simpl.
  by rewrite f_jql.
Qed.

Lemma unseen_for_each {A T} (l : list T) (body : T -> A -> M B A) acc :
  (∀ x a, unseen f (body x a)) -> unseen f (for_each l body acc).
Proof.
  intros Hbody. revert acc. induction l as [|x l IH]; intros acc; simpl.
  - apply unseen_ret.
  - by apply unseen_bind.
Qed.

Lemma unseen_iterate_from {A} fuel query start (body : Issue -> A -> M B A) acc :
  (∀ x a, unseen f (body x a)) -> unseen f (iterate_from fuel query start body acc).
Proof.
  intros Hbody. revert start acc. induction fuel as [|fuel IH]; intros start acc; simpl.
  - by intros st.
  - apply unseen_bind; [by apply unseen_log|]. intros _.
    apply unseen_bind; [apply unseen_call_jql|]. intros page.
    apply unseen_bind; [by apply unseen_for_each|]. intros acc'.
    destruct (length page <? limit); [|apply IH].
    apply unseen_bind; [by apply unseen_log|]. intros _. apply unseen_ret.
Qed.

(** [iterate_paged] for what the observer sees of the two runs. *)
Lemma iterate_paged_seen {A} (Inv : B -> Prop) (query : string) (L : list Issue)
    (body : Issue -> A -> M B A) :
  (∀ b start, Inv b -> api_jql query start limit b = (inr (take limit (drop start L)), b)) ->
  (∀ issue acc st, issue ∈ L -> Inv (backend st) -> Inv (backend (final (body issue acc st)))) ->
  ∀ fuel start acc st,
    Inv (backend st) ->
    length L - start < fuel * limit ->
    let r := iterate_from fuel query start body acc st in
    let r' := for_each (drop start L) body acc st in
    outcome r = outcome r' ∧ final r = final r'
    ∧ omap f (output r) = omap f (output r').
Proof.
  intros Hsearch Hbody. induction fuel as [|fuel IH]; intros start acc st Hinv Hfuel.
  { simpl in Hfuel. lia. }
  rewrite (iterate_from_page _ _ _ _ _ _ _ _ (Hsearch _ start Hinv)).
  unfold after_call. rewrite frame_eta.
  set (page := take limit (drop start L)).
  assert (drop start L = page ++ drop (start + limit) L) as Hsplit.
  { subst page. by rewrite <- drop_drop, take_drop. }
  rewrite Hsplit, for_each_app. unfold after_page. cbv zeta.
  assert (Inv (backend (final (for_each page body acc st)))) as Hinv'.
  { apply (for_each_preserves Inv L); [done| |done].
    intros x Hx. subst page. by apply subseteq_take, subseteq_drop in Hx. }
  assert (omap f [Log (MsgFetching start (start + limit));
                  Call (EvJql query start limit (inr page))] = []) as Hhead.
  { simpl. by rewrite f_fetching, f_jql. }
  destruct (outcome (for_each page body acc st)) as [acc'|e|] eqn:Hout.
  2:{ rewrite !(bind_Raised _ _ _ e Hout). cbn [prepend outcome final output].
      by rewrite omap_app, Hhead. }
  2:{ rewrite !(bind_OutOfFuel _ _ _ Hout). cbn [prepend outcome final output].
      by rewrite omap_app, Hhead. }
  rewrite !(bind_Done _ _ _ acc' Hout). cbn [prepend outcome final output].
  rewrite !omap_app, Hhead. cbn [app].
  assert (length page = limit `min` (length L - start)) as Hlen.
  { subst page. by rewrite length_take, length_drop. }
  destruct (Nat.ltb_spec (length page) limit) as [Hshort|Hfull].
  - rewrite (drop_ge L) by lia. simpl. by rewrite f_last_page.
  - assert (length page = limit) as -> by lia.
    destruct (IH (start + limit) acc' (final (for_each page body acc st))) as (Ho & Hf & Hm);
      [done | rewrite Nat.mul_succ_l in Hfuel; lia |].
    cbv zeta in Ho, Hf, Hm. by rewrite Ho, Hf, Hm.
Qed.

End Observers.

Section Remap_facts.
Context {B : Type} `{Backend B}.
Implicit Types st : Frame B.

Lemma process_issue_done apply_changes source target issue st :
  outcome (process_issue apply_changes source target issue st) = Done tt.
Proof.
  rewrite process_issue_run. simpl.
  destruct (_ || _); [|done]. destruct apply_changes; [|done].
  rewrite update_issue_apply. by destruct (api_update_issue _ _ _) as [[e|] b].
Qed.

Lemma warnings_process_issue apply_changes source target issue st :
  warnings (output (process_issue apply_changes source target issue st)) = [].
Proof.
  rewrite process_issue_run. simpl.
  destruct (_ || _); [|done]. destruct apply_changes; [|done].
  rewrite update_issue_apply. by destruct (api_update_issue _ _ _) as [[e|] b].
Qed.

Lemma warnings_remap_scan fuel source target seed apply_changes st :
  warnings (output (remap_scan fuel source target seed apply_changes st)) = [].
Proof.
  revert st. unfold warnings, remap_scan.
  apply unseen_bind.
  - apply unseen_iterate_from; [done..|]. intros issue [] st.
    apply warnings_process_issue.
  - intros _. apply unseen_bind; [by intros st|]. intros n.
    apply unseen_bind; [by intros st|]. by intros _ st.
Qed.

End Remap_facts.

(** X5.  The comparison of the source id with the logged-in account is
    advisory: [remap_user] logs one warning exactly when [myself()] answered
    with an account id different from the source id, and no warning
    otherwise; nothing else in the run depends on the comparison. *)
Theorem remap_user_warns_when_source_is_not_caller {B : Type} `{Backend B} (b : B)
    (fuel : nat) (source target : string) (seed : option string) (apply_changes : bool) :
  let r := remap_user fuel source target seed apply_changes (enter b) in
  warnings (output r)
  = match (api_myself b).1 with
    | inr myself =>
        if bool_decide (source ≠ user_accountId myself)
        then [(source, user_accountId myself)]
        else []
    | inl _ => []
    end
  ∧ level (MsgNotSameUser source source) = WARNING.
Proof.
  intros r. split; [|done]. subst r. rewrite remap_user_run.
  destruct (api_myself b) as [[e|myself] b1]; [done|].
  assert (warnings (remap_head source target apply_changes myself)
          = if bool_decide (source ≠ user_accountId myself)
            then [(source, user_accountId myself)] else []) as Hhead.
  { unfold remap_head. simpl. by destruct (bool_decide _). }
  destruct (api_user target b1) as [[e|target_user] b2];
    cbn [outcome final output prepend].
  - by rewrite warnings_app, Hhead, app_nil_r.
  - rewrite !warnings_app, Hhead, warnings_remap_scan. simpl. by rewrite !app_nil_r.
Qed.

(** ** Which issues the remap handler touches *)

Section Remap_scan_facts.
Context {B : Type} `{Backend B}.
Implicit Types st : Frame B.

(** What one [process_issue] step shows to the observers. *)
Lemma process_issue_obs apply_changes source target issue st :
  let out := output (process_issue apply_changes source target issue st) in
  fetched out = []
  ∧ mutated_keys out
    = (if apply_changes then key <$> List.filter (any_hit source) [issue] else [])
  ∧ would_update out
    = (if apply_changes then [] else key <$> List.filter (any_hit source) [issue]).
Proof.
  rewrite process_issue_run. cbn [List.filter]. unfold any_hit.
  destruct (_ || _); [|by destruct apply_changes]. destruct apply_changes; [|done].
  rewrite update_issue_apply. by destruct (api_update_issue _ _ _) as [[e|] b].
Qed.

Lemma for_each_process apply_changes source target (page : list Issue) : ∀ st,
  let r := for_each page
             (fun issue _ => process_issue apply_changes source target issue) tt st in
  outcome r = Done tt
  ∧ fetched (output r) = []
  ∧ mutated_keys (output r)
    = (if apply_changes then key <$> List.filter (any_hit source) page else [])
  ∧ would_update (output r)
    = (if apply_changes then [] else key <$> List.filter (any_hit source) page).
Proof.
  induction page as [|issue page IH]; intros st; [by destruct apply_changes|].
  cbn [for_each]. rewrite (bind_Done _ _ _ tt) by apply process_issue_done.
  destruct (process_issue_obs apply_changes source target issue st) as (Hf & Hm & Hw).
  destruct (IH (final (process_issue apply_changes source target issue st)))
    as (Hout & Hf' & Hm' & Hw').
  cbn [prepend outcome output].
  rewrite fetched_app, mutated_keys_app, would_update_app, Hf, Hm, Hw, Hf', Hm', Hw'.
  split_and!; [done | done | |].
  - destruct apply_changes; [|done]. change (issue :: page) with ([issue] ++ page).
    by rewrite List.filter_app, fmap_app.
  - destruct apply_changes; [done|]. change (issue :: page) with ([issue] ++ page).
    by rewrite List.filter_app, fmap_app.
Qed.

Lemma iterate_process apply_changes source target query fuel : ∀ start st,
  let r := iterate_from fuel query start
             (fun issue _ => process_issue apply_changes source target issue) tt st in
  let hit := key <$> List.filter (any_hit source) (fetched (output r)) in
  mutated_keys (output r) = (if apply_changes then hit else [])
  ∧ would_update (output r) = (if apply_changes then [] else hit).
Proof.
  induction fuel as [|fuel IH]; intros start st; [by destruct apply_changes|].
  destruct (api_jql query start limit (backend st)) as [[e|page] b] eqn:Hq.
  { rewrite (iterate_from_error _ _ _ _ _ _ _ _ Hq). by destruct apply_changes. }
  rewrite (iterate_from_page _ _ _ _ _ _ _ _ Hq). unfold after_page.
  destruct (for_each_process apply_changes source target page (after_call b st))
    as (Hout & Hf & Hm & Hw).
  rewrite (bind_Done _ _ _ tt Hout). cbn [prepend output].
  change (?a :: ?b :: ?l ++ ?r) with ([a; b] ++ l ++ r).
  rewrite !fetched_app, !mutated_keys_app, !would_update_app, Hf, Hm, Hw.
  change (fetched [Log (MsgFetching start (start + limit));
                   Call (EvJql query start limit (inr page))]) with (page ++ []).
  rewrite app_nil_r. cbn [app].
  destruct (length page <? limit).
  - simpl. rewrite !app_nil_r. by destruct apply_changes.
  - destruct (IH (start + length page)
                (final (for_each page
                   (fun issue _ => process_issue apply_changes source target issue) tt
                   (after_call b st)))) as [Hm' Hw'].
    rewrite Hm', Hw'. destruct apply_changes; by rewrite ?List.filter_app, ?fmap_app.
Qed.

Lemma remap_scan_obs fuel source target seed apply_changes st :
  let r := remap_scan fuel source target seed apply_changes st in
  let hit := key <$> List.filter (any_hit source) (fetched (output r)) in
  mutated_keys (output r) = (if apply_changes then hit else [])
  ∧ would_update (output r) = (if apply_changes then [] else hit).
Proof.
  unfold remap_scan, iterate_jql_results. cbv zeta.
  destruct (iterate_process apply_changes source target (get_query seed None) fuel 0 st)
    as [Hm Hw].
  rewrite output_bind, fetched_app, mutated_keys_app, would_update_app, Hm, Hw.
  destruct (outcome (iterate_from _ _ _ _ _ _)) as [[]| |]; simpl;
    rewrite ?app_nil_r; by destruct apply_changes.
Qed.

End Remap_scan_facts.

(** X6.  In every run of [remap_user], on every backend, the issues that get
    an update request are exactly the records the searches of that run
    returned for which at least one of the three checks matches, in the order
    the searches returned them and one request per returned record: in apply
    mode these are the keys of the update calls, in a dry run they are the
    keys of the updates the run says it would make.  No key is updated that
    the run did not fetch. *)
Theorem remap_user_updates_matching_fetched_issues {B : Type} `{Backend B} (b : B)
    (fuel : nat) (source target : string) (seed : option string) (apply_changes : bool) :
  let r := remap_user fuel source target seed apply_changes (enter b) in
  let hit := key <$> List.filter (any_hit source) (fetched (output r)) in
  mutated_keys (output r) = (if apply_changes then hit else [])
  ∧ would_update (output r) = (if apply_changes then [] else hit).
Proof.
  intros r. subst r. rewrite remap_user_run.
  destruct (api_myself b) as [[e|myself] b1]; [by destruct apply_changes|].
  assert (fetched (remap_head source target apply_changes myself) = []
          ∧ mutated_keys (remap_head source target apply_changes myself) = []
          ∧ would_update (remap_head source target apply_changes myself) = [])
    as (Hf & Hm & Hw).
  { unfold remap_head. simpl. by destruct (bool_decide _). }
  destruct (api_user target b1) as [[e|target_user] b2];
    cbn [outcome final output prepend].
  - rewrite fetched_app, mutated_keys_app, would_update_app, Hf, Hm, Hw.
    by destruct apply_changes.
  - destruct (remap_scan_obs fuel source target seed apply_changes (enter b2)) as [Hm' Hw'].
    rewrite !fetched_app, !mutated_keys_app, !would_update_app, Hf, Hm, Hw, Hm', Hw'.
    by destruct apply_changes.
Qed.

(** ** Which remote calls the handlers make *)

Section Only.
Context {B : Type} `{Backend B}.
Implicit Types st : Frame B.

Variable P : Event -> Prop.

Lemma only_quiet {A} (m : M B A) : (∀ st, calls (output (m st)) = []) -> only P m.
Proof. intros Hm st. by rewrite Hm. Qed.

Lemma only_bind {A C} (m : M B A) (k : A -> M B C) :
  only P m -> (∀ a, only P (k a)) -> only P (bind m k).
Proof.
  intros Hm Hk st. rewrite output_bind, calls_app. apply Forall_app. split; [apply Hm|].
  destruct (outcome (m st)); [apply Hk | done..].
Qed.

Lemma only_call_jql query start lim :
  (∀ r, P (EvJql query start lim r)) -> only P (call_jql query start lim).
Proof.
  intros HP st. unfold call_jql. destruct (api_jql _ _ _ _) as [r b]. simpl.
  by repeat constructor.
Qed.

Lemma only_call_myself : (∀ r, P (EvMyself r)) -> only P call_myself.
Proof.
  intros HP st. unfold call_myself. destruct (api_myself _) as [r b]. simpl.
  by repeat constructor.
Qed.

Lemma only_call_user account_id :
  (∀ r, P (EvUser account_id r)) -> only P (call_user account_id).
Proof.
  intros HP st. unfold call_user. destruct (api_user _ _) as [r b]. simpl.
  by repeat constructor.
Qed.

Lemma only_for_each {A T} (l : list T) (body : T -> A -> M B A) acc :
  (∀ x a, only P (body x a)) -> only P (for_each l body acc).
Proof.
  intros Hbody. revert acc. induction l as [|x l IH]; intros acc; simpl.
  - by apply only_quiet.
  - by apply only_bind.
Qed.

Lemma only_iterate_from {A} fuel query start (body : Issue -> A -> M B A) acc :
  (∀ start' r, P (EvJql query start' limit r)) ->
  (∀ x a, only P (body x a)) ->
  only P (iterate_from fuel query start body acc).
Proof.
  intros HP Hbody. revert start acc. induction fuel as [|fuel IH]; intros start acc; simpl.
  - by apply only_quiet.
  - apply only_bind; [by apply only_quiet|]. intros _.
    apply only_bind; [by apply only_call_jql|]. intros page.
    apply only_bind; [by apply only_for_each|]. intros acc'.
    destruct (length page <? limit); [by apply only_quiet | apply IH].
Qed.

Lemma only_update_issue apply_changes issue updates :
  (∀ r, P (EvUpdateIssue (key issue) updates r)) ->
  only P (update_issue apply_changes issue updates).
Proof.
  intros HP st. destruct apply_changes; [|by rewrite update_issue_dry].
  rewrite update_issue_apply. destruct (api_update_issue _ _ _) as [[e|] b]; simpl;
    by repeat constructor.
Qed.

Lemma only_add_watcher apply_changes target issue :
  (∀ r, P (EvAddWatcher (key issue) target r)) ->
  only P (add_watcher apply_changes target issue).
Proof.
  intros HP st. destruct apply_changes; [|by rewrite add_watcher_dry].
  rewrite add_watcher_apply. destruct (api_issue_add_watcher _ _ _) as [[e|] b]; simpl;
    by repeat constructor.
Qed.

End Only.

(** X7.  Whatever the backend answers, [remap_user] makes no other remote
    calls than [myself()], the lookup of the target user, searches for the
    query built from the seed with limit 100, and updates whose field dict is
    not empty.  It never sends an empty update and never adds a watcher. *)
Theorem remap_user_makes_only_its_calls {B : Type} `{Backend B} (b : B) (fuel : nat)
    (source target : string) (seed : option string) (apply_changes : bool) :
  Forall (remap_call target seed)
    (calls (output (remap_user fuel source target seed apply_changes (enter b)))).
Proof.
  revert b. enough (only (remap_call target seed)
                      (remap_user fuel source target seed apply_changes)) as Honly
    by (intros b; apply Honly).
  unfold remap_user.
  apply only_bind; [by apply only_quiet|]. intros _.
  apply only_bind; [by apply only_call_myself|]. intros myself.
  apply only_bind; [by apply only_quiet|]. intros _.
  apply only_bind; [apply only_quiet; intros st; by destruct (bool_decide _)|]. intros _.
  apply only_bind; [by apply only_call_user|]. intros target_user.
  apply only_bind; [by apply only_quiet|]. intros _.
  apply only_bind; [by apply only_quiet|]. intros _.
  apply only_bind.
  - apply only_iterate_from; [done|]. intros issue []. unfold process_issue.
    apply only_bind; [by apply only_quiet|]. intros _.
    case_bool_decide; [|by apply only_quiet]. by apply only_update_issue.
  - intros _. apply only_bind; [by apply only_quiet|]. intros n.
    apply only_bind; [by apply only_quiet | intros _; by apply only_quiet].
Qed.

(** X8.  Whatever the backend answers, [copy_watchers] makes no other remote
    calls than the lookups of the source and the target user, searches with
    limit 100 for the issues one of the two watches, and add-watcher calls
    that add the target user.  It never updates an issue and never adds
    another user as a watcher. *)
Theorem copy_watchers_makes_only_its_calls {B : Type} `{Backend B} (b : B) (fuel : nat)
    (source target : string) (apply_changes : bool) :
  Forall (copy_call source target)
    (calls (output (copy_watchers fuel source target apply_changes (enter b)))).
Proof.
  revert b. enough (only (copy_call source target)
                      (copy_watchers fuel source target apply_changes)) as Honly
    by (intros b; apply Honly).
  unfold copy_watchers.
  apply only_bind; [apply only_call_user; intros r; by left|]. intros source_user.
  apply only_bind; [apply only_call_user; intros r; by right|]. intros target_user.
  apply only_bind; [by apply only_quiet|]. intros _.
  apply only_bind; [by apply only_quiet|]. intros _.
  apply only_bind; [by apply only_quiet|]. intros _.
  apply only_bind.
  { apply only_iterate_from; [intros start r; split; [by right | done]|].
    intros issue keys. by apply only_quiet. }
  intros keys.
  apply only_bind; [by apply only_quiet|]. intros _.
  apply only_bind; [|intros _; by apply only_quiet].
  apply only_iterate_from; [intros start r; split; [by left | done]|].
  intros issue []. unfold copy_issue.
  case_bool_decide; [by apply only_quiet|]. by apply only_add_watcher.
Qed.

(** ** Which issues the watcher copy touches *)

Lemma mutated_keys_omap out : mutated_keys out = omap key_of_mutation out.
Proof.
  induction out as [|[ev|msg] out IH]; [done| |].
  - destruct ev; simpl; first [exact IH | exact (f_equal (cons _) IH)].
  - exact IH.
Qed.

Lemma would_watch_omap out : would_watch out = omap key_of_would_watch out.
Proof. done. Qed.

Section Copy_steps.
Context {B : Type} `{Backend B}.
Implicit Types (st : Frame B) (keys : gset string).

Lemma copy_issue_adds apply_changes target email keys issue st :
  key issue ∉ keys ->
  copy_issue apply_changes target email keys issue tt st
  = add_watcher apply_changes target issue st.
Proof. intros Hin. unfold copy_issue. by rewrite bool_decide_eq_false_2. Qed.

(** The copy loop over a list of issues: it always completes, and it calls
    add-watcher (or, in a dry run, says it would) for exactly the issues
    whose key is not in the snapshot set, in order. *)
Lemma for_each_copy_obs apply_changes target email keys (l : list Issue) : ∀ st,
  let r := for_each l (copy_issue apply_changes target email keys) tt st in
  outcome r = Done tt
  ∧ mutated_keys (output r) = (if apply_changes then missing_keys keys l else [])
  ∧ would_watch (output r) = (if apply_changes then [] else missing_keys keys l)
  ∧ (apply_changes = false -> final r = st).
Proof.
  unfold missing_keys.
  induction l as [|issue l IH]; intros st; [by destruct apply_changes|].
  cbn [for_each]. rewrite fmap_cons. cbn [List.filter].
  destruct (decide (key issue ∈ keys)) as [Hin|Hin].
  - rewrite (bind_Done _ _ _ tt) by (by rewrite copy_issue_skip).
    rewrite copy_issue_skip by done. cbn [prepend outcome final output].
    rewrite bool_decide_eq_false_2 by (by intros ?).
    destruct (IH st) as (Hout & Hm & Hw & Hfinal).
    by rewrite mutated_keys_app, would_watch_app, Hm, Hw.
  - rewrite bool_decide_eq_true_2 by done.
    rewrite (bind_Done (copy_issue apply_changes target email keys issue tt) _ st tt)
      by (rewrite copy_issue_adds by done; destruct apply_changes;
          [rewrite add_watcher_apply; by destruct (api_issue_add_watcher _ _ _) as [[e|] b]
          | by rewrite add_watcher_dry]).
    rewrite copy_issue_adds by done. cbn [prepend outcome final output].
    rewrite mutated_keys_app, would_watch_app.
    destruct apply_changes.
    + rewrite add_watcher_apply.
      destruct (api_issue_add_watcher _ _ _) as [[e|] b]; cbn [final output];
        match goal with |- context [for_each l _ tt ?st'] =>
          destruct (IH st') as (Hout & Hm & Hw & _) end;
        by rewrite Hm, Hw.
    + rewrite add_watcher_dry. cbn [final output].
      destruct (IH st) as (Hout & Hm & Hw & Hfinal). rewrite Hm, Hw.
      split_and!; [done..|]. intros _. by apply Hfinal.
Qed.

End Copy_steps.

Section Copy_observed.
Implicit Types (m : Mock) (st : Frame Mock).

Lemma copy_issue_keeps_source_any apply_changes source target email (m0 : Mock) issue u st :
  issue ∈ mock_search (watching_query source) m0 ->
  mock_search (watching_query source) (backend st)
    = mock_search (watching_query source) m0 ->
  mock_search (watching_query source)
    (backend (final (copy_issue apply_changes target email (watch_set target m0) issue u st)))
    = mock_search (watching_query source) m0.
Proof.
  intros Hissue Hinv. destruct apply_changes; [by apply copy_issue_keeps_source|].
  destruct u. unfold copy_issue. case_bool_decide; [done|]. by rewrite add_watcher_dry.
Qed.

Variable X : Type.
Variable f : Output -> option X.
Hypothesis f_jql : ∀ query start lim r, f (Call (EvJql query start lim r)) = None.
Hypothesis f_fetching : ∀ start stop, f (Log (MsgFetching start stop)) = None.
Hypothesis f_last_page : f (Log MsgLastPage) = None.
Hypothesis f_watched : ∀ email, f (Log (MsgFetchingWatched email)) = None.
Hypothesis f_watching : ∀ n, f (Log (MsgAlreadyWatching n)) = None.

(** The two scans of [copy_watchers] on the mock, with enough fuel, do what
    the plain copy loop over the issues the source watches does, as far as
    the observer sees. *)
Lemma copy_scans_mock m source target email apply_changes fuel :
  length (mock_issues m) < fuel * limit ->
  let r := copy_scans fuel source target email apply_changes (enter m) in
  let r' := for_each (mock_search (watching_query source) m)
              (copy_issue apply_changes target email (watch_set target m)) tt (enter m) in
  outcome r = Done PyNone ∧ final r = final r'
  ∧ omap f (output r) = omap f (output r').
Proof.
  intros Hfuel. cbv zeta. unfold copy_scans.
  rewrite (bind_Done (log _) _ _ tt) by done. rewrite final_log. cbn [log output].
  destruct (snapshot_mock m target fuel 0 Hfuel) as (Hout1 & Hfinal1 & _).
  fold (enter m) in Hout1, Hfinal1.
  pose proof (unseen_iterate_from f f_jql f_fetching f_last_page fuel
                (watching_query target) 0 snapshot_key ∅
                (fun issue keys => unseen_ret f _) (enter m)) as Hseen1.
  fold (iterate_jql_results fuel (watching_query target) snapshot_key ∅) in Hseen1.
  rewrite (bind_Done _ _ _ (watch_set target m) Hout1), Hfinal1.
  rewrite (bind_Done (log _) _ _ tt) by done. rewrite final_log. cbn [log output].
  destruct (iterate_paged_seen f f_jql f_fetching f_last_page
              (fun b => mock_search (watching_query source) b
                        = mock_search (watching_query source) m)
              (watching_query source) (mock_search (watching_query source) m)
              (copy_issue apply_changes target email (watch_set target m)))
    with (fuel := fuel) (start := 0) (acc := tt) (st := enter m)
    as (Hout2 & Hfinal2 & Hseen2).
  { intros b start Hb. simpl. by rewrite Hb. }
  { intros issue acc st Hissue Hst. by apply copy_issue_keeps_source_any. }
  { done. }
  { pose proof (mock_search_length (watching_query source) m). lia. }
  rewrite drop_0 in Hout2, Hfinal2, Hseen2.
  destruct (for_each_copy_obs apply_changes target email (watch_set target m)
              (mock_search (watching_query source) m) (enter m)) as (Hdone & _).
  rewrite Hdone in Hout2. fold (iterate_jql_results fuel (watching_query source)
    (copy_issue apply_changes target email (watch_set target m)) tt) in Hout2, Hfinal2, Hseen2.
  rewrite (bind_Done _ _ _ tt Hout2). cbn [prepend outcome final output ret].
  split_and!; [done | done |].
  rewrite !omap_app, Hseen1, Hseen2. simpl. rewrite f_watched, f_watching.
  by rewrite app_nil_r.
Qed.

End Copy_observed.

Lemma copy_watchers_mock_seen {X : Type} (f : Output -> option X)
    (m : Mock) (source target : string) (apply_changes : bool) (fuel : nat)
    (source_user target_user : UserInfo) :
  (∀ ev, is_mutation ev = false -> f (Call ev) = None) ->
  (∀ msg, level msg = INFO -> f (Log msg) = None ∨ ∃ t k, msg = MsgDryRunWatcher t k) ->
  length (mock_issues m) < fuel * limit ->
  mock_find_user source m = inr source_user ->
  mock_find_user target m = inr target_user ->
  let r := copy_watchers fuel source target apply_changes (enter m) in
  let r' := for_each (mock_search (watching_query source) m)
              (copy_issue apply_changes target (emailAddress target_user)
                 (watch_set target m)) tt (enter m) in
  outcome r = Done PyNone ∧ final r = final r'
  ∧ omap f (output r) = omap f (output r').
Proof.
  intros Hcalls Hlogs Hfuel Hs Ht. cbv zeta. rewrite copy_watchers_run.
  change (api_user source m) with (mock_find_user source m, m). rewrite Hs.
  change (api_user target m) with (mock_find_user target m, m). rewrite Ht.
  assert (∀ msg, level msg = INFO -> (∀ t k, msg ≠ MsgDryRunWatcher t k) ->
                 f (Log msg) = None) as Hlog.
  { intros msg Hlevel Hne. destruct (Hlogs msg Hlevel) as [|(t & k & ->)]; [done|].
    by destruct (Hne t k). }
  destruct (copy_scans_mock X f) with (m := m) (source := source) (target := target)
    (email := emailAddress target_user) (apply_changes := apply_changes) (fuel := fuel)
    as (Hout & Hfinal & Hseen); try done.
  - intros. by apply Hcalls.
  - intros. by apply Hlog.
  - by apply Hlog.
  - intros. by apply Hlog.
  - intros. by apply Hlog.
  - cbn [prepend outcome final output]. split_and!; [done..|].
    rewrite omap_app, Hseen. simpl. rewrite !Hcalls by done. by rewrite Hlog.
Qed.

(** X9.  On the mock tracker, with both users known and fuel for all pages,
    [copy_watchers] in apply mode completes and calls add-watcher exactly for
    the issues the source watches whose key the target does not watch yet, in
    the order of the search and once per record; issues the target already
    watches are never added again. *)
Theorem copy_watchers_adds_exactly_the_missing (m : Mock) (source target : string)
    (fuel : nat) (source_user target_user : UserInfo) :
  length (mock_issues m) < fuel * limit ->
  mock_find_user source m = inr source_user ->
  mock_find_user target m = inr target_user ->
  let r := copy_watchers fuel source target true (enter m) in
  outcome r = Done PyNone
  ∧ mutated_keys (output r)
    = missing_keys (watch_set target m) (mock_search (watching_query source) m).
Proof.
  intros Hfuel Hs Ht r.
  destruct (copy_watchers_mock_seen key_of_mutation m source target true fuel
              source_user target_user) as (Hout & _ & Hseen); try done.
  { by intros []. }
  { intros msg _. left. by destruct msg. }
  split; [done|]. subst r. rewrite !mutated_keys_omap, Hseen, <- mutated_keys_omap.
  by destruct (for_each_copy_obs true target (emailAddress target_user)
                 (watch_set target m) (mock_search (watching_query source) m) (enter m))
    as (_ & -> & _).
Qed.

Lemma copy_watchers_adds_exactly_the_missing_witness :
  let m := tracker watched_abc [] in
  let r := copy_watchers 1 "alice" "bob" true (enter m) in
  length (mock_issues m) < 1 * limit
  ∧ outcome r = Done PyNone
  ∧ mutated_keys (output r)
    = missing_keys (watch_set "bob" m) (mock_search (watching_query "alice") m).
Proof.
  intros m r.
  assert (length (mock_issues m) < 1 * limit) as Hfuel by (vm_compute; lia).
  exact (conj Hfuel
           (copy_watchers_adds_exactly_the_missing m "alice" "bob" 1
              (user "alice") (user "bob") Hfuel eq_refl eq_refl)).
Defined.

(** X10.  On the mock tracker, with both users known and fuel for all pages,
    a dry run of [copy_watchers] is an exact preview of the apply run from
    the same state: it completes, says it would add the watcher to exactly
    the issues on which the apply run calls add-watcher, in the same order,
    and leaves the tracker as it was. *)
Theorem copy_watchers_dry_run_previews_apply (m : Mock) (source target : string)
    (fuel : nat) (source_user target_user : UserInfo) :
  length (mock_issues m) < fuel * limit ->
  mock_find_user source m = inr source_user ->
  mock_find_user target m = inr target_user ->
  let d := copy_watchers fuel source target false (enter m) in
  let a := copy_watchers fuel source target true (enter m) in
  outcome d = Done PyNone
  ∧ would_watch (output d) = mutated_keys (output a)
  ∧ backend (final d) = m.
Proof.
  intros Hfuel Hs Ht d a.
  destruct (copy_watchers_mock_seen key_of_mutation m source target true fuel
              source_user target_user) as (_ & _ & Hseen); try done.
  { by intros []. }
  { intros msg _. left. by destruct msg. }
  destruct (copy_watchers_mock_seen key_of_would_watch m source target false fuel
              source_user target_user) as (Hout & Hfinal & Hseen'); try done.
  { intros msg _. destruct msg; eauto. }
  destruct (for_each_copy_obs true target (emailAddress target_user)
              (watch_set target m) (mock_search (watching_query source) m) (enter m))
    as (_ & Hm & _).
  destruct (for_each_copy_obs false target (emailAddress target_user)
              (watch_set target m) (mock_search (watching_query source) m) (enter m))
    as (_ & _ & Hw & Hsame).
  split_and!; [done | |].
  - subst d a. rewrite would_watch_omap, Hseen', <- would_watch_omap, Hw.
    by rewrite mutated_keys_omap, Hseen, <- mutated_keys_omap, Hm.
  - subst d. by rewrite Hfinal, (Hsame eq_refl).
Qed.

Lemma copy_watchers_dry_run_previews_apply_witness :
  let m := tracker watched_abc [] in
  let d := copy_watchers 1 "alice" "bob" false (enter m) in
  let a := copy_watchers 1 "alice" "bob" true (enter m) in
  length (mock_issues m) < 1 * limit
  ∧ outcome d = Done PyNone
  ∧ would_watch (output d) = mutated_keys (output a)
  ∧ backend (final d) = m.
Proof.
  intros m d a.
  assert (length (mock_issues m) < 1 * limit) as Hfuel by (vm_compute; lia).
  exact (conj Hfuel
           (copy_watchers_dry_run_previews_apply m "alice" "bob" 1
              (user "alice") (user "bob") Hfuel eq_refl eq_refl)).
Defined.

(** ** What the watcher copy leaves behind *)

Lemma watch_set_map_iff (t k k' : string) (m : Mock) :
  k ∈ mock_keys m ->
  k' ∈ watch_set t (mock_map (watch t) k m) ↔ k' ∈ watch_set t m ∨ k' = k.
Proof.
  intros Hk. split.
  - rewrite !elem_of_watch_set. intros (mi' & Hin & <- & Ht).
    unfold mock_map in Hin. simpl in Hin. apply list_elem_of_fmap in Hin as (mi & -> & Hin).
    case_bool_decide as Hkey; [by right|]. left. by exists mi.
  - intros [Hw| ->]; [by apply watch_set_mono | by apply watch_set_added].
Qed.

Lemma mock_map_watch_issues (t k : string) (m : Mock) :
  mock_issue <$> mock_issues (mock_map (watch t) k m) = mock_issue <$> mock_issues m.
Proof.
  unfold mock_map. simpl. rewrite <- list_fmap_compose. apply list_fmap_ext.
  intros i mi _. simpl. by case_bool_decide.
Qed.

Lemma mock_keys_issues (m : Mock) : mock_keys m = key <$> (mock_issue <$> mock_issues m).
Proof. unfold mock_keys. by rewrite <- list_fmap_compose. Qed.

Lemma mock_mutate_ok f (k : string) (m : Mock) :
  rejected m = [] -> k ∈ mock_keys m -> mock_mutate f k m = (None, mock_map f k m).
Proof.
  intros Hrej Hk. unfold mock_mutate. rewrite Hrej.
  rewrite bool_decide_eq_false_2 by apply not_elem_of_nil.
  by rewrite bool_decide_eq_true_2.
Qed.

(** The copy loop on a tracker that rejects nothing. *)
Lemma copy_fold_exact target email (keys : gset string) (l : list Issue) : ∀ (m : Mock) n,
  rejected m = [] ->
  (∀ issue, issue ∈ l -> key issue ∈ mock_keys m) ->
  let r := for_each l (copy_issue true target email keys) tt
             {| backend := m; issues_updated := n |} in
  (∀ k, k ∈ watch_set target (backend (final r))
        ↔ k ∈ watch_set target m ∨ (k ∈ key <$> l ∧ k ∉ keys))
  ∧ (∀ u, u ≠ target ->
       mock_search (watching_query u) (backend (final r)) = mock_search (watching_query u) m)
  ∧ mock_issue <$> mock_issues (backend (final r)) = mock_issue <$> mock_issues m
  ∧ issues_updated (final r) = n + length (missing_keys keys l).
Proof.
  unfold missing_keys.
  induction l as [|issue l IH]; intros m n Hrej Hkeys.
  { simpl. split_and!; [|done|done|lia]. intros k. rewrite elem_of_nil. naive_solver. }
  cbn [for_each]. rewrite fmap_cons. cbn [List.filter].
  assert (∀ i, i ∈ l -> key i ∈ mock_keys m) as Hkeys'
    by (intros i Hi; apply Hkeys; by right).
  destruct (decide (key issue ∈ keys)) as [Hin|Hin].
  - rewrite (bind_Done _ _ _ tt) by (by rewrite copy_issue_skip).
    rewrite copy_issue_skip by done. cbn [prepend outcome final output].
    rewrite bool_decide_eq_false_2 by (by intros ?).
    destruct (IH m n Hrej Hkeys') as (Hiff & Hother & Hissues & Hcount).
    split_and!; [|done..]. intros k. rewrite Hiff, elem_of_cons. naive_solver.
  - rewrite bool_decide_eq_true_2 by done.
    assert (copy_issue true target email keys issue tt {| backend := m; issues_updated := n |}
            = {| outcome := Done tt;
                 final := {| backend := mock_map (watch target) (key issue) m;
                             issues_updated := n + 1 |};
                 output := [Log (MsgProcessingWatched (key issue));
                            Log (MsgAddingWatcher target (key issue));
                            Call (EvAddWatcher (key issue) target None)] |}) as Hstep.
    { rewrite copy_issue_add, add_watcher_apply by done.
      change (api_issue_add_watcher (key issue) target
                (backend {| backend := m; issues_updated := n |}))
        with (mock_mutate (watch target) (key issue) m).
      rewrite mock_mutate_ok; [done | done |]. apply Hkeys. by left. }
    rewrite (bind_Done _ _ _ tt) by (by rewrite Hstep).
    rewrite Hstep. cbn [prepend outcome final output].
    destruct (IH (mock_map (watch target) (key issue) m) (n + 1))
      as (Hiff & Hother & Hissues & Hcount); [done | |].
    { intros i Hi. rewrite mock_keys_issues, mock_map_watch_issues, <- mock_keys_issues.
      by apply Hkeys'. }
    split_and!.
    + intros k. rewrite Hiff, watch_set_map_iff, elem_of_cons by (apply Hkeys; by left).
      naive_solver.
    + intros u Hu. by rewrite Hother, mock_search_other.
    + by rewrite Hissues, mock_map_watch_issues.
    + rewrite Hcount. simpl. lia.
Qed.

(** X11.  On a mock tracker that rejects nothing, with both users known and
    fuel for all pages, [copy_watchers] in apply mode completes and leaves
    the target watching exactly what it watched before together with
    everything the source watches.  The watch sets of all other users, the
    source among them, and the issues themselves are unchanged, and the
    counter ends at the number of watchers added. *)
Theorem copy_watchers_makes_target_watch_the_union (m : Mock) (source target : string)
    (fuel : nat) (source_user target_user : UserInfo) :
  length (mock_issues m) < fuel * limit ->
  mock_find_user source m = inr source_user ->
  mock_find_user target m = inr target_user ->
  rejected m = [] ->
  let r := copy_watchers fuel source target true (enter m) in
  outcome r = Done PyNone
  ∧ watch_set target (backend (final r)) = watch_set target m ∪ watch_set source m
  ∧ (∀ u, u ≠ target -> watch_set u (backend (final r)) = watch_set u m)
  ∧ mock_issue <$> mock_issues (backend (final r)) = mock_issue <$> mock_issues m
  ∧ issues_updated (final r)
    = length (missing_keys (watch_set target m) (mock_search (watching_query source) m)).
Proof.
  intros Hfuel Hs Ht Hrej r.
  destruct (copy_watchers_mock_seen key_of_mutation m source target true fuel
              source_user target_user) as (Hout & Hfinal & _); try done.
  { by intros []. }
  { intros msg _. left. by destruct msg. }
  fold r in Hout, Hfinal. rewrite Hfinal.
  destruct (copy_fold_exact target (emailAddress target_user) (watch_set target m)
              (mock_search (watching_query source) m) m 0 Hrej)
    as (Hiff & Hother & Hissues & Hcount).
  { intros issue. apply mock_search_keys. }
  fold (enter m) in Hiff, Hother, Hissues, Hcount.
  split_and!; [done | | | done | done].
  - apply set_eq. intros k. rewrite Hiff, elem_of_union.
    unfold watch_set at 4. rewrite elem_of_list_to_set.
    destruct (decide (k ∈ watch_set target m)); naive_solver.
  - intros u Hu. unfold watch_set. by rewrite Hother.
Qed.

Lemma copy_watchers_makes_target_watch_the_union_witness :
  let m := tracker watched_abc [] in
  let r := copy_watchers 1 "alice" "bob" true (enter m) in
  length (mock_issues m) < 1 * limit
  ∧ rejected m = []
  ∧ watch_set "bob" (backend (final r)) = watch_set "bob" m ∪ watch_set "alice" m
  ∧ issues_updated (final r) = 2.
Proof.
  intros m r.
  assert (length (mock_issues m) < 1 * limit) as Hfuel by (vm_compute; lia).
  destruct (copy_watchers_makes_target_watch_the_union m "alice" "bob" 1
              (user "alice") (user "bob") Hfuel eq_refl eq_refl eq_refl)
    as (_ & Hunion & _ & _ & Hcount).
  exact (conj Hfuel (conj eq_refl (conj Hunion Hcount))).
Defined.

(** ** The query-dump handler *)

Section Dump_facts.
Context {B : Type} `{Backend B}.
Variable json_dumps : Data -> string.
Implicit Types (st : Frame (World B)) (w : World B).

Lemma on_tracker_stdout {R} (call : B -> R * B) w : stdout (on_tracker call w).2 = stdout w.
Proof. unfold on_tracker. by destruct (call (remote w)). Qed.

Lemma reads_print line : reads (print line : M (World B) unit).
Proof. by intros st. Qed.

Lemma for_each_dump jira_url (page : list Issue) : ∀ st,
  for_each page (fun issue _ => print (json_dumps (data_of jira_url issue))) tt st
  = {| outcome := Done tt;
       final := {| backend :=
                     {| remote := remote (backend st);
                        stdout := stdout (backend st)
                                  ++ ((fun issue => json_dumps (data_of jira_url issue))
                                        <$> page) |};
                   issues_updated := issues_updated st |};
       output := [] |}.
Proof.
  induction page as [|issue page IH]; intros st.
  - simpl. unfold ret. rewrite app_nil_r. by destruct st as [[]].
  - cbn [for_each]. rewrite (bind_Done _ _ _ tt) by done. rewrite IH.
    unfold prepend, print. simpl. by rewrite <- app_assoc.
Qed.

Lemma iterate_dump jira_url query fuel : ∀ start st,
  let r := iterate_from fuel query start
             (fun issue _ => print (json_dumps (data_of jira_url issue))) tt st in
  stdout (backend (final r))
  = stdout (backend st)
    ++ ((fun issue => json_dumps (data_of jira_url issue)) <$> fetched (output r)).
Proof.
  induction fuel as [|fuel IH]; intros start st; [simpl; by rewrite app_nil_r|].
  pose proof (on_tracker_stdout (api_jql query start limit) (backend st)) as Hstd.
  change (on_tracker (api_jql query start limit) (backend st))
    with (api_jql query start limit (backend st)) in Hstd.
  destruct (api_jql query start limit (backend st)) as [[e|page] w] eqn:Hq; simpl in Hstd.
  { rewrite (iterate_from_error _ _ _ _ _ _ _ _ Hq). simpl. by rewrite app_nil_r. }
  rewrite (iterate_from_page _ _ _ _ _ _ _ _ Hq). unfold after_page.
  rewrite (bind_Done _ _ _ tt) by (by rewrite for_each_dump).
  rewrite for_each_dump. cbn [prepend outcome final output app].
  change (fetched (Log (MsgFetching start (start + limit))
                   :: Call (EvJql query start limit (inr page)) :: ?out))
    with (page ++ fetched out).
  rewrite fmap_app, app_assoc.
  destruct (length page <? limit).
  - simpl. by rewrite Hstd, app_nil_r.
  - rewrite IH. simpl. by rewrite Hstd.
Qed.

End Dump_facts.

(** X12.  The dump handler prints one line per record its searches return,
    in the order they are returned: the JSON of the record's key, its link
    ([url] without trailing slashes, then [/browse/] and the key), creation
    time and summary.  Lines printed before a search raises stay printed.
    The handler searches for the query with the sort clause appended, with
    limit 100, makes no other remote call, and so never mutates anything; it
    raises only when a search raised. *)
Theorem jql_prints_one_line_per_fetched_record {B : Type} `{Backend B}
    (json_dumps : Data -> string) (w : World B) (fuel : nat) (url query : string) :
  let r := jql json_dumps fuel url query (enter w) in
  stdout (backend (final r))
  = stdout w
    ++ ((fun issue =>
           json_dumps {| data_key := key issue;
                         data_url := rstrip_slash url +:+ "/browse/" +:+ key issue;
                         data_created := created (fields issue);
                         data_summary := summary (fields issue) |})
          <$> fetched (output r))
  ∧ Forall (dump_call query) (calls (output r))
  ∧ mutations (output r) = []
  ∧ match outcome r with
    | Done v => v = PyNone
    | Raised e => raised_by (output r) = Some e
    | OutOfFuel => True
    end.
Proof.
  intros r. subst r. unfold jql.
  set (body := fun (issue : Issue) (_ : unit) =>
                 print (json_dumps (data_of (rstrip_slash url) issue))).
  set (scan := iterate_jql_results fuel (get_query (Some query) None) body tt).
  assert (sound false scan) as Hsound.
  { apply sound_iterate_from. intros issue []. apply reads_sound, reads_print. }
  destruct (Hsound (enter w)) as (_ & Hmut & _ & Hexn).
  split_and!.
  - rewrite output_bind.
    pose proof (iterate_dump json_dumps (rstrip_slash url) (get_query (Some query) None)
                  fuel 0 (enter w)) as Hlines.
    cbv zeta in Hlines. fold body in Hlines.
    fold (iterate_jql_results fuel (get_query (Some query) None) body tt) in Hlines.
    fold scan in Hlines. unfold bind.
    destruct (outcome (scan (enter w))); simpl; rewrite ?app_nil_r; exact Hlines.
  - enough (only (dump_call query) (bind scan (fun _ => ret PyNone))) as Honly
      by apply Honly.
    apply only_bind; [|intros _; by apply only_quiet].
    apply only_iterate_from; [done|]. intros issue []. by apply only_quiet.
  - rewrite mutations_bind, (Hmut eq_refl).
    by destruct (outcome (scan (enter w))).
  - rewrite output_bind. unfold bind.
    destruct (outcome (scan (enter w))) as [[]|e|] eqn:Hout; simpl; [done| |done].
    rewrite app_nil_r. by apply Hexn.
Qed.

(** ** The links of the dump and the watcher queries *)

Lemma rstrip_slash_decompose (s : string) : ∃ n, s = rstrip_slash s +:+ slashes n.
Proof.
  induction s as [|c s [n IH]]; [by exists 0|]. simpl.
  destruct (rstrip_slash s) as [|a t] eqn:Hs.
  - destruct (Ascii.eqb_spec c "/") as [->|Hc].
    + exists (S n). exact (f_equal (String "/") IH).
    + exists n. exact (f_equal (String c) IH).
  - exists n. exact (f_equal (String c) IH).
Qed.

Lemma rstrip_slash_no_trailing (s : string) : ends_with_slash (rstrip_slash s) = false.
Proof.
  induction s as [|c s IH]; [done|]. simpl.
  destruct (rstrip_slash s) as [|a t] eqn:Hs; [|done].
  destruct (Ascii.eqb_spec c "/") as [->|Hc]; [done|]. simpl.
  by apply Ascii.eqb_neq.
Qed.

Lemma rstrip_slash_fixed (s : string) : ends_with_slash s = false -> rstrip_slash s = s.
Proof.
  induction s as [|c s IH]; [done|]. intros Hend. destruct s as [|a t].
  - simpl in *. by rewrite Hend.
  - change (ends_with_slash (String a t) = false) in Hend.
    change (rstrip_slash (String c (String a t)))
      with (match rstrip_slash (String a t) with
            | EmptyString => if Ascii.eqb c "/" then EmptyString else String c EmptyString
            | u => String c u
            end).
    by rewrite (IH Hend).
Qed.

(** X13.  The base of the issue links printed by the dump handler is the
    configured URL without its trailing slashes and nothing else removed: it
    never ends with a slash, stripping it again changes nothing, and every
    link is that base followed by [/browse/] and the key of the issue. *)
Theorem issue_links_strip_trailing_slashes (url : string) (issue : Issue) :
  let base := rstrip_slash url in
  (∃ n, url = base +:+ slashes n)
  ∧ ends_with_slash base = false
  ∧ rstrip_slash base = base
  ∧ data_url (data_of base issue) = base +:+ "/browse/" +:+ key issue.
Proof.
  intros base. split_and!.
  - apply rstrip_slash_decompose.
  - apply rstrip_slash_no_trailing.
  - apply rstrip_slash_fixed, rstrip_slash_no_trailing.
  - done.
Qed.

(** X14.  The watcher query determines the user id, which is put between the
    quotes as it is: two ids give the same query exactly when they are the
    same id, so the two scans of [copy_watchers] ask the same query only when
    the source and the target are the same user. *)
Theorem watching_query_determines_the_user (u v : string) :
  watching_query u = watching_query v ↔ u = v.
Proof.
  split; [|by intros ->]. unfold watching_query. intros Heq. simpl in Heq.
  injection Heq as Heq. by apply append_dquote_inj.
Qed.

(** ** The ownership remap on the mock tracker *)

Section Remap_on_mock.
Implicit Types (m : Mock) (mi : MockIssue) (st : Frame Mock) (L : list MockIssue).

Lemma remapped_key source target mi :
  key (mock_issue (remapped source target mi)) = key (mock_issue mi).
Proof. done. Qed.

Lemma staged_updates_empty source target issue :
  any_hit source issue = false -> staged_updates source target issue = ∅.
Proof.
  unfold any_hit. rewrite <- (staged_updates_nonempty source target issue).
  intros Hno%bool_decide_eq_false.
  by destruct (decide (staged_updates source target issue = ∅)).
Qed.

Lemma remapped_no_hit source target mi :
  owned source mi = false -> remapped source target mi = mi.
Proof.
  intros Hno. unfold remapped, set_fields. simpl. rewrite (staged_updates_empty _ _ _ Hno).
  by destruct mi as [[k []] ws].
Qed.

(** The fields of a remapped issue, field by field. *)
Lemma remapped_fields source target mi :
  let f := fields (mock_issue mi) in
  let f' := fields (mock_issue (remapped source target mi)) in
  creator f' = remap_ref source target (creator f)
  ∧ assignee f' = remap_ref source target <$> assignee f
  ∧ reporter f' = remap_ref source target <$> reporter f
  ∧ created f' = created f ∧ summary f' = summary f
  ∧ watchers (remapped source target mi) = watchers mi.
Proof.
  unfold remapped, set_fields, remap_ref. simpl.
  rewrite !staged_updates_lookup. simpl.
  unfold staged_field, creator_hit, assignee_hit, reporter_hit, matches.
  split_and!; [|  | |done..].
  - by destruct (bool_decide _).
  - destruct (assignee _) as [u|]; [|done]. simpl. by destruct (bool_decide _).
  - destruct (reporter _) as [u|]; [|done]. simpl. by destruct (bool_decide _).
Qed.

Lemma remapped_leaves_no_hit source target mi :
  source ≠ target -> owned source (remapped source target mi) = false.
Proof.
  intros Hne. destruct (remapped_fields source target mi) as (Hc & Ha & Hr & _).
  unfold owned, any_hit, creator_hit, assignee_hit, reporter_hit, matches.
  rewrite Hc, Ha, Hr. unfold remap_ref.
  assert (∀ u, bool_decide
                 (accountId (if bool_decide (accountId u = source)
                             then {| accountId := target |} else u) = source) = false) as Hu.
  { intros u. destruct (bool_decide (accountId u = source)) eqn:Hin;
      apply bool_decide_eq_false; simpl; [congruence|].
    by apply bool_decide_eq_false in Hin. }
  rewrite Hu.
  destruct (assignee (fields (mock_issue mi))), (reporter (fields (mock_issue mi)));
    simpl; by rewrite ?Hu.
Qed.

Lemma filter_has_key_none k L :
  k ∉ keys_of L -> List.filter (has_key k) L = [].
Proof.
  induction L as [|x L IH]; [done|]. rewrite fmap_cons, not_elem_of_cons. intros [Hx HL].
  simpl. unfold has_key at 1. rewrite bool_decide_eq_false_2 by done. by apply IH.
Qed.

Lemma filter_not_has_key k L :
  k ∉ keys_of L -> List.filter (fun mi => negb (has_key k mi)) L = L.
Proof.
  induction L as [|x L IH]; [done|]. rewrite fmap_cons, not_elem_of_cons. intros [Hx HL].
  simpl. unfold has_key at 1. rewrite bool_decide_eq_false_2 by done. simpl.
  by rewrite IH.
Qed.

Lemma filter_has_key_one L mi :
  NoDup (keys_of L) -> mi ∈ L -> List.filter (has_key (key (mock_issue mi))) L = [mi].
Proof.
  induction L as [|x L IH]; intros Hdup Hin; [by apply elem_of_nil in Hin|].
  rewrite fmap_cons in Hdup. apply NoDup_cons in Hdup as [Hx Hdup].
  apply elem_of_cons in Hin as [->|Hin]; simpl; unfold has_key at 1.
  - rewrite bool_decide_eq_true_2 by done. by rewrite filter_has_key_none.
  - rewrite bool_decide_eq_false_2; [by apply IH|].
    intros Heq. apply Hx. rewrite Heq. apply list_elem_of_fmap. by exists mi.
Qed.

Lemma elem_of_keys_filter (P : MockIssue -> bool) L k :
  k ∈ keys_of (List.filter P L) -> k ∈ keys_of L.
Proof.
  rewrite !list_elem_of_fmap. intros (mi & -> & Hin). exists mi. split; [done|].
  apply list_elem_of_In, List.filter_In in Hin as [Hin _]. by apply list_elem_of_In.
Qed.

Lemma NoDup_keys_filter (P : MockIssue -> bool) L :
  NoDup (keys_of L) -> NoDup (keys_of (List.filter P L)).
Proof.
  induction L as [|x L IH]; [done|]. rewrite fmap_cons. intros [Hx Hdup]%NoDup_cons.
  simpl. destruct (P x); [|by apply IH]. rewrite fmap_cons.
  apply NoDup_cons. split; [|by apply IH]. intros Hin. apply Hx. eapply elem_of_keys_filter, Hin.
Qed.

Lemma without_nil L : without [] L = L.
Proof.
  unfold without. induction L as [|x L IH]; [done|]. cbn [List.filter].
  rewrite bool_decide_eq_true_2 by apply not_elem_of_nil. by rewrite IH.
Qed.

Lemma without_app ks L1 L2 : without ks (L1 ++ L2) = without ks L1 ++ without ks L2.
Proof. apply List.filter_app. Qed.

Lemma without_cons k ks L :
  without (k :: ks) L = without ks (List.filter (fun mi => negb (has_key k mi)) L).
Proof.
  unfold without. induction L as [|x L IH]; [done|]. cbn [List.filter]. unfold has_key at 1.
  destruct (decide (key (mock_issue x) = k)) as [Heq|Hne].
  - rewrite (bool_decide_eq_true_2 (_ = k)) by done. cbn [negb].
    rewrite bool_decide_eq_false_2; [done|]. intros Hnot. apply Hnot. rewrite Heq. by left.
  - rewrite (bool_decide_eq_false_2 (_ = k)) by done. cbn [negb List.filter]. rewrite IH.
    destruct (decide (key (mock_issue x) ∈ ks)) as [Hin|Hin].
    + rewrite !bool_decide_eq_false_2; [done | by intros ? | ].
      intros Hnot. apply Hnot. by right.
    + rewrite !bool_decide_eq_true_2; [done | done | ].
      rewrite not_elem_of_cons. by split.
Qed.

Lemma without_keeps ks L :
  (∀ mi, mi ∈ L -> key (mock_issue mi) ∉ ks) -> without ks L = L.
Proof.
  unfold without. induction L as [|x L IH]; intros Hks; [done|]. cbn [List.filter].
  rewrite bool_decide_eq_true_2 by (apply Hks; by left).
  rewrite IH; [done|]. intros mi Hmi. apply Hks. by right.
Qed.

(** On a list with unique keys, leaving out the keys of the issues that
    satisfy [P] leaves the issues that do not. *)
Lemma without_filter (P : MockIssue -> bool) L :
  NoDup (keys_of L) ->
  without (keys_of (List.filter P L)) L = List.filter (fun mi => negb (P mi)) L.
Proof.
  induction L as [|x L IH]; [done|]. rewrite fmap_cons. intros [Hx Hdup]%NoDup_cons.
  cbn [List.filter]. destruct (P x) eqn:HP; cbn [negb].
  - rewrite fmap_cons, without_cons. cbn [List.filter]. unfold has_key at 1.
    rewrite bool_decide_eq_true_2 by done. cbn [negb].
    rewrite filter_not_has_key by done. by apply IH.
  - unfold without at 1. cbn [List.filter]. fold (without (keys_of (List.filter P L)) L).
    rewrite bool_decide_eq_true_2; [by rewrite IH|].
    intros Hin. apply Hx. eapply elem_of_keys_filter, Hin.
Qed.

Lemma mock_update_ok updates k m :
  rejected m = [] -> k ∈ mock_keys m ->
  mock_update updates k m = (None, mock_touch (set_fields updates) k m).
Proof.
  intros Hrej Hk. unfold mock_update. rewrite Hrej.
  rewrite bool_decide_eq_false_2 by apply not_elem_of_nil.
  by rewrite bool_decide_eq_true_2.
Qed.

Lemma mock_touch_one f L mi m :
  NoDup (keys_of L) -> mi ∈ L ->
  mock_touch f (key (mock_issue mi)) (with_issues L m)
  = with_issues (List.filter (fun x => negb (has_key (key (mock_issue mi)) x)) L ++ [f mi]) m.
Proof.
  intros Hdup Hin. unfold mock_touch, with_issues. simpl.
  by rewrite filter_has_key_one.
Qed.

Lemma for_each_process_final (page : list Issue) source target st :
  Forall (fun issue => any_hit source issue = false) page ->
  final (for_each page (fun issue _ => process_issue true source target issue) tt st) = st.
Proof.
  induction page as [|issue page IH]; intros Hno; [done|].
  apply Forall_cons in Hno as [Hissue Hno]. cbn [for_each].
  rewrite (bind_Done _ _ _ tt) by apply process_issue_done.
  cbn [prepend final]. rewrite process_issue_run. cbn [prepend final].
  fold (any_hit source issue). rewrite Hissue. cbn [ret final]. by apply IH.
Qed.

(** The remap loop over issues [todo] of a tracker that holds the issues [L]:
    the matching ones are remapped and moved to the end, in the order of the
    loop; the others stay where they are. *)
Lemma remap_fold source target (todo : list MockIssue) : ∀ L m n,
  rejected m = [] ->
  NoDup (keys_of L) ->
  NoDup (keys_of todo) ->
  (∀ mi, mi ∈ todo -> mi ∈ L) ->
  final (for_each (mock_issue <$> todo)
           (fun issue _ => process_issue true source target issue) tt
           {| backend := with_issues L m; issues_updated := n |})
  = {| backend :=
         with_issues (without (keys_of (List.filter (owned source) todo)) L
                      ++ (remapped source target <$> List.filter (owned source) todo)) m;
       issues_updated := n + length (List.filter (owned source) todo) |}.
Proof.
  induction todo as [|mi todo IH]; intros L m n Hrej Hdup Htodo Hsub.
  { simpl. by rewrite without_nil, app_nil_r, Nat.add_0_r. }
  rewrite fmap_cons in Htodo. apply NoDup_cons in Htodo as [Hmi Htodo].
  rewrite fmap_cons. cbn [for_each].
  rewrite (bind_Done _ _ _ tt) by apply process_issue_done.
  cbn [prepend final]. rewrite process_issue_run. cbn [prepend final].
  fold (any_hit source (mock_issue mi)). fold (owned source mi). cbn [List.filter].
  destruct (owned source mi) eqn:Hhit.
  - rewrite update_issue_apply.
    change (api_update_issue (key (mock_issue mi)) ?p (backend ?st))
      with (mock_update p (key (mock_issue mi)) (backend st)).
    cbn [backend issues_updated].
    assert (mi ∈ L) as Hin by (apply Hsub; by left).
    rewrite mock_update_ok; [|done|].
    2:{ unfold mock_keys, with_issues. simpl. apply list_elem_of_fmap. by exists mi. }
    rewrite mock_touch_one by done. cbn [final]. fold (remapped source target mi).
    rewrite IH; [|done| |done|].
    + rewrite !fmap_cons, without_cons, without_app, <- app_assoc. cbn [length].
      rewrite (without_keeps _ [remapped source target mi]).
      * f_equal. lia.
      * intros x ->%list_elem_of_singleton. rewrite remapped_key.
        intros Hk. apply Hmi. eapply elem_of_keys_filter, Hk.
    + rewrite fmap_app. apply NoDup_app. split_and!.
      * by apply NoDup_keys_filter.
      * intros k (x & Hk & Hx)%list_elem_of_fmap Hk'.
        apply list_elem_of_singleton in Hk'. rewrite Hk in Hk'.
        apply list_elem_of_In, List.filter_In in Hx as [_ Hx].
        unfold has_key in Hx. by rewrite bool_decide_eq_true_2 in Hx by exact Hk'.
      * apply NoDup_singleton.
    + intros x Hx. apply elem_of_app. left.
      apply list_elem_of_In, List.filter_In. split.
      * apply list_elem_of_In, Hsub. by right.
      * unfold has_key. rewrite bool_decide_eq_false_2; [done|].
        intros Heq. apply Hmi. rewrite <- Heq. apply list_elem_of_fmap. by exists x.
  - cbn [ret final]. rewrite IH; [done..|]. intros x Hx. apply Hsub. by right.
Qed.

End Remap_on_mock.

Lemma mock_search_all (query : string) (m : Mock) :
  String.prefix "watcher = " query = false ->
  mock_search query m = mock_issue <$> mock_issues m.
Proof.
  intros Hq. unfold mock_search. f_equal.
  induction (mock_issues m) as [|mi l IH]; [done|]. simpl.
  unfold mock_selects at 1. by rewrite Hq, IH.
Qed.

Lemma with_issues_same (m : Mock) : with_issues (mock_issues m) m = m.
Proof. by destruct m. Qed.

Lemma filter_split {A} (P : A -> bool) (l : list A) :
  List.filter (fun x => negb (P x)) l ++ List.filter P l ≡ₚ l.
Proof.
  induction l as [|x l IH]; [done|]. simpl. destruct (P x); simpl.
  - by rewrite <- Permutation_middle, IH.
  - by rewrite IH.
Qed.

Lemma remapped_not_owned source target (l : list MockIssue) :
  remapped source target <$> List.filter (fun mi => negb (owned source mi)) l
  = List.filter (fun mi => negb (owned source mi)) l.
Proof.
  induction l as [|mi l IH]; [done|]. cbn [List.filter].
  destruct (owned source mi) eqn:Hhit; cbn [negb]; [done|].
  by rewrite fmap_cons, IH, remapped_no_hit.
Qed.

Lemma owned_keys source (l : list MockIssue) :
  key <$> List.filter (any_hit source) (mock_issue <$> l)
  = (fun mi => key (mock_issue mi)) <$> List.filter (owned source) l.
Proof.
  induction l as [|mi l IH]; [done|]. rewrite fmap_cons. cbn [List.filter].
  fold (owned source mi). destruct (owned source mi); [|done].
  by rewrite !fmap_cons, IH.
Qed.

(** One page of the scan of [remap_user] on the mock, when the search
    answers with the issues [todo] of the tracker. *)
Lemma remap_page source target query fuel start (todo L : list MockIssue) m n :
  rejected m = [] ->
  NoDup ((fun mi => key (mock_issue mi)) <$> L) ->
  NoDup ((fun mi => key (mock_issue mi)) <$> todo) ->
  (∀ mi, mi ∈ todo -> mi ∈ L) ->
  api_jql query start limit (with_issues L m) = (inr (mock_issue <$> todo), with_issues L m) ->
  let moved := List.filter (owned source) todo in
  let after := {| backend := with_issues (without ((fun mi => key (mock_issue mi)) <$> moved) L
                                          ++ (remapped source target <$> moved)) m;
                  issues_updated := n + length moved |} in
  let r := iterate_from (S fuel) query start
             (fun issue _ => process_issue true source target issue) tt
             {| backend := with_issues L m; issues_updated := n |} in
  if length todo <? limit
  then outcome r = Done tt ∧ final r = after
       ∧ mutated_keys (output r) = (fun mi => key (mock_issue mi)) <$> moved
  else
    let r' := iterate_from fuel query (start + length todo)
                (fun issue _ => process_issue true source target issue) tt after in
    outcome r = outcome r' ∧ final r = final r'
    ∧ mutated_keys (output r)
      = ((fun mi => key (mock_issue mi)) <$> moved) ++ mutated_keys (output r').
Proof.
  intros Hrej Hdup Htodo Hsub Hpage moved after r. subst r.
  rewrite (iterate_from_page fuel query start _ tt
             {| backend := with_issues L m; issues_updated := n |} _ _ Hpage).
  unfold after_page, after_call. cbn [backend issues_updated].
  destruct (for_each_process true source target (mock_issue <$> todo)
              {| backend := with_issues L m; issues_updated := n |}) as (Hout & _ & Hkeys & _).
  rewrite (bind_Done _ _ _ tt Hout). cbn [prepend outcome final output].
  rewrite (remap_fold source target todo L m n Hrej Hdup Htodo Hsub).
  fold moved. fold after. rewrite length_fmap.
  change (?a :: ?b :: ?l ++ ?r) with ([a; b] ++ l ++ r).
  rewrite !mutated_keys_app, Hkeys, owned_keys. fold moved.
  destruct (length todo <? limit); [|done].
  simpl. by rewrite app_nil_r.
Qed.

(** X15.  On a mock tracker with unique issue keys that rejects nothing, with
    the target user known and a query the tracker answers with all its
    issues, fewer than 100 so that they come in one page: [remap_user] in
    apply mode completes and leaves every issue with its creator, assignee
    and reporter set to the target wherever they were the source, and
    everything else (other users, creation time, summary, watchers, the set
    of issues) as it was.  The updated issues are the last updated ones
    afterwards: they come after the others, in the order of the scan.  The
    counter ends at the number of issues that had at least one matching
    field.  When source and target differ, no issue is left with the source
    as creator, assignee or reporter. *)
Theorem remap_user_transfers_ownership (m : Mock) (source target : string)
    (seed : option string) (fuel : nat) (target_user : UserInfo) :
  length (mock_issues m) < limit ->
  mock_find_user target m = inr target_user ->
  rejected m = [] ->
  NoDup (mock_keys m) ->
  String.prefix "watcher = " (get_query seed None) = false ->
  let r := remap_user (S fuel) source target seed true (enter m) in
  let moved := List.filter (owned source) (mock_issues m) in
  let kept := List.filter (fun mi => negb (owned source mi)) (mock_issues m) in
  outcome r = Done PyNone
  ∧ mock_issues (backend (final r)) = kept ++ (remapped source target <$> moved)
  ∧ mock_issues (backend (final r)) ≡ₚ remapped source target <$> mock_issues m
  ∧ issues_updated (final r) = length moved
  ∧ mutated_keys (output r) = (fun mi => key (mock_issue mi)) <$> moved
  ∧ (∀ mi, let f := fields (mock_issue mi) in
           let f' := fields (mock_issue (remapped source target mi)) in
           key (mock_issue (remapped source target mi)) = key (mock_issue mi)
           ∧ creator f' = remap_ref source target (creator f)
           ∧ assignee f' = remap_ref source target <$> assignee f
           ∧ reporter f' = remap_ref source target <$> reporter f
           ∧ created f' = created f ∧ summary f' = summary f
           ∧ watchers (remapped source target mi) = watchers mi)
  ∧ (source ≠ target ->
     Forall (fun mi => owned source mi = false) (mock_issues (backend (final r)))).
Proof.
  intros Hpage Ht Hrej Hdup Hq r moved kept.
  assert (api_jql (get_query seed None) 0 limit (with_issues (mock_issues m) m)
          = (inr (mock_issue <$> mock_issues m), with_issues (mock_issues m) m)) as Hjql.
  { rewrite with_issues_same. simpl. rewrite (mock_search_all _ _ Hq), drop_0.
    rewrite take_ge; [done|]. rewrite length_fmap. lia. }
  pose proof (remap_page source target (get_query seed None) fuel 0
                (mock_issues m) (mock_issues m) m 0 Hrej Hdup Hdup (fun mi H => H) Hjql)
    as Hscan.
  cbv zeta in Hscan. rewrite without_filter in Hscan by done.
  destruct (Nat.ltb_spec (length (mock_issues m)) limit) as [_|?]; [|lia].
  destruct Hscan as (Hout & Hfinal & Hmut). rewrite with_issues_same in Hout, Hfinal, Hmut.
  fold (enter m) in Hout, Hfinal, Hmut. fold moved kept in Hfinal. fold moved in Hmut.
  assert (outcome r = Done PyNone
          ∧ final r = {| backend := with_issues (kept ++ (remapped source target <$> moved)) m;
                         issues_updated := length moved |}
          ∧ mutated_keys (output r) = (fun mi => key (mock_issue mi)) <$> moved)
    as (Hdone & Hend & Hkeys).
  { subst r. rewrite remap_user_run.
    change (api_myself m) with (@inr Exn _ (mock_myself m), m). cbv iota.
    change (api_user target m) with (mock_find_user target m, m). rewrite Ht.
    cbn [prepend outcome final output]. unfold remap_scan, iterate_jql_results.
    rewrite (bind_Done _ _ _ tt Hout). cbn [prepend outcome final output].
    rewrite Hfinal. split_and!; [done..|].
    rewrite !mutated_keys_app, Hmut. unfold remap_head. simpl.
    destruct (bool_decide _); simpl; by rewrite app_nil_r. }
  rewrite Hend. cbn [backend issues_updated with_issues mock_issues].
  split_and!; [done | done | | done | done | |].
  - transitivity (remapped source target <$> (kept ++ moved)).
    + subst kept. by rewrite fmap_app, remapped_not_owned.
    + apply fmap_Permutation, filter_split.
  - intros mi. cbv zeta. split; [done|]. apply remapped_fields.
  - intros Hne. apply Forall_app. split.
    + apply Forall_forall. intros mi Hmi.
      apply list_elem_of_In, List.filter_In in Hmi as [_ Hmi]. by destruct (owned source mi).
    + apply Forall_fmap, Forall_forall. intros mi _. by apply remapped_leaves_no_hit.
Qed.

Lemma remap_user_transfers_ownership_witness :
  let m := tracker owned_ac [] in
  let r := remap_user 1 "alice" "bob" (Some "project = X") true (enter m) in
  length (mock_issues m) < limit
  ∧ rejected m = []
  ∧ NoDup (mock_keys m)
  ∧ String.prefix "watcher = " (get_query (Some "project = X") None) = false
  ∧ outcome r = Done PyNone
  ∧ mock_issues (backend (final r))
    = List.filter (fun mi => negb (owned "alice" mi)) (mock_issues m)
      ++ (remapped "alice" "bob" <$> List.filter (owned "alice") (mock_issues m))
  ∧ issues_updated (final r) = 2
  ∧ mutated_keys (output r) = ["A"; "C"].
Proof.
  intros m r.
  assert (length (mock_issues m) < limit) as Hpage by (vm_compute; lia).
  assert (NoDup (mock_keys m)) as Hdup
    by (apply (bool_decide_unpack _); vm_compute; exact I).
  destruct (remap_user_transfers_ownership m "alice" "bob" (Some "project = X") 0
              (user "bob") Hpage eq_refl eq_refl Hdup eq_refl)
    as (Hout & Hissues & _ & Hcount & Hkeys & _).
  exact (conj Hpage (conj eq_refl (conj Hdup (conj eq_refl
           (conj Hout (conj Hissues (conj Hcount Hkeys))))))).
Defined.

(** ** The ownership remap over several pages *)

Section Remap_pages.
Implicit Types (m : Mock) (mi : MockIssue) (S T P L : list MockIssue).

Lemma remapped_keys source target L : keys_of (remapped source target <$> L) = keys_of L.
Proof. by rewrite <- list_fmap_compose. Qed.

Lemma scanned_pages_nil {A} n : scanned_pages n (@nil A) = [].
Proof.
  induction n as [|n IH]; [done|]. cbn [scanned_pages]. by rewrite take_nil, drop_nil, IH.
Qed.

Lemma skipped_pages_nil {A} n : skipped_pages n (@nil A) = [].
Proof.
  induction n as [|n IH]; [done|]. cbn [skipped_pages]. by rewrite !drop_nil, take_nil, IH.
Qed.

Lemma pages_short {A} n (l : list A) :
  length (drop limit l) < limit ->
  scanned_pages (Datatypes.S n) l = take limit l
  ∧ skipped_pages (Datatypes.S n) l = drop limit l.
Proof.
  intros Hlen. cbn [scanned_pages skipped_pages].
  assert (drop (limit + limit) l = []) as ->.
  { rewrite <- drop_drop. apply drop_ge. lia. }
  rewrite scanned_pages_nil, skipped_pages_nil, !app_nil_r. split; [done|].
  apply take_ge. lia.
Qed.

Lemma filter_all {A} (P : A -> bool) (l : list A) :
  Forall (fun x => P x = true) l -> List.filter P l = l.
Proof. induction 1 as [|x l Hx _ IH]; [done|]. simpl. by rewrite Hx, IH. Qed.

Lemma filter_none {A} (P : A -> bool) (l : list A) :
  Forall (fun x => P x = false) l -> List.filter P l = [].
Proof. induction 1 as [|x l Hx _ IH]; [done|]. simpl. by rewrite Hx. Qed.

Lemma filter_owned_take source k T P :
  Forall (fun mi => owned source mi = true) T ->
  Forall (fun mi => owned source mi = false) P ->
  List.filter (owned source) (take k (T ++ P)) = take k T.
Proof.
  intros HT HP. rewrite take_app, List.filter_app.
  rewrite filter_all by (by apply Forall_take).
  rewrite filter_none by (by apply Forall_take). by rewrite app_nil_r.
Qed.

Lemma without_all ks L :
  (∀ mi, mi ∈ L -> key (mock_issue mi) ∈ ks) -> without ks L = [].
Proof.
  unfold without. induction L as [|x L IH]; intros Hks; [done|]. cbn [List.filter].
  rewrite bool_decide_eq_false_2 by (intros Hnot; apply Hnot, Hks; by left).
  apply IH. intros mi Hmi. apply Hks. by right.
Qed.

Lemma without_taken k S T P :
  NoDup (keys_of (S ++ T ++ P)) ->
  without (keys_of (take k T)) (S ++ T ++ P) = S ++ drop k T ++ P.
Proof.
  rewrite !fmap_app. intros (_ & HS & HTP)%NoDup_app.
  apply NoDup_app in HTP as (HT & HTP & _).
  assert (∀ x, x ∈ keys_of (take k T) -> x ∈ keys_of T) as Htake.
  { intros x. rewrite !list_elem_of_fmap. intros (mi & -> & Hmi). exists mi.
    split; [done|]. by apply subseteq_take in Hmi. }
  rewrite !without_app. f_equal; [|f_equal].
  - apply without_keeps. intros mi Hmi Hin. apply (HS (key (mock_issue mi))).
    + apply list_elem_of_fmap. by exists mi.
    + apply elem_of_app. left. by apply Htake.
  - rewrite <- (take_drop k T) at 2. rewrite without_app, without_all.
    + apply without_keeps. intros mi Hmi Hin.
      rewrite <- (take_drop k T), fmap_app in HT. apply NoDup_app in HT as (_ & HT & _).
      apply (HT _ Hin). apply list_elem_of_fmap. by exists mi.
    + intros mi Hmi. apply list_elem_of_fmap. by exists mi.
  - apply without_keeps. intros mi Hmi Hin. apply (HTP (key (mock_issue mi))).
    + by apply Htake.
    + apply list_elem_of_fmap. by exists mi.
Qed.

(** The scan from an offset behind which no issue matches changes nothing. *)
Lemma remap_idle source target query L m fuel : ∀ start n,
  String.prefix "watcher = " query = false ->
  Forall (fun mi => owned source mi = false) (drop start L) ->
  length L - start < fuel * limit ->
  let r := iterate_from fuel query start
             (fun issue _ => process_issue true source target issue) tt
             {| backend := with_issues L m; issues_updated := n |} in
  outcome r = Done tt
  ∧ final r = {| backend := with_issues L m; issues_updated := n |}
  ∧ mutated_keys (output r) = [].
Proof.
  induction fuel as [|fuel IH]; intros start n Hq Hno Hfuel; [simpl in Hfuel; lia|].
  set (todo := take limit (drop start L)).
  assert (api_jql query start limit (with_issues L m)
          = (inr (mock_issue <$> todo), with_issues L m)) as Hpage.
  { simpl. rewrite (mock_search_all _ _ Hq). simpl. subst todo.
    by rewrite fmap_take, fmap_drop. }
  assert (Forall (fun issue => any_hit source issue = false) (mock_issue <$> todo)) as Hidle.
  { apply Forall_fmap. subst todo. by apply Forall_take. }
  rewrite (iterate_from_page fuel query start _ tt
             {| backend := with_issues L m; issues_updated := n |} _ _ Hpage).
  unfold after_page, after_call. cbn [backend issues_updated].
  destruct (for_each_process true source target (mock_issue <$> todo)
              {| backend := with_issues L m; issues_updated := n |}) as (Hout & _ & Hkeys & _).
  rewrite (bind_Done _ _ _ tt Hout). cbn [prepend outcome final output].
  rewrite (for_each_process_final _ _ _ _ Hidle).
  change (?a :: ?b :: ?l ++ ?r) with ([a; b] ++ l ++ r).
  rewrite !mutated_keys_app, Hkeys, (filter_none _ _ Hidle). cbn [app fmap list_fmap].
  assert (length (mock_issue <$> todo) = limit `min` (length L - start)) as Hlen.
  { subst todo. by rewrite length_fmap, length_take, length_drop. }
  destruct (Nat.ltb_spec (length (mock_issue <$> todo)) limit) as [Hshort|Hfull]; [done|].
  assert (length (mock_issue <$> todo) = limit) as -> by lia.
  destruct (IH (start + limit) n Hq) as (Hdone & Hfinal & Hmut).
  - rewrite <- drop_drop. by apply Forall_drop.
  - rewrite Nat.mul_succ_l in Hfuel. lia.
  - done.
Qed.

(** The scan of [remap_user] on a tracker whose issues behind the offset all
    belong to the source but the ones already remapped, which come last:
    every page the scan handles moves to the end, so that the page after it
    takes its place and is never asked for. *)
Lemma remap_alternate source target query m fuel :
  String.prefix "watcher = " query = false ->
  rejected m = [] ->
  source ≠ target ->
  ∀ S T P n,
    NoDup (keys_of (S ++ T ++ P)) ->
    Forall (fun mi => owned source mi = true) T ->
    Forall (fun mi => owned source mi = false) P ->
    length (T ++ P) < fuel * limit ->
    let r := iterate_from fuel query (length S)
               (fun issue _ => process_issue true source target issue) tt
               {| backend := with_issues (S ++ T ++ P) m; issues_updated := n |} in
    outcome r = Done tt
    ∧ final r
      = {| backend := with_issues (S ++ skipped_pages fuel T ++ P
                                   ++ (remapped source target <$> scanned_pages fuel T)) m;
           issues_updated := n + length (scanned_pages fuel T) |}
    ∧ mutated_keys (output r) = keys_of (scanned_pages fuel T).
Proof.
  intros Hq Hrej Hne.
  induction fuel as [|fuel IH]; intros S T P n Hdup HT HP Hfuel; [simpl in Hfuel; lia|].
  set (todo := take limit (T ++ P)).
  set (X := take limit T). set (Y := drop limit T).
  assert (api_jql query (length S) limit (with_issues (S ++ T ++ P) m)
          = (inr (mock_issue <$> todo), with_issues (S ++ T ++ P) m)) as Hpage.
  { simpl. rewrite (mock_search_all _ _ Hq). simpl. subst todo.
    rewrite fmap_app, drop_app_length' by (by rewrite length_fmap). by rewrite fmap_take. }
  assert (NoDup (keys_of todo)) as Htodo.
  { subst todo. rewrite fmap_take. rewrite fmap_app in Hdup.
    apply NoDup_app in Hdup as (_ & _ & Hdup).
    apply (sublist_NoDup _ _ Hdup), sublist_take. }
  assert (∀ mi, mi ∈ todo -> mi ∈ S ++ T ++ P) as Hsub.
  { intros mi Hmi. apply elem_of_app. right. subst todo. by apply subseteq_take in Hmi. }
  pose proof (remap_page source target query fuel (length S) todo (S ++ T ++ P) m n
                Hrej Hdup Htodo Hsub Hpage) as Hscan.
  cbv zeta in Hscan. subst todo.
  rewrite (filter_owned_take source limit T P HT HP) in Hscan.
  rewrite (without_taken limit S T P Hdup), <- !app_assoc in Hscan. fold X Y in Hscan.
  cbv zeta.
  assert (length (T ++ P) = length T + length P) as Hlen by apply length_app.
  assert (length (take limit (T ++ P)) = limit `min` (length T + length P)) as Hlen'
    by (by rewrite length_take, Hlen).
  assert (length Y = length T - limit) as HlenY by (subst Y; apply length_drop).
  assert (length X = limit `min` length T) as HlenX by (subst X; apply length_take).
  assert (Forall (fun mi => owned source mi = false) (P ++ (remapped source target <$> X)))
    as HP'.
  { apply Forall_app. split; [done|]. apply Forall_fmap, Forall_forall.
    intros mi _. by apply remapped_leaves_no_hit. }
  destruct (decide (length Y < limit)) as [HY|HY].
  - destruct (pages_short fuel T HY) as [-> ->]. fold X Y.
    destruct (Nat.ltb_spec (length (take limit (T ++ P))) limit) as [Hshort|Hfull];
      [done|].
    destruct Hscan as (Hout & Hfinal & Hkeys).
    destruct (remap_idle source target query
                (S ++ Y ++ P ++ (remapped source target <$> X)) m fuel
                (length S + length (take limit (T ++ P))) (n + length X) Hq)
      as (Hout' & Hfinal' & Hkeys').
    + rewrite drop_app_add, drop_app_ge by lia. by apply Forall_drop.
    + rewrite !length_app, length_fmap. rewrite Nat.mul_succ_l in Hfuel. lia.
    + rewrite Hout, Hfinal, Hkeys, Hout', Hfinal', Hkeys'. by rewrite app_nil_r.
  - assert (limit ≤ length T - limit) as HT2 by lia.
    destruct (Nat.ltb_spec (length (take limit (T ++ P))) limit) as [Hshort|Hfull]; [lia|].
    destruct Hscan as (Hout & Hfinal & Hkeys).
    assert (length (take limit (T ++ P)) = limit) as Hfull' by lia.
    rewrite Hfull' in Hout, Hfinal, Hkeys.
    assert (length S + limit = length (S ++ take limit Y)) as Hstart.
    { rewrite length_app, length_take. lia. }
    assert (S ++ Y ++ P ++ (remapped source target <$> X)
            = (S ++ take limit Y) ++ drop limit Y ++ P ++ (remapped source target <$> X))
      as Hlist.
    { rewrite <- (take_drop limit Y) at 1. by rewrite <- !app_assoc. }
    rewrite Hstart, Hlist in Hout, Hfinal, Hkeys.
    destruct (IH (S ++ take limit Y) (drop limit Y)
                (P ++ (remapped source target <$> X)) (n + length X))
      as (Hout' & Hfinal' & Hkeys').
    + rewrite <- Hlist.
      rewrite !fmap_app, remapped_keys. rewrite !fmap_app in Hdup.
      rewrite <- (take_drop limit T), fmap_app in Hdup. fold X Y in Hdup.
      assert (keys_of S ++ keys_of Y ++ keys_of P ++ keys_of X
              ≡ₚ keys_of S ++ (keys_of X ++ keys_of Y) ++ keys_of P) as Hperm.
      { apply Permutation_app_head. rewrite <- app_assoc.
        rewrite (Permutation_app_comm (keys_of X)). by rewrite <- app_assoc. }
      by rewrite Hperm.
    + subst Y. by do 2 apply Forall_drop.
    + done.
    + rewrite !length_app, length_drop, length_fmap. rewrite Nat.mul_succ_l in Hfuel. lia.
    + rewrite Hout, Hfinal, Hkeys, Hout', Hfinal', Hkeys'.
      cbn [scanned_pages skipped_pages]. fold X Y.
      assert (drop (limit + limit) T = drop limit Y) as -> by (subst Y; by rewrite drop_drop).
      split_and!; [done | | by rewrite fmap_app].
      rewrite length_app, !fmap_app, <- !app_assoc. f_equal. lia.
Qed.

End Remap_pages.

Lemma scanned_skipped_all {A} n : ∀ l : list A,
  length l < n * limit -> scanned_pages n l ++ skipped_pages n l ≡ₚ l.
Proof.
  induction n as [|n IH]; intros l Hlen; [simpl in Hlen; lia|].
  cbn [scanned_pages skipped_pages].
  transitivity (take limit l ++ take limit (drop limit l)
                ++ scanned_pages n (drop (limit + limit) l)
                ++ skipped_pages n (drop (limit + limit) l)).
  - rewrite <- !app_assoc. apply Permutation_app_head.
    rewrite !app_assoc. apply Permutation_app_tail, Permutation_app_comm.
  - rewrite Nat.mul_succ_l in Hlen.
    destruct (decide (length l ≤ limit + limit)) as [Hshort|Hlong].
    + rewrite (drop_ge l (limit + limit)) by done.
      rewrite scanned_pages_nil, skipped_pages_nil, !app_nil_r.
      rewrite (take_ge (drop limit l)) by (rewrite length_drop; lia).
      by rewrite take_drop.
    + rewrite IH by (rewrite length_drop; lia).
      by rewrite <- drop_drop, !take_drop.
Qed.

Lemma skipped_pages_none {A} n (l : list A) :
  skipped_pages (S n) l = [] ↔ length l ≤ limit.
Proof.
  cbn [skipped_pages]. split.
  - intros [Htake _]%app_eq_nil. apply (f_equal length) in Htake.
    rewrite length_take, length_drop in Htake. change (length (@nil A)) with 0 in Htake.
    assert (0 < limit) by (unfold limit; lia). lia.
  - intros Hlen. rewrite (drop_ge l limit) by done.
    rewrite (drop_ge l (limit + limit)) by lia. by rewrite take_nil, skipped_pages_nil.
Qed.

(** X16.  On a mock tracker with unique issue keys that rejects nothing and
    whose issues all have the source as creator, assignee or reporter, with
    the target user known and different from the source, fuel for all pages
    and a query the tracker answers with all its issues: [remap_user] in
    apply mode completes, but it remaps only every other page of 100 issues.
    Each page it has updated moves to the end of the ascending order of last
    update, the issues after it move up by 100, and the next search, at an
    offset 100 further, passes over them.  The first, third, fifth page and
    so on are updated, once each, and counted; the second, fourth, sixth page
    and so on keep the source as owner, and they are the first issues of the
    tracker afterwards.  Every issue is remapped only when there are at most
    100 of them. *)
Theorem remap_user_skips_every_other_page (m : Mock) (source target : string)
    (seed : option string) (fuel : nat) (target_user : UserInfo) :
  length (mock_issues m) < fuel * limit ->
  mock_find_user target m = inr target_user ->
  rejected m = [] ->
  NoDup (mock_keys m) ->
  String.prefix "watcher = " (get_query seed None) = false ->
  source ≠ target ->
  Forall (fun mi => owned source mi = true) (mock_issues m) ->
  let r := remap_user fuel source target seed true (enter m) in
  let scanned := scanned_pages fuel (mock_issues m) in
  let skipped := skipped_pages fuel (mock_issues m) in
  outcome r = Done PyNone
  ∧ mock_issues (backend (final r)) = skipped ++ (remapped source target <$> scanned)
  ∧ mutated_keys (output r) = (fun mi => key (mock_issue mi)) <$> scanned
  ∧ issues_updated (final r) = length scanned
  ∧ scanned ++ skipped ≡ₚ mock_issues m
  ∧ Forall (fun mi => owned source mi = true) skipped
  ∧ Forall (fun mi => owned source mi = false) (remapped source target <$> scanned)
  ∧ (skipped = [] ↔ length (mock_issues m) ≤ limit).
Proof.
  intros Hfuel Ht Hrej Hdup Hq Hne Hall r scanned skipped.
  pose proof (scanned_skipped_all fuel (mock_issues m) Hfuel) as Hperm.
  fold scanned skipped in Hperm.
  destruct (remap_alternate source target (get_query seed None) m fuel Hq Hrej Hne
              [] (mock_issues m) [] 0) as (Hout & Hfinal & Hkeys).
  { by rewrite app_nil_r. }
  { done. }
  { done. }
  { by rewrite app_nil_r. }
  cbn [app length] in Hout, Hfinal, Hkeys.
  rewrite app_nil_r, with_issues_same in Hout, Hfinal, Hkeys.
  fold (enter m) in Hout, Hfinal, Hkeys. fold scanned skipped in Hfinal, Hkeys.
  assert (outcome r = Done PyNone
          ∧ final r = {| backend := with_issues (skipped ++ (remapped source target <$> scanned)) m;
                         issues_updated := length scanned |}
          ∧ mutated_keys (output r) = (fun mi => key (mock_issue mi)) <$> scanned)
    as (Hdone & Hend & Hmut).
  { subst r. rewrite remap_user_run.
    change (api_myself m) with (@inr Exn _ (mock_myself m), m). cbv iota.
    change (api_user target m) with (mock_find_user target m, m). rewrite Ht.
    cbn [prepend outcome final output]. unfold remap_scan, iterate_jql_results.
    rewrite (bind_Done _ _ _ tt Hout). cbn [prepend outcome final output].
    rewrite Hfinal. split_and!; [done..|].
    rewrite !mutated_keys_app, Hkeys. unfold remap_head. simpl.
    destruct (bool_decide _); simpl; by rewrite app_nil_r. }
  rewrite Hend. cbn [backend issues_updated with_issues mock_issues].
  split_and!; [done | done | done | done | done | | |].
  - apply Forall_forall. intros mi Hmi.
    apply (proj1 (Forall_forall _ _) Hall). rewrite <- Hperm. apply elem_of_app. by right.
  - apply Forall_fmap, Forall_forall. intros mi _. by apply remapped_leaves_no_hit.
  - destruct fuel as [|fuel]; [simpl in Hfuel; lia|]. apply skipped_pages_none.
Qed.

Lemma remap_user_skips_every_other_page_witness :
  let m := tracker (numbered 250) [] in
  let r := remap_user 3 "alice" "bob" (Some "project = X") true (enter m) in
  length (mock_issues m) < 3 * limit
  ∧ rejected m = []
  ∧ NoDup (mock_keys m)
  ∧ "alice" ≠ "bob"
  ∧ Forall (fun mi => owned "alice" mi = true) (mock_issues m)
  ∧ outcome r = Done PyNone
  ∧ issues_updated (final r) = length (scanned_pages 3 (mock_issues m))
  ∧ length (scanned_pages 3 (mock_issues m)) = 150
  ∧ mock_issues (backend (final r))
    = skipped_pages 3 (mock_issues m)
      ++ (remapped "alice" "bob" <$> scanned_pages 3 (mock_issues m))
  ∧ skipped_pages 3 (mock_issues m) = drop 100 (numbered 200).
Proof.
  intros m r.
  assert (length (mock_issues m) < 3 * limit) as Hfuel by (vm_compute; lia).
  assert (NoDup (mock_keys m)) as Hdup
    by (apply (bool_decide_unpack _); vm_compute; exact I).
  assert ("alice" ≠ "bob") as Hne by done.
  assert (Forall (fun mi => owned "alice" mi = true) (mock_issues m)) as Hall
    by (apply (bool_decide_unpack _); vm_compute; exact I).
  destruct (remap_user_skips_every_other_page m "alice" "bob" (Some "project = X") 3
              (user "bob") Hfuel eq_refl eq_refl Hdup eq_refl Hne Hall)
    as (Hout & Hissues & _ & Hcount & _).
  assert (length (scanned_pages 3 (mock_issues m)) = 150) as Hlen by (by vm_compute).
  assert (skipped_pages 3 (mock_issues m) = drop 100 (numbered 200)) as Hskip
    by (by vm_compute).
  exact (conj Hfuel (conj eq_refl (conj Hdup (conj Hne (conj Hall
           (conj Hout (conj Hcount (conj Hlen (conj Hissues Hskip))))))))).
Defined.

(** ** Running the watcher copy twice, continued *)









(** ** Failures of single-issue mutations *)

Lemma failures_app out1 out2 : failures (out1 ++ out2) = failures out1 ++ failures out2.
Proof. apply omap_app. Qed.

Lemma failed_keys_app out1 out2 :
  failed_keys (out1 ++ out2) = failed_keys out1 ++ failed_keys out2.
Proof. apply omap_app. Qed.

Lemma missing_keys_app keys (l1 l2 : list Issue) :
  missing_keys keys (l1 ++ l2) = missing_keys keys l1 ++ missing_keys keys l2.
Proof. unfold missing_keys. by rewrite fmap_app, List.filter_app. Qed.

Lemma pages_no_search evs : Forall no_search evs -> pages evs = [].
Proof.
  induction 1 as [|ev evs Hev _ IH]; [done|]. destruct ev; simpl in *; done.
Qed.

Lemma snapshot_phase_app pre out :
  omap snapshot_size pre = [] ->
  snapshot_phase (pre ++ out) = pre ++ snapshot_phase out
  ∧ copy_phase (pre ++ out) = copy_phase out.
Proof.
  induction pre as [|o pre IH]; [done|]. intros Hpre.
  destruct o as [ev|msg]; [|destruct msg]; simpl in Hpre |- *;
    first [discriminate Hpre | destruct (IH Hpre) as [-> ->]; done].
Qed.

Lemma snapshot_phase_all out :
  omap snapshot_size out = [] -> snapshot_phase out = out ∧ copy_phase out = [].
Proof.
  intros Hout. destruct (snapshot_phase_app out [] Hout) as [Hs Hc].
  by rewrite !app_nil_r in *.
Qed.

Section Recorded.
Context {B : Type} `{Backend B}.
Implicit Types st : Frame B.

Lemma recorded_quiet {A} (m : M B A) :
  (∀ st, failures (output (m st)) = []) -> (∀ st, mutations (output (m st)) = []) ->
  recorded m.
Proof.
  intros Hlog Hmut st. rewrite Hlog. specialize (Hmut st). clear Hlog.
  unfold failed_keys. induction (output (m st)) as [|o out IH]; [done|].
  destruct o as [ev|msg]; [|by apply IH].
  destruct ev; simpl in *; first [by apply IH | done].
Qed.

Lemma recorded_reads {A} (m : M B A) :
  reads m -> (∀ st, failures (output (m st)) = []) -> recorded m.
Proof. intros Hm Hlog. apply recorded_quiet; [done|]. intros st. apply Hm. Qed.

Lemma recorded_bind {A C} (m : M B A) (k : A -> M B C) :
  recorded m -> (∀ a, recorded (k a)) -> recorded (bind m k).
Proof.
  intros Hm Hk st. rewrite output_bind, failures_app, failed_keys_app, Hm.
  destruct (outcome (m st)); [by rewrite Hk | done..].
Qed.

Lemma recorded_call_jql query start lim : recorded (call_jql query start lim).
Proof.
  apply recorded_reads; [apply reads_call_jql|]. intros st. unfold call_jql.
  by destruct (api_jql _ _ _ _).
Qed.

Lemma recorded_call_myself : recorded call_myself.
Proof.
  apply recorded_reads; [apply reads_call_myself|]. intros st. unfold call_myself.
  by destruct (api_myself _).
Qed.

Lemma recorded_call_user account_id : recorded (call_user account_id).
Proof.
  apply recorded_reads; [apply reads_call_user|]. intros st. unfold call_user.
  by destruct (api_user _ _).
Qed.

Lemma recorded_for_each {A T} (l : list T) (body : T -> A -> M B A) acc :
  (∀ x a, recorded (body x a)) -> recorded (for_each l body acc).
Proof.
  intros Hbody. revert acc. induction l as [|x l IH]; intros acc; simpl.
  - by apply recorded_quiet.
  - by apply recorded_bind.
Qed.

Lemma recorded_iterate_from {A} fuel query start (body : Issue -> A -> M B A) acc :
  (∀ x a, recorded (body x a)) -> recorded (iterate_from fuel query start body acc).
Proof.
  intros Hbody. revert start acc. induction fuel as [|fuel IH]; intros start acc; simpl.
  - by apply recorded_quiet.
  - apply recorded_bind; [by apply recorded_quiet|]. intros _.
    apply recorded_bind; [apply recorded_call_jql|]. intros page.
    apply recorded_bind; [by apply recorded_for_each|]. intros acc'.
    destruct (length page <? limit); [by apply recorded_quiet | apply IH].
Qed.

Lemma recorded_update_issue apply_changes issue updates :
  recorded (update_issue apply_changes issue updates).
Proof.
  intros st. destruct apply_changes; [|by rewrite update_issue_dry].
  rewrite update_issue_apply. by destruct (api_update_issue _ _ _) as [[e|] b].
Qed.

Lemma recorded_add_watcher apply_changes target issue :
  recorded (add_watcher apply_changes target issue).
Proof.
  intros st. destruct apply_changes; [|by rewrite add_watcher_dry].
  rewrite add_watcher_apply. by destruct (api_issue_add_watcher _ _ _) as [[e|] b].
Qed.

Lemma recorded_remap_user fuel source target seed apply_changes :
  recorded (remap_user fuel source target seed apply_changes).
Proof.
  unfold remap_user.
  apply recorded_bind; [by apply recorded_quiet|]. intros _.
  apply recorded_bind; [apply recorded_call_myself|]. intros myself.
  apply recorded_bind; [by apply recorded_quiet|]. intros _.
  apply recorded_bind.
  { apply recorded_quiet; intros st; by destruct (bool_decide _). }
  intros _.
  apply recorded_bind; [apply recorded_call_user|]. intros target_user.
  apply recorded_bind; [by apply recorded_quiet|]. intros _.
  apply recorded_bind; [by apply recorded_quiet|]. intros _.
  apply recorded_bind.
  - apply recorded_iterate_from. intros issue []. unfold process_issue.
    apply recorded_bind; [by apply recorded_quiet|]. intros _.
    case_bool_decide; [apply recorded_update_issue | by apply recorded_quiet].
  - intros _. apply recorded_bind; [by apply recorded_quiet|]. intros n.
    apply recorded_bind; [by apply recorded_quiet | intros _; by apply recorded_quiet].
Qed.

Lemma recorded_copy_watchers fuel source target apply_changes :
  recorded (copy_watchers fuel source target apply_changes).
Proof.
  unfold copy_watchers.
  apply recorded_bind; [apply recorded_call_user|]. intros source_user.
  apply recorded_bind; [apply recorded_call_user|]. intros target_user.
  apply recorded_bind; [by apply recorded_quiet|]. intros _.
  apply recorded_bind; [by apply recorded_quiet|]. intros _.
  apply recorded_bind; [by apply recorded_quiet|]. intros _.
  apply recorded_bind.
  { apply recorded_iterate_from. intros issue keys. by apply recorded_quiet. }
  intros keys.
  apply recorded_bind; [by apply recorded_quiet|]. intros _.
  apply recorded_bind; [|intros _; by apply recorded_quiet].
  apply recorded_iterate_from. intros issue []. unfold copy_issue.
  case_bool_decide; [by apply recorded_quiet | apply recorded_add_watcher].
Qed.

(** The snapshot scan collects the keys of the records its searches
    returned; it makes no mutating call and does not log its size. *)
Lemma iterate_snapshot_obs query fuel : ∀ start keys st,
  let r := iterate_from fuel query start snapshot_key keys st in
  (∀ K, outcome r = Done K -> K = keys ∪ list_to_set (key <$> fetched (output r)))
  ∧ mutated_keys (output r) = []
  ∧ omap snapshot_size (output r) = [].
Proof.
  induction fuel as [|fuel IH]; intros start keys st; [done|].
  destruct (api_jql query start limit (backend st)) as [[e|page] b] eqn:Hq.
  { by rewrite (iterate_from_error _ _ _ _ _ _ _ _ Hq). }
  rewrite (iterate_from_page _ _ _ _ _ _ _ _ Hq). unfold after_page.
  rewrite (bind_Done _ _ _ (keys ∪ list_to_set (key <$> page)))
    by (by rewrite for_each_snapshot).
  rewrite for_each_snapshot. cbn [prepend outcome final output app].
  change (?a :: ?b :: ?r) with ([a; b] ++ r).
  rewrite fetched_app, mutated_keys_app, omap_app.
  change (fetched [Log (MsgFetching start (start + limit));
                   Call (EvJql query start limit (inr page))]) with (page ++ []).
  rewrite app_nil_r. cbn [app].
  destruct (length page <? limit).
  - simpl. split_and!; [|done..]. intros K [= <-]. by rewrite app_nil_r.
  - destruct (IH (start + length page) (keys ∪ list_to_set (key <$> page)) (after_call b st))
      as (HK & Hmut & Hsize).
    split_and!; [|done..]. intros K HKdone. rewrite (HK K HKdone).
    rewrite fmap_app, list_to_set_app_L. by rewrite (assoc_L (∪)).
Qed.

(** The copy scan calls add-watcher for exactly the records its searches
    returned whose key is not in the snapshot set, whatever the calls
    answer. *)
Lemma iterate_copy_obs target email keys query fuel : ∀ start st,
  let r := iterate_from fuel query start (copy_issue true target email keys) tt st in
  mutated_keys (output r) = missing_keys keys (fetched (output r)).
Proof.
  induction fuel as [|fuel IH]; intros start st; [done|].
  destruct (api_jql query start limit (backend st)) as [[e|page] b] eqn:Hq.
  { by rewrite (iterate_from_error _ _ _ _ _ _ _ _ Hq). }
  rewrite (iterate_from_page _ _ _ _ _ _ _ _ Hq). unfold after_page.
  destruct (for_each_copy_obs true target email keys page (after_call b st))
    as (Hout & Hm & _).
  assert (fetched (output (for_each page (copy_issue true target email keys) tt
                             (after_call b st))) = []) as Hf.
  { unfold fetched. rewrite pages_no_search; [done|].
    apply (only_for_each no_search). intros issue []. unfold copy_issue.
    case_bool_decide; [by apply only_quiet | by apply only_add_watcher]. }
  rewrite (bind_Done _ _ _ tt Hout). cbn [prepend output].
  change (?a :: ?b :: ?l ++ ?r) with ([a; b] ++ l ++ r).
  rewrite !fetched_app, !mutated_keys_app, Hf, Hm.
  change (fetched [Log (MsgFetching start (start + limit));
                   Call (EvJql query start limit (inr page))]) with (page ++ []).
  rewrite app_nil_r. cbn [app].
  destruct (length page <? limit).
  - simpl. by rewrite !app_nil_r.
  - rewrite IH. by rewrite missing_keys_app.
Qed.

(** The two scans of [copy_watchers]: the add-watcher calls are made for
    exactly the records of the copy scan whose key no record of the snapshot
    scan has. *)
Lemma copy_scans_obs fuel source target email st :
  let out := output (copy_scans fuel source target email true st) in
  omap snapshot_size (snapshot_phase out) = []
  ∧ mutated_keys out
    = missing_keys (list_to_set (key <$> fetched (snapshot_phase out)))
        (fetched (copy_phase out)).
Proof.
  unfold copy_scans, iterate_jql_results. cbv zeta.
  rewrite output_bind. cbn [log outcome final output].
  rewrite output_bind.
  destruct (iterate_snapshot_obs (watching_query target) fuel 0 ∅ st) as (HK & Hmut & Hsize).
  set (r1 := iterate_from fuel (watching_query target) 0 snapshot_key ∅ st) in *.
  destruct (outcome r1) as [K| |] eqn:Hout1.
  - rewrite output_bind. cbn [log outcome final output]. rewrite output_bind.
    set (r2 := iterate_from fuel (watching_query source) 0
                 (copy_issue true target email K) tt (final r1)).
    assert (output r2 ++ match outcome r2 with
                         | Done a => output (ret PyNone (final r2))
                         | _ => []
                         end = output r2) as ->.
    { destruct (outcome r2); simpl; by rewrite app_nil_r. }
    destruct (snapshot_phase_app (Log (MsgFetchingWatched email) :: output r1)
                (Log (MsgAlreadyWatching (size K)) :: output r2)) as [Hs Hc].
    { simpl. exact Hsize. }
    change ([Log (MsgFetchingWatched email)]
            ++ output r1 ++ [Log (MsgAlreadyWatching (size K))] ++ output r2)
      with ((Log (MsgFetchingWatched email) :: output r1)
            ++ Log (MsgAlreadyWatching (size K)) :: output r2).
    rewrite Hs, Hc. cbn [snapshot_phase copy_phase]. rewrite app_nil_r.
    split; [exact Hsize|].
    change (Log (MsgFetchingWatched email) :: output r1)
      with ([Log (MsgFetchingWatched email)] ++ output r1).
    change (Log (MsgAlreadyWatching (size K)) :: output r2)
      with ([Log (MsgAlreadyWatching (size K))] ++ output r2).
    rewrite !mutated_keys_app, fetched_app, Hmut. simpl.
    pose proof (HK K eq_refl) as HKeq. rewrite (left_id_L ∅ (∪)) in HKeq.
    rewrite <- HKeq. subst r2. apply iterate_copy_obs.
  - rewrite app_nil_r.
    destruct (snapshot_phase_all (Log (MsgFetchingWatched email) :: output r1)) as [Hs Hc];
      [exact Hsize|].
    change ([Log (MsgFetchingWatched email)] ++ output r1)
      with (Log (MsgFetchingWatched email) :: output r1).
    rewrite Hs, Hc. split; [exact Hsize|].
    change (Log (MsgFetchingWatched email) :: output r1)
      with ([Log (MsgFetchingWatched email)] ++ output r1).
    by rewrite mutated_keys_app, Hmut.
  - rewrite app_nil_r.
    destruct (snapshot_phase_all (Log (MsgFetchingWatched email) :: output r1)) as [Hs Hc];
      [exact Hsize|].
    change ([Log (MsgFetchingWatched email)] ++ output r1)
      with (Log (MsgFetchingWatched email) :: output r1).
    rewrite Hs, Hc. split; [exact Hsize|].
    change (Log (MsgFetchingWatched email) :: output r1)
      with ([Log (MsgFetchingWatched email)] ++ output r1).
    by rewrite mutated_keys_app, Hmut.
Qed.

End Recorded.

(** The add-watcher calls of a run of [copy_watchers], whatever the backend
    answers: one for every record of the copy scan whose key no record of the
    snapshot scan has. *)
Lemma copy_watchers_obs {B : Type} `{Backend B} (b : B) fuel source target :
  let out := output (copy_watchers fuel source target true (enter b)) in
  mutated_keys out
  = missing_keys (list_to_set (key <$> fetched (snapshot_phase out)))
      (fetched (copy_phase out)).
Proof.
  cbv zeta. rewrite copy_watchers_run.
  destruct (api_user source b) as [[e|source_user] b1]; [done|].
  destruct (api_user target b1) as [[e|target_user] b2]; [done|].
  cbn [prepend output].
  destruct (copy_scans_obs fuel source target (emailAddress target_user) (enter b2))
    as [_ Hobs].
  set (pre := [Call (EvUser source (inr source_user));
               Call (EvUser target (inr target_user));
               Log (MsgCopying (emailAddress source_user) (emailAddress target_user)
                      (negb true))]).
  destruct (snapshot_phase_app pre
              (output (copy_scans fuel source target (emailAddress target_user) true
                         (enter b2)))) as [-> ->]; [done|].
  rewrite mutated_keys_app, fetched_app. exact Hobs.
Qed.

(** C6.  In apply mode an exception raised by the update call or the
    add-watcher call of one issue is caught: the step for that issue returns
    normally, the failure is logged and the counter is left as it was, while a
    call that succeeds adds one to the counter.  Over a whole run of either
    handler, on every backend: the counter ends at the number of mutating
    calls that succeeded, which is also the count the remap handler reports
    when it completes; a failure is logged for exactly the mutating calls
    that raised; a run raises only when a read call (search or user lookup)
    raised; and the scan goes on after a failure, for the mutating calls are
    made for every fetched record that needs one: in the remap handler for
    every record with a matching field, in the copy handler for every record
    of the copy scan whose key the snapshot scan did not return.  On a
    tracker that rejects updates of issue B, the remap scan goes on to C
    after the failure on B and ends with a count of 2; on a tracker that
    rejects a watcher on issue A, the copy scan goes on to C after the
    failure on A and ends with a count of 1. *)
Theorem mutation_failures_are_not_fatal {B : Type} `{Backend B} (b : B) (fuel : nat)
    (source target : string) (seed : option string)
    (issue : Issue) (updates : Payload) (st : Frame B) :
  let u := update_issue true issue updates st in
  let a := add_watcher true target issue st in
  let r := remap_user fuel source target seed true (enter b) in
  let w := copy_watchers fuel source target true (enter b) in
  outcome u = Done tt
  ∧ match (api_update_issue (key issue) updates (backend st)).1 with
    | Some e => issues_updated (final u) = issues_updated st
                ∧ last (output u) = Some (Log (MsgUpdateFailed (key issue) e))
    | None => issues_updated (final u) = issues_updated st + 1
              ∧ failures (output u) = []
    end
  ∧ outcome a = Done tt
  ∧ match (api_issue_add_watcher (key issue) target (backend st)).1 with
    | Some e => issues_updated (final a) = issues_updated st
                ∧ last (output a) = Some (Log (MsgAddWatcherFailed (key issue) e))
    | None => issues_updated (final a) = issues_updated st + 1
              ∧ failures (output a) = []
    end
  ∧ issues_updated (final r) = successes (output r)
  ∧ reported (output r) = (if completed (outcome r) then [successes (output r)] else [])
  ∧ match outcome r with
    | Raised e => raised_by (output r) = Some e
    | _ => True
    end
  ∧ failures (output r) = failed_keys (output r)
  ∧ mutated_keys (output r) = key <$> List.filter (any_hit source) (fetched (output r))
  ∧ issues_updated (final w) = successes (output w)
  ∧ match outcome w with
    | Raised e => raised_by (output w) = Some e
    | _ => True
    end
  ∧ failures (output w) = failed_keys (output w)
  ∧ mutated_keys (output w)
    = missing_keys (list_to_set (key <$> fetched (snapshot_phase (output w))))
        (fetched (copy_phase (output w)))
  ∧ (∀ k, let d := remap_user (1 + k) "alice" "bob" None true
                     (enter (tracker watched_abc ["B"])) in
          outcome d = Done PyNone
          ∧ mutated_keys (output d) = ["A"; "B"; "C"]
          ∧ failures (output d) = ["B"]
          ∧ issues_updated (final d) = 2
          ∧ reported (output d) = [2])
  ∧ ∀ k, let c := copy_watchers (1 + k) "alice" "bob" true
                    (enter (tracker watched_abc ["A"])) in
         outcome c = Done PyNone
         ∧ mutated_keys (output c) = ["A"; "C"]
         ∧ failures (output c) = ["A"]
         ∧ issues_updated (final c) = 1
         ∧ watch_set "bob" (backend (final c)) = {[ "B"; "C" ]}.
Proof.
  intros u a r w.
  destruct (remap_user_handled fuel source target seed true (enter b) eq_refl)
    as (Hn & _ & Hrep & Hout).
  destruct (copy_watchers_handled fuel source target true (enter b) eq_refl)
    as (Hn' & _ & _ & Hout').
  fold r in Hn, Hrep, Hout. fold w in Hn', Hout'.
  assert (mutated_keys (output r) = key <$> List.filter (any_hit source) (fetched (output r)))
    as Hscan.
  { subst r. rewrite remap_user_run.
    destruct (api_myself b) as [[e|myself] b1]; [done|].
    assert (fetched (remap_head source target true myself) = []
            ∧ mutated_keys (remap_head source target true myself) = []) as (Hf & Hm).
    { unfold remap_head. simpl. by destruct (bool_decide _). }
    destruct (api_user target b1) as [[e|target_user] b2];
      cbn [outcome final output prepend].
    - by rewrite fetched_app, mutated_keys_app, Hf, Hm.
    - destruct (remap_scan_obs fuel source target seed true (enter b2)) as [Hm' _].
      by rewrite !fetched_app, !mutated_keys_app, Hf, Hm, Hm'. }
  subst u a. rewrite update_issue_apply, add_watcher_apply.
  split_and!.
  - by destruct (api_update_issue _ _ _) as [[e|] b'].
  - by destruct (api_update_issue _ _ _) as [[e|] b'].
  - by destruct (api_issue_add_watcher _ _ _) as [[e|] b'].
  - by destruct (api_issue_add_watcher _ _ _) as [[e|] b'].
  - done.
  - done.
  - by destruct (outcome r).
  - apply recorded_remap_user.
  - done.
  - done.
  - by destruct (outcome w).
  - apply recorded_copy_watchers.
  - apply copy_watchers_obs.
  - intros k. by vm_compute.
  - intros k. by vm_compute.
Qed.
